(** * RenderEngine: the pipeline cache reconciler and the frame renderer

    A shallow embedding of [src/Objects/RenderEngine.cpp] (namespace [ed]):
    [Render], [Recompile], [FlushCache] and the private reconciler [m_cache],
    together with the properties of the compiled-shader cache.

    Pointers are addresses ([addr]); the three cache vectors are lists that
    are edited by index exactly as the [std::vector] calls of the source do,
    an index outside the vector being undefined behaviour ([Undefined]).
    Shader objects live in a free store ([heap]); the calls the engine makes
    on the device, the file reader and the shader backend are recorded, in
    order, in [trace]. *)

From stdpp Require Import base decidable option list gmap strings.
From Stdlib Require Import QArith.

Local Open Scope Z_scope.
Local Open Scope nat_scope.

(** ** Outcomes of running a piece of the engine *)

(** [Ok a]: the code ran to completion. [Undefined]: the code performed an
    operation whose behaviour C++ leaves undefined (vector index out of range,
    a cast to the wrong payload type, use of a destroyed object).
    [Diverged]: a loop of the model ran out of steps (shown never to occur). *)
Inductive outcome (A : Type) : Type :=
  | Ok (a : A)
  | Undefined
  | Diverged.
Arguments Ok {A} a.
Arguments Undefined {A}.
Arguments Diverged {A}.

#[global] Instance outcome_ret : MRet outcome := fun A a => Ok a.
#[global] Instance outcome_bind : MBind outcome := fun A B f m =>
  match m with
  | Ok a => f a
  | Undefined => Undefined
  | Diverged => Diverged
  end.

(** ** Data model *)

Definition addr := nat.

(** Modelled from the spec: the enumeration [PipelineItem::ItemType] is
    declared in [PipelineItem.h], which is not part of the excerpt; the spec
    gives the variants of a pipeline item as shader pass, geometry, blend state
    and depth-stencil state. *)
Inductive ItemType : Type :=
  | ShaderPass
  | Geometry
  | BlendState
  | DepthStencilState.

#[global] Instance ItemType_eq_dec : EqDecision ItemType.
Proof. solve_decision. Defined.

(** A [PipelineItem]: display name, variant tag and the pointer to the
    payload. The payload pointer [Data] is the identity of the item. *)
Record PipelineItem : Type := mkItem {
  Name : string;
  Type_ : ItemType;
  Data : addr;
}.

(** [pipe::ShaderPass], the payload of a top-level item. [VSInputLayout] is
    the list of declared input elements; the two slot tables say which
    constant-buffer slots are used. *)
Record ShaderPassData : Type := mkPass {
  VSPath : string;
  VSEntry : string;
  PSPath : string;
  PSEntry : string;
  VSInputLayout : list string;
  VSVariables : nat -> bool;
  PSVariables : nat -> bool;
  Items : list PipelineItem;
}.

Record GeometryItem : Type := mkGeometry {
  Topology : nat;
}.

Record DepthStencilData : Type := mkDepthStencil {
  StencilReference : nat;
}.

(** What a payload pointer points to. *)
Inductive Payload : Type :=
  | PShaderPass (p : ShaderPassData)
  | PGeometry (g : GeometryItem)
  | PBlendState
  | PDepthStencilState (d : DepthStencilData).

Inductive Stage : Type := VS | PS.

(** [ml::VertexShader] / [ml::PixelShader]: the bound input signature (a
    pointer to the input layout of a pass, or null) and the program the object
    holds: the source and entry point of its last successful load. *)
Record ShaderObject : Type := mkShader {
  InputSignature : option addr;
  Program : option (string * string);
}.

Inductive Severity : Type := Error | Warning | Message.

(** One entry of the [MessageStack]: severity, group and text. *)
Record Msg : Type := mkMsg {
  msg_type : Severity;
  msg_group : string;
  msg_text : string;
}.

(** Calls made on the collaborators, in program order. *)
Inductive Call : Type :=
  | RtCreate (w h : Z)
  | RtViewCreate
  | SetViewportSize (w h : Z)
  | RtBind
  | RtClear
  | RtClearDepthStencil
  | RSSetViewports (w h : Z)
  | SetInputLayout (pass : addr)
  | BindVS (pass : addr) (slot : nat)
  | BindPS (pass : addr) (slot : nat)
  | VertexShaderBind (obj : addr)
  | PixelShaderBind (obj : addr)
  | DefaultStateBind
  | SetGeometryTransform (geo : addr)
  | UpdateBuffers (st : Stage) (pass : addr)
  | SetTopology (t : nat)
  | Draw (geo : addr)
  | BlendStateBind (blend : addr)
  | DepthStencilStateBind (state : addr) (ref : nat)
  | WindowBind
  | InputLayoutReset (pass : addr)
  | LoadProjectFileCall (path : string)
  | LoadFromMemoryCall (st : Stage) (obj : addr) (src entry : string)
  | New (st : Stage) (obj : addr)
  | Delete (obj : addr).

(** The engine and what it acts on. [m_lastSize], [m_items], [m_vs], [m_ps]
    and [m_cacheTimer] are the members of [RenderEngine]; [m_cacheTimer] is
    the instant of the last [Restart]. [m_msgs] is the content of the message
    stack, [heap] the shader objects that are alive, [trace] the calls made so
    far. *)
Record World : Type := mkWorld {
  m_lastSize : Z * Z;
  m_items : list PipelineItem;
  m_vs : list addr;
  m_ps : list addr;
  m_cacheTimer : Q;
  m_msgs : list Msg;
  heap : gmap addr ShaderObject;
  trace : list Call;
}.

Definition set_lastSize (x : Z * Z) (s : World) : World :=
  mkWorld x (m_items s) (m_vs s) (m_ps s) (m_cacheTimer s) (m_msgs s) (heap s) (trace s).
Definition set_items (x : list PipelineItem) (s : World) : World :=
  mkWorld (m_lastSize s) x (m_vs s) (m_ps s) (m_cacheTimer s) (m_msgs s) (heap s) (trace s).
Definition set_vs (x : list addr) (s : World) : World :=
  mkWorld (m_lastSize s) (m_items s) x (m_ps s) (m_cacheTimer s) (m_msgs s) (heap s) (trace s).
Definition set_ps (x : list addr) (s : World) : World :=
  mkWorld (m_lastSize s) (m_items s) (m_vs s) x (m_cacheTimer s) (m_msgs s) (heap s) (trace s).
Definition set_cacheTimer (x : Q) (s : World) : World :=
  mkWorld (m_lastSize s) (m_items s) (m_vs s) (m_ps s) x (m_msgs s) (heap s) (trace s).
Definition set_msgs (x : list Msg) (s : World) : World :=
  mkWorld (m_lastSize s) (m_items s) (m_vs s) (m_ps s) (m_cacheTimer s) x (heap s) (trace s).
Definition set_heap (x : gmap addr ShaderObject) (s : World) : World :=
  mkWorld (m_lastSize s) (m_items s) (m_vs s) (m_ps s) (m_cacheTimer s) (m_msgs s) x (trace s).
Definition call (c : Call) (s : World) : World :=
  mkWorld (m_lastSize s) (m_items s) (m_vs s) (m_ps s) (m_cacheTimer s) (m_msgs s) (heap s)
          (trace s ++ [c]).

(** The engine as its constructor leaves it. *)
Definition RenderEngine_new (now : Q) (msgs : list Msg) : World :=
  mkWorld (0%Z, 0%Z) [] [] [] now msgs ∅ [].

(** ** [std::vector] operations *)

(** [v.insert(v.begin() + pos, x)]. *)
Definition vec_insert {A} (pos : nat) (x : A) (v : list A) : outcome (list A) :=
  if decide (pos ≤ length v) then Ok (take pos v ++ x :: drop pos v) else Undefined.

(** [v.erase(v.begin() + pos)]. *)
Definition vec_erase {A} (pos : nat) (v : list A) : outcome (list A) :=
  if decide (pos < length v) then Ok (delete pos v) else Undefined.

(** [v[i]]. *)
Definition vec_at {A} (i : nat) (v : list A) : outcome A :=
  match v !! i with
  | Some x => Ok x
  | None => Undefined
  end.

(** ** The message stack *)

(** Modelled from the spec: [MessageStack] is declared outside the excerpt;
    the spec gives it as [add(severity, group, text)] and [clear(group)]. *)
Definition MessageStack_Add (t : Severity) (group text : string) (msgs : list Msg) : list Msg :=
  msgs ++ [mkMsg t group text].

Definition MessageStack_ClearGroup (group : string) (msgs : list Msg) : list Msg :=
  filter (fun m => msg_group m ≠ group) msgs.

(** The entries of one group. *)
Definition group_of (group : string) (msgs : list Msg) : list Msg :=
  filter (fun m => msg_group m = group) msgs.

(** ** The free store of shader objects *)

(** [new ml::VertexShader()] / [new ml::PixelShader()]: an address that
    holds no live object. *)
Definition new_shader (st : Stage) (s : World) : addr * World :=
  let a := fresh (dom (heap s)) in
  (a, call (New st a) (set_heap (<[a := mkShader None None]> (heap s)) s)).

(** [delete p]. *)
Definition delete_shader (a : addr) (s : World) : outcome World :=
  match heap s !! a with
  | Some _ => Ok (call (Delete a) (set_heap (delete a (heap s)) s))
  | None => Undefined
  end.

(** [p->InputSignature = sig]. *)
Definition set_InputSignature (a : addr) (sig : option addr) (s : World) : outcome World :=
  match heap s !! a with
  | Some o => Ok (set_heap (<[a := mkShader sig (Program o)]> (heap s)) s)
  | None => Undefined
  end.

(** ** The operations of [RenderEngine] *)

Section RenderEngine.

(** The pipeline memory: what each payload pointer points to. *)
Variable mem : addr -> option Payload.

(** [ProjectParser::LoadProjectFile] (declared in [ProjectParser.h]): the
    text of a project file. *)
Variable LoadProjectFile : string -> string.

(** The shader backend: whether the source compiles for the stage, with the
    given input signature and entry point. *)
Variable compile : Stage -> option addr -> string -> string -> bool.

(** The number of constant-buffer slots of a pass (a macro of the shader
    variable container, outside the excerpt). *)
Variable CONSTANT_BUFFER_SLOTS : nat.

(** [(pipe::ShaderPass* )item->Data], dereferenced. *)
Definition as_ShaderPass (d : addr) : outcome ShaderPassData :=
  match mem d with
  | Some (PShaderPass p) => Ok p
  | _ => Undefined
  end.

Definition as_GeometryItem (d : addr) : outcome GeometryItem :=
  match mem d with
  | Some (PGeometry g) => Ok g
  | _ => Undefined
  end.

Definition as_BlendState (d : addr) : outcome unit :=
  match mem d with
  | Some PBlendState => Ok tt
  | _ => Undefined
  end.

Definition as_DepthStencilState (d : addr) : outcome DepthStencilData :=
  match mem d with
  | Some (PDepthStencilState x) => Ok x
  | _ => Undefined
  end.

(** [m_project->LoadProjectFile(path)]. *)
Definition load_file (path : string) (s : World) : string * World :=
  (LoadProjectFile path, call (LoadProjectFileCall path) s).

(** [p->LoadFromMemory( *m_wnd, src, size, entry)]: compiles into the object
    [p] and says whether that succeeded. *)
Definition LoadFromMemory (st : Stage) (a : addr) (src entry : string) (s : World)
  : outcome (bool * World) :=
  match heap s !! a with
  | Some o =>
      let ok := compile st (InputSignature o) src entry in
      let o' := mkShader (InputSignature o) (if ok then Some (src, entry) else None) in
      Ok (ok, call (LoadFromMemoryCall st a src entry) (set_heap (<[a := o']> (heap s)) s))
  | None => Undefined
  end.

(** The diagnostics of one compile attempt. *)
Definition report (name text : string) (vsCompiled psCompiled : bool) (s : World) : World :=
  if negb vsCompiled || negb psCompiled
  then set_msgs (MessageStack_Add Error name text (m_msgs s)) s
  else set_msgs (MessageStack_ClearGroup name (m_msgs s)) s.

(** *** [RenderEngine::FlushCache] *)

Fixpoint delete_all (l : list addr) (s : World) : outcome World :=
  match l with
  | [] => Ok s
  | a :: l' => s' ← delete_shader a s; delete_all l' s'
  end.

Definition FlushCache (s : World) : outcome World :=
  s ← delete_all (m_vs s) s;
  s ← delete_all (m_ps s) s;
  Ok (set_items [] (set_ps [] (set_vs [] s))).

(** *** [RenderEngine::Recompile] *)

(** The body of the loop for index [i], where [item] is [m_items[i]]. *)
Definition Recompile_item (name : string) (i : nat) (item : PipelineItem) (s : World)
  : outcome World :=
  if decide (Name item = name) then
    shader ← as_ShaderPass (Data item);
    v ← vec_at i (m_vs s);
    s ← (if decide (0 < length (VSInputLayout shader))
         then s ← set_InputSignature v (Some (Data item)) s;
              Ok (call (InputLayoutReset (Data item)) s)
         else set_InputSignature v None s);
    let '(vsContent, s) := load_file (VSPath shader) s in
    let '(psContent, s) := load_file (PSPath shader) s in
    v ← vec_at i (m_vs s);
    '(vsCompiled, s) ← LoadFromMemory VS v vsContent (VSEntry shader) s;
    p ← vec_at i (m_ps s);
    '(psCompiled, s) ← LoadFromMemory PS p psContent (PSEntry shader) s;
    Ok (report (Name item) "Failed to compile the shader(s)" vsCompiled psCompiled s)
  else Ok s.

Fixpoint Recompile_loop (name : string) (rest : list PipelineItem) (i : nat) (s : World)
  : outcome World :=
  match rest with
  | [] => Ok s
  | item :: rest' => s' ← Recompile_item name i item s; Recompile_loop name rest' (S i) s'
  end.

Definition Recompile (name : string) (s : World) : outcome World :=
  Recompile_loop name (m_items s) 0 s.

(** *** [RenderEngine::m_cache] *)

(** The search loops: is there an entry of [l] with payload pointer [d]? *)
Fixpoint found (d : addr) (l : list PipelineItem) : bool :=
  match l with
  | [] => false
  | it :: l' => if decide (Data it = d) then true else found d l'
  end.

(** ITEM CACHING: the body of the insertion loop when [items[i]] was not
    found. *)
Definition cache_item (i : nat) (item : PipelineItem) (s : World) : outcome World :=
  its ← vec_insert i item (m_items s);
  let s := set_items its s in
  data ← as_ShaderPass (Data item);
  let '(vShader, s) := new_shader VS s in
  let '(pShader, s) := new_shader PS s in
  let s := call (InputLayoutReset (Data item)) s in
  s ← set_InputSignature vShader
        (if decide (0 < length (VSInputLayout data)) then Some (Data item) else None) s;
  let '(vsContent, s) := load_file (VSPath data) s in
  let '(psContent, s) := load_file (PSPath data) s in
  '(vsCompiled, s) ← LoadFromMemory VS vShader vsContent (VSEntry data) s;
  '(psCompiled, s) ← LoadFromMemory PS pShader psContent (PSEntry data) s;
  let s := report (Name item) "Failed to compile the shader" vsCompiled psCompiled s in
  vs ← vec_insert i vShader (m_vs s);
  let s := set_vs vs s in
  ps ← vec_insert i pShader (m_ps s);
  Ok (set_ps ps s).

(** "check if some item was added": [rest] is what is left of the external
    list from index [i] on. *)
Fixpoint insert_loop (rest : list PipelineItem) (i : nat) (s : World) : outcome World :=
  match rest with
  | [] => Ok s
  | item :: rest' =>
      s' ← (if found (Data item) (m_items s) then Ok s else cache_item i item s);
      insert_loop rest' (S i) s'
  end.

(** The body of the removal loop when [m_items[i]] was not found. *)
Definition uncache_item (i : nat) (s : World) : outcome World :=
  v ← vec_at i (m_vs s);
  s ← delete_shader v s;
  p ← vec_at i (m_ps s);
  s ← delete_shader p s;
  vs ← vec_erase i (m_vs s);
  let s := set_vs vs s in
  ps ← vec_erase i (m_ps s);
  let s := set_ps ps s in
  its ← vec_erase i (m_items s);
  Ok (set_items its s).

(** "check if some item was removed": the loop condition
    [i < m_items.size()] is evaluated at every round, on the vector as the
    erasures have left it. *)
Fixpoint remove_loop (items : list PipelineItem) (fuel i : nat) (s : World) : outcome World :=
  match m_items s !! i with
  | None => Ok s
  | Some it =>
      match fuel with
      | 0 => Diverged
      | S fuel' =>
          s' ← (if found (Data it) items then Ok s else uncache_item i s);
          remove_loop items fuel' (S i) s'
      end
  end.

(** The body of the inner loop of the reordering pass, for [items[j] = x]. *)
Definition move_item (i j : nat) (x : PipelineItem) (s : World) : outcome World :=
  it ← vec_at i (m_items s);
  if decide (Data x = Data it) then
    let dest := if decide (i < j) then j - 1 else j in
    its ← vec_erase i (m_items s);
    its ← vec_insert dest x its;
    let s := set_items its s in
    vsCopy ← vec_at i (m_vs s);
    psCopy ← vec_at i (m_ps s);
    vs ← vec_erase i (m_vs s);
    vs ← vec_insert dest vsCopy vs;
    let s := set_vs vs s in
    ps ← vec_erase i (m_ps s);
    ps ← vec_insert dest psCopy ps;
    Ok (set_ps ps s)
  else Ok s.

(** "find the real position from original list": [rest] is what is left of
    the external list from index [j] on. *)
Fixpoint move_scan (i : nat) (rest : list PipelineItem) (j : nat) (s : World) : outcome World :=
  match rest with
  | [] => Ok s
  | x :: rest' => s' ← move_item i j x s; move_scan i rest' (S j) s'
  end.

(** "check if the order of the items changed". *)
Fixpoint move_loop (items : list PipelineItem) (fuel i : nat) (s : World) : outcome World :=
  match m_items s !! i with
  | None => Ok s
  | Some it =>
      match fuel with
      | 0 => Diverged
      | S fuel' =>
          x ← vec_at i items;
          s' ← (if decide (Data x ≠ Data it) then move_scan i items 0 s else Ok s);
          move_loop items fuel' (S i) s'
      end
  end.

(** The full scan: the three passes of [m_cache] after the throttle. *)
Definition full_scan (items : list PipelineItem) (s : World) : outcome World :=
  s ← insert_loop items 0 s;
  s ← remove_loop items (length (m_items s)) 0 s;
  move_loop items (length (m_items s)) 0 s.

(** [m_cache()], where [items] is what [m_pipeline->GetList()] returns and
    [now] is the instant of the call: [m_cacheTimer.GetElapsedTime()] is
    [now - m_cacheTimer]. *)
Definition m_cache (items : list PipelineItem) (now : Q) (s : World) : outcome World :=
  if decide (length (m_items s) = length items) then
    if Qlt_le_dec (1 # 2) (now - m_cacheTimer s)
    then full_scan items (set_cacheTimer now s)
    else Ok s
  else full_scan items s.

(** *** [RenderEngine::Render] *)

(** "render pipeline items": one child [item] of the pass at [pass]. *)
Definition render_item (pass : addr) (item : PipelineItem) (s : World) : outcome World :=
  if decide (Type_ item = Geometry) then
    geoData ← as_GeometryItem (Data item);
    let s := call (SetGeometryTransform (Data item)) s in
    let s := call (UpdateBuffers VS pass) s in
    let s := call (UpdateBuffers PS pass) s in
    let s := call (SetTopology (Topology geoData)) s in
    Ok (call (Draw (Data item)) s)
  else if decide (Type_ item = BlendState) then
    _ ← as_BlendState (Data item);
    Ok (call (BlendStateBind (Data item)) s)
  else if decide (Type_ item = DepthStencilState) then
    state ← as_DepthStencilState (Data item);
    Ok (call (DepthStencilStateBind (Data item) (StencilReference state)) s)
  else Ok s.

Fixpoint render_items (pass : addr) (children : list PipelineItem) (s : World)
  : outcome World :=
  match children with
  | [] => Ok s
  | item :: rest => s' ← render_item pass item s; render_items pass rest s'
  end.

(** "bind shaders and their variables": slots [j], [j+1], ... [j+n-1]. *)
Fixpoint bind_slots (pass : addr) (data : ShaderPassData) (n j : nat) (s : World) : World :=
  match n with
  | 0 => s
  | S n' =>
      let s := if VSVariables data j then call (BindVS pass j) s else s in
      let s := if PSVariables data j then call (BindPS pass j) s else s in
      bind_slots pass data n' (S j) s
  end.

(** [p->Bind()] on a shader object. *)
Definition bind_shader (c : addr -> Call) (a : addr) (s : World) : outcome World :=
  match heap s !! a with
  | Some _ => Ok (call (c a) s)
  | None => Undefined
  end.

(** The body of the loop over the snapshot, for [it = m_items[i]]. *)
Definition render_pass (i : nat) (it : PipelineItem) (s : World) : outcome World :=
  data ← as_ShaderPass (Data it);
  let s := call (SetInputLayout (Data it)) s in
  let s := bind_slots (Data it) data CONSTANT_BUFFER_SLOTS 0 s in
  v ← vec_at i (m_vs s);
  s ← bind_shader VertexShaderBind v s;
  p ← vec_at i (m_ps s);
  s ← bind_shader PixelShaderBind p s;
  let s := call DefaultStateBind s in
  render_items (Data it) (Items data) s.

Fixpoint render_passes (rest : list PipelineItem) (i : nat) (s : World) : outcome World :=
  match rest with
  | [] => Ok s
  | it :: rest' => s' ← render_pass i it s; render_passes rest' (S i) s'
  end.

(** "recreate render texture if size is changed". *)
Definition sync_render_target (width height : Z) (s : World) : World :=
  if decide (fst (m_lastSize s) ≠ width ∨ snd (m_lastSize s) ≠ height)
  then call RtViewCreate (call (RtCreate width height) (set_lastSize (width, height) s))
  else s.

(** [Render(width, height)], with the external list and the instant of the
    call as for [m_cache]. *)
Definition Render (items : list PipelineItem) (now : Q) (width height : Z) (s : World)
  : outcome World :=
  let s := sync_render_target width height s in
  let s := call (SetViewportSize width height) s in
  s ← m_cache items now s;
  let s := call RtBind s in
  let s := call RtClear s in
  let s := call RtClearDepthStencil s in
  let s := call (RSSetViewports width height) s in
  s ← render_passes (m_items s) 0 s;
  Ok (call WindowBind s).

(** ** Predicates on worlds *)

(** The three cache vectors are index-aligned and no identity occurs
    twice. *)
Definition cache_inv (s : World) : Prop :=
  length (m_vs s) = length (m_items s) ∧
  length (m_ps s) = length (m_items s) ∧
  NoDup (Data <$> m_items s).

(** The cache owns its shader objects: they are alive and pairwise
    different. *)
Definition cache_owned (s : World) : Prop :=
  NoDup (m_vs s ++ m_ps s) ∧
  ∀ a, a ∈ m_vs s ++ m_ps s → is_Some (heap s !! a).

(** The cache entries: the identity of a snapshot item with the shader
    objects at its index. *)
Definition entries (s : World) : list (addr * (addr * addr)) :=
  zip (Data <$> m_items s) (zip (m_vs s) (m_ps s)).

(** [s'] is [s] with cache entries relocated: the same entries, each identity
    with the shader objects it had, and the same shader objects, messages and
    calls. *)
Definition relocation (s s' : World) : Prop :=
  entries s' ≡ₚ entries s ∧ heap s' = heap s ∧ m_msgs s' = m_msgs s ∧ trace s' = trace s.

(** The three cache vectors have the same length. *)
Definition aligned (s : World) : Prop :=
  length (m_vs s) = length (m_items s) ∧ length (m_ps s) = length (m_items s).

(** The calls that create the render target: the texture and its view. *)
Definition is_rt_creation (c : Call) : bool :=
  match c with
  | RtCreate _ _ | RtViewCreate => true
  | _ => false
  end.

(** The creations of the render target among the calls made. *)
Definition rt_creations (t : list Call) : list Call :=
  filter (fun c => is_rt_creation c = true) t.

(** ** What one compile attempt leaves behind *)

(** The input signature bound to the vertex shader of a pass. *)
Definition signature_of (item : PipelineItem) (data : ShaderPassData) : option addr :=
  if decide (0 < length (VSInputLayout data)) then Some (Data item) else None.

(** The object a load leaves: it holds the program when the backend
    accepted the source. *)
Definition loaded (st : Stage) (sig : option addr) (path entry : string) : ShaderObject :=
  mkShader sig
    (if compile st sig (LoadProjectFile path) entry
     then Some (LoadProjectFile path, entry) else None).

(** Whether both stages of a pass compile. *)
Definition compiles (vsig psig : option addr) (data : ShaderPassData) : bool :=
  compile VS vsig (LoadProjectFile (VSPath data)) (VSEntry data) &&
  compile PS psig (LoadProjectFile (PSPath data)) (PSEntry data).

(** The messages after an attempt on the item called [name]. *)
Definition diagnosed (name text : string) (ok : bool) (msgs : list Msg) : list Msg :=
  if ok then MessageStack_ClearGroup name msgs else MessageStack_Add Error name text msgs.

(** The world after [cache_item i item], for an item whose payload is the
    pass [data]. *)
Definition cached (i : nat) (item : PipelineItem) (data : ShaderPassData) (s : World)
  : World :=
  let vShader := fresh (dom (heap s)) in
  let pShader := fresh (dom (<[vShader := mkShader None None]> (heap s))) in
  let sig := signature_of item data in
  mkWorld (m_lastSize s)
    (take i (m_items s) ++ item :: drop i (m_items s))
    (take i (m_vs s) ++ vShader :: drop i (m_vs s))
    (take i (m_ps s) ++ pShader :: drop i (m_ps s))
    (m_cacheTimer s)
    (diagnosed (Name item) "Failed to compile the shader" (compiles sig None data) (m_msgs s))
    (<[pShader := loaded PS None (PSPath data) (PSEntry data)]>
       (<[vShader := loaded VS sig (VSPath data) (VSEntry data)]> (heap s)))
    (trace s ++
       [New VS vShader; New PS pShader; InputLayoutReset (Data item);
        LoadProjectFileCall (VSPath data); LoadProjectFileCall (PSPath data);
        LoadFromMemoryCall VS vShader (LoadProjectFile (VSPath data)) (VSEntry data);
        LoadFromMemoryCall PS pShader (LoadProjectFile (PSPath data)) (PSEntry data)]).

(** The world after [Recompile_item] on a matching item at index [i], whose
    shader objects are [v] and [p]; [op] is the pixel shader object as it
    was. *)
Definition recompiled (item : PipelineItem) (data : ShaderPassData) (v p : addr)
    (op : ShaderObject) (s : World) : World :=
  let sig := signature_of item data in
  mkWorld (m_lastSize s) (m_items s) (m_vs s) (m_ps s) (m_cacheTimer s)
    (diagnosed (Name item) "Failed to compile the shader(s)"
       (compiles sig (InputSignature op) data) (m_msgs s))
    (<[p := loaded PS (InputSignature op) (PSPath data) (PSEntry data)]>
       (<[v := loaded VS sig (VSPath data) (VSEntry data)]> (heap s)))
    (trace s ++
       (if decide (0 < length (VSInputLayout data))
        then [InputLayoutReset (Data item)] else []) ++
       [LoadProjectFileCall (VSPath data); LoadProjectFileCall (PSPath data);
        LoadFromMemoryCall VS v (LoadProjectFile (VSPath data)) (VSEntry data);
        LoadFromMemoryCall PS p (LoadProjectFile (PSPath data)) (PSEntry data)]).

(** The world after [uncache_item i], when the shader objects at index [i]
    are [v] and [p]. *)
Definition uncached (i : nat) (v p : addr) (s : World) : World :=
  mkWorld (m_lastSize s) (delete i (m_items s)) (delete i (m_vs s)) (delete i (m_ps s))
    (m_cacheTimer s) (m_msgs s) (delete p (delete v (heap s)))
    (trace s ++ [Delete v; Delete p]).

(** Every live shader object is in the cache: none is leaked. *)
Definition no_leak (s : World) : Prop :=
  ∀ a, is_Some (heap s !! a) → a ∈ m_vs s ++ m_ps s.

(** One public operation of the engine, run to completion. *)
Inductive step : World -> World -> Prop :=
  | step_Render items now width height s s' :
      Render items now width height s = Ok s' → step s s'
  | step_Recompile name s s' :
      Recompile name s = Ok s' → step s s'
  | step_FlushCache s s' :
      FlushCache s = Ok s' → step s s'.

(** The worlds an engine comes to, from its construction on, through its
    public operations. *)
Inductive reachable : World -> Prop :=
  | reachable_new now msgs : reachable (RenderEngine_new now msgs)
  | reachable_step s s' : reachable s → step s s' → reachable s'.

(** How many of the calls made satisfy [P]. *)
Definition count_calls (P : Call -> bool) (t : list Call) : nat :=
  length (filter (fun c => P c = true) t).

Definition is_BindVS (c : Call) : bool :=
  match c with BindVS _ _ => true | _ => false end.

Definition is_BindPS (c : Call) : bool :=
  match c with BindPS _ _ => true | _ => false end.

Definition is_Draw (c : Call) : bool :=
  match c with Draw _ => true | _ => false end.

Definition is_UpdateBuffers (c : Call) : bool :=
  match c with UpdateBuffers _ _ => true | _ => false end.

Definition is_BlendStateBind (c : Call) : bool :=
  match c with BlendStateBind _ => true | _ => false end.

Definition is_DepthStencilStateBind (c : Call) : bool :=
  match c with DepthStencilStateBind _ _ => true | _ => false end.

(** How many of the slots [j], ..., [j + n - 1] of a slot table are used. *)
Definition used_slots (table : nat -> bool) (j n : nat) : nat :=
  length (filter (fun k => table k = true) (seq j n)).

(** How many of the children have the type [t]. *)
Definition children_of_type (t : ItemType) (children : list PipelineItem) : nat :=
  length (filter (fun it => Type_ it = t) children).

Definition is_shader_bind (c : Call) : bool :=
  match c with VertexShaderBind _ | PixelShaderBind _ => true | _ => false end.

(** The binds of shader objects among the calls made, in their order. *)
Definition shader_binds (t : list Call) : list Call :=
  filter (fun c => is_shader_bind c = true) t.

(** The binds that go through two shader vectors in step: the vertex shader
    then the pixel shader of each index. *)
Definition pair_binds (vs ps : list addr) : list Call :=
  concat (zip_with (fun v p => [VertexShaderBind v; PixelShaderBind p]) vs ps).

(** The snapshot's side of the reordering pass: what [move_item],
    [move_scan] and [move_loop] do to [m_items], which the two shader vectors
    follow move by move. *)
Definition move_item_order (i j : nat) (x : PipelineItem) (l : list PipelineItem)
  : list PipelineItem :=
  match l !! i with
  | Some it =>
      if decide (Data x = Data it) then
        let dest := if decide (i < j) then j - 1 else j in
        take dest (delete i l) ++ x :: drop dest (delete i l)
      else l
  | None => l
  end.

Fixpoint move_scan_order (i : nat) (rest : list PipelineItem) (j : nat)
    (l : list PipelineItem) : list PipelineItem :=
  match rest with
  | [] => l
  | x :: rest' => move_scan_order i rest' (S j) (move_item_order i j x l)
  end.

Fixpoint move_loop_order (items : list PipelineItem) (fuel i : nat)
    (l : list PipelineItem) : list PipelineItem :=
  match l !! i with
  | None => l
  | Some it =>
      match fuel, items !! i with
      | S fuel', Some x =>
          move_loop_order items fuel' (S i)
            (if decide (Data x ≠ Data it) then move_scan_order i items 0 l else l)
      | _, _ => l
      end
  end.

(** ** A sample project *)

(** Four passes [A], [B], [C], [D] with payloads at addresses 1 to 4, a
    fifth pass [X] at 5 whose pixel shader does not compile, and the children
    of the passes: a geometry at 50, a blend state at 51 and a nested pass. *)
Definition demo_children : list PipelineItem :=
  [mkItem "Box" Geometry 50; mkItem "Nested" ShaderPass 1; mkItem "Blend" BlendState 51].

Definition demo_pass (ps : string) : ShaderPassData :=
  mkPass "simple.vs" "main" ps "main" ["POSITION"]
    (fun j => bool_decide (j = 0)) (fun _ => false) demo_children.

Definition demo_mem (a : addr) : option Payload :=
  if decide (1 ≤ a ≤ 4) then Some (PShaderPass (demo_pass "simple.ps"))
  else if decide (a = 5) then Some (PShaderPass (demo_pass "broken.ps"))
  else if decide (a = 50) then Some (PGeometry (mkGeometry 4))
  else if decide (a = 51) then Some PBlendState
  else None.

Definition demo_files (path : string) : string :=
  if decide (path = "broken.ps") then "#error" else "float4 main() : SV_Target { return 1; }".

Definition demo_compile (st : Stage) (sig : option addr) (src entry : string) : bool :=
  bool_decide (src ≠ "#error").

Definition demo_A : PipelineItem := mkItem "A" ShaderPass 1.
Definition demo_B : PipelineItem := mkItem "B" ShaderPass 2.
Definition demo_C : PipelineItem := mkItem "C" ShaderPass 3.
Definition demo_D : PipelineItem := mkItem "D" ShaderPass 4.
Definition demo_X : PipelineItem := mkItem "X" ShaderPass 5.

Definition demo_shader (sig : option addr) : ShaderObject :=
  mkShader sig (Some ("float4 main() : SV_Target { return 1; }", "main")).

(** An engine that has cached the given passes: the pass with payload [n]
    has its vertex shader at [100 + n] and its pixel shader at [200 + n]. *)
Definition demo_world (snapshot : list PipelineItem) : World :=
  mkWorld (640%Z, 480%Z) snapshot
    ((fun it => 100 + Data it) <$> snapshot)
    ((fun it => 200 + Data it) <$> snapshot)
    0 []
    (list_to_map
       (((fun it => (100 + Data it, demo_shader (Some (Data it)))) <$> snapshot) ++
        ((fun it => (200 + Data it, demo_shader None)) <$> snapshot)))
    [].

(** ** Basic facts *)

Lemma bind_Ok {A B} (m : outcome A) (f : A -> outcome B) (b : B) :
  m ≫= f = Ok b → ∃ a, m = Ok a ∧ f a = Ok b.
Proof. destruct m; simpl; intros H; try discriminate. eauto. Qed.

Lemma World_eq s1 s2 :
  m_lastSize s1 = m_lastSize s2 → m_items s1 = m_items s2 → m_vs s1 = m_vs s2 →
  m_ps s1 = m_ps s2 → m_cacheTimer s1 = m_cacheTimer s2 → m_msgs s1 = m_msgs s2 →
  heap s1 = heap s2 → trace s1 = trace s2 → s1 = s2.
Proof. destruct s1, s2. simpl. by intros -> -> -> -> -> -> -> ->. Qed.

Lemma found_spec d l : found d l = true ↔ d ∈ (Data <$> l).
Proof.
  induction l as [|it l IH]; simpl.
  - split; [discriminate | intros H; inversion H].
  - destruct (decide (Data it = d)) as [->|Hne].
    + split; [intros _; left | done].
    + rewrite IH. split; [by right | intros H].
      apply elem_of_cons in H as [H|H]; [congruence | done].
Qed.

Lemma found_false d l : found d l = false ↔ d ∉ (Data <$> l).
Proof.
  rewrite <- found_spec. destruct (found d l); split; congruence.
Qed.

(** ** [FlushCache] *)

Lemma delete_all_spec l s :
  NoDup l →
  (∀ a, a ∈ l → is_Some (heap s !! a)) →
  ∃ s', delete_all l s = Ok s' ∧
    m_lastSize s' = m_lastSize s ∧ m_items s' = m_items s ∧
    m_vs s' = m_vs s ∧ m_ps s' = m_ps s ∧
    m_cacheTimer s' = m_cacheTimer s ∧ m_msgs s' = m_msgs s ∧
    trace s' = trace s ++ map Delete l ∧
    (∀ a, heap s' !! a = if decide (a ∈ l) then None else heap s !! a).
Proof.
  intros Hnd. revert s. induction Hnd as [|a l Hnotin Hnd IH]; intros s Hlive.
  - exists s. simpl. rewrite app_nil_r. repeat split; done.
  - destruct (Hlive a) as [o Ho]; [left |].
    simpl. unfold delete_shader. rewrite Ho. simpl.
    set (s1 := call (Delete a) (set_heap (delete a (heap s)) s)).
    destruct (IH s1) as (s' & Hrun & H1 & H2 & H3 & H4 & H5 & H6 & H7 & H8).
    { intros b Hb. simpl. rewrite lookup_delete_ne; [apply Hlive; by right |].
      intros ->. done. }
    exists s'. rewrite Hrun, H1, H2, H3, H4, H5, H6, H7. simpl.
    repeat split; try done.
    + by rewrite <- app_assoc.
    + intros b. rewrite H8. simpl.
      destruct (decide (b ∈ l)) as [Hb|Hb].
      * rewrite decide_True; [done | by right].
      * destruct (decide (b = a)) as [->|Hne].
        -- rewrite decide_True; [apply lookup_delete_eq | left].
        -- rewrite decide_False; [by apply lookup_delete_ne |].
           intros Hin. apply elem_of_cons in Hin as [?|?]; done.
Qed.

(** C9. [FlushCache] destroys every shader object of both vectors and
    leaves the three cache vectors empty; on a cache that is already empty
    it destroys nothing and leaves the world as it is, so that flushing
    twice is flushing once. *)
Theorem FlushCache_spec s :
  cache_owned s →
  (∃ s', FlushCache s = Ok s' ∧
     m_items s' = [] ∧ m_vs s' = [] ∧ m_ps s' = [] ∧
     (∀ a, a ∈ m_vs s ++ m_ps s → heap s' !! a = None) ∧
     (∀ a, a ∉ m_vs s ++ m_ps s → heap s' !! a = heap s !! a) ∧
     trace s' = trace s ++ map Delete (m_vs s) ++ map Delete (m_ps s) ∧
     FlushCache s' = Ok s') ∧
  (m_items s = [] → m_vs s = [] → m_ps s = [] → FlushCache s = Ok s).
Proof.
  intros [Hnd Hlive]. split.
  - apply NoDup_app in Hnd as (Hv & Hdisj & Hp).
    destruct (delete_all_spec (m_vs s) s) as (s1 & R1 & _ & _ & V1 & P1 & _ & _ & T1 & L1);
      [done | intros a Ha; apply Hlive, elem_of_app; by left |].
    destruct (delete_all_spec (m_ps s1) s1) as (s2 & R2 & _ & _ & _ & _ & _ & _ & T2 & L2).
    { by rewrite P1. }
    { intros a Ha. rewrite L1. rewrite P1 in Ha.
      rewrite decide_False; [apply Hlive, elem_of_app; by right |].
      intros Hin. by apply (Hdisj a). }
    eexists. unfold FlushCache. rewrite R1. simpl. rewrite R2. simpl.
    split; [reflexivity |]. simpl. repeat split.
    + intros a Ha. rewrite L2, L1, P1.
      apply elem_of_app in Ha as [Ha|Ha].
      * destruct (decide (a ∈ m_ps s)); [done |]. by rewrite decide_True.
      * by rewrite decide_True.
    + intros a Ha. rewrite L2, L1, P1.
      rewrite !decide_False; [done | |]; intros Hin; apply Ha, elem_of_app; auto.
    + rewrite T2, T1, P1. by rewrite <- app_assoc.
  - intros Hi Hv Hp. unfold FlushCache. rewrite Hv. simpl. rewrite Hp. simpl.
    f_equal. by apply World_eq.
Qed.

(** ** What the engine leaves alone *)

(** Inversion of a run that completed: splits the binds, the vector
    accesses and the tests of a hypothesis [H : ... = Ok _]. *)
Ltac ok_inv H :=
  repeat match type of H with
    | Ok _ = Ok _ => injection H as H
    | Undefined = Ok _ => discriminate H
    | Diverged = Ok _ => discriminate H
    | mbind _ ?m = Ok _ =>
        let E := fresh "E" in destruct m eqn:E; simpl in H; [| discriminate H ..]
    | (let '(_, _) := ?p in _) = Ok _ => destruct p
    | (if ?c then _ else _) = Ok _ => destruct c
    | (match ?x with _ => _ end) = Ok _ =>
        let E := fresh "E" in destruct x eqn:E
    end.

Section DrawFrame.

(** An observation of the world that no call other than the creation of
    the render target changes. *)
Context {X : Type} (obs : World -> X).
Hypothesis obs_call : ∀ c s, is_rt_creation c = false → obs (call c s) = obs s.

Lemma render_item_frame pass item s s' :
  render_item pass item s = Ok s' → obs s' = obs s.
Proof.
  unfold render_item. intros H. ok_inv H; subst; by rewrite ?obs_call.
Qed.

Lemma render_items_frame pass children s s' :
  render_items pass children s = Ok s' → obs s' = obs s.
Proof.
  revert s. induction children as [|item rest IH]; simpl; intros s H.
  - by injection H as ->.
  - apply bind_Ok in H as (s1 & H1 & H2).
    rewrite (IH _ H2). by apply render_item_frame in H1.
Qed.

Lemma bind_slots_frame pass data n j s :
  obs (bind_slots pass data n j s) = obs s.
Proof.
  revert j s. induction n as [|n IH]; simpl; intros j s; [done |].
  rewrite IH. destruct (VSVariables data j), (PSVariables data j);
    by rewrite ?obs_call.
Qed.

Lemma render_pass_frame i it s s' :
  render_pass i it s = Ok s' → obs s' = obs s.
Proof.
  unfold render_pass, bind_shader. intros H.
  apply bind_Ok in H as (data & _ & H).
  apply bind_Ok in H as (v & _ & H).
  apply bind_Ok in H as (s1 & H1 & H).
  apply bind_Ok in H as (p & _ & H).
  apply bind_Ok in H as (s2 & H2 & H).
  apply render_items_frame in H. rewrite H.
  ok_inv H2. ok_inv H1. subst.
  by rewrite !obs_call, bind_slots_frame, obs_call.
Qed.

Lemma render_passes_frame rest i s s' :
  render_passes rest i s = Ok s' → obs s' = obs s.
Proof.
  revert i s. induction rest as [|it rest IH]; simpl; intros i s H.
  - by injection H as ->.
  - apply bind_Ok in H as (s1 & H1 & H2).
    rewrite (IH _ _ H2). by apply render_pass_frame in H1.
Qed.

End DrawFrame.

Section CacheFrame.

(** An observation that the reconciler cannot change: it does not depend
    on the cache vectors, the free store, the messages or the timer, nor on
    calls other than the creation of the render target. *)
Context {X : Type} (obs : World -> X).
Hypothesis obs_call : ∀ c s, is_rt_creation c = false → obs (call c s) = obs s.
Hypothesis obs_items : ∀ x s, obs (set_items x s) = obs s.
Hypothesis obs_vs : ∀ x s, obs (set_vs x s) = obs s.
Hypothesis obs_ps : ∀ x s, obs (set_ps x s) = obs s.
Hypothesis obs_heap : ∀ x s, obs (set_heap x s) = obs s.
Hypothesis obs_msgs : ∀ x s, obs (set_msgs x s) = obs s.
Hypothesis obs_timer : ∀ x s, obs (set_cacheTimer x s) = obs s.

Ltac frame :=
  repeat first
    [ rewrite obs_call by reflexivity | rewrite obs_items | rewrite obs_vs
    | rewrite obs_ps | rewrite obs_heap | rewrite obs_msgs | rewrite obs_timer ].

Lemma delete_shader_frame a s s' : delete_shader a s = Ok s' → obs s' = obs s.
Proof. unfold delete_shader. intros H. ok_inv H. subst. by frame. Qed.

Lemma set_InputSignature_frame a sig s s' :
  set_InputSignature a sig s = Ok s' → obs s' = obs s.
Proof. unfold set_InputSignature. intros H. ok_inv H. subst. by frame. Qed.

Lemma LoadFromMemory_frame st a src entry s ok s' :
  LoadFromMemory st a src entry s = Ok (ok, s') → obs s' = obs s.
Proof.
  unfold LoadFromMemory. intros H. destruct (heap s !! a); [| discriminate].
  injection H as _ <-. by frame.
Qed.

Lemma report_frame name text v p s : obs (report name text v p s) = obs s.
Proof. unfold report. destruct (negb v || negb p); by frame. Qed.

Lemma cache_item_frame i item s s' : cache_item i item s = Ok s' → obs s' = obs s.
Proof.
  unfold cache_item, new_shader, load_file. intros H.
  apply bind_Ok in H as (its & _ & H).
  apply bind_Ok in H as (data & _ & H).
  apply bind_Ok in H as (s1 & H1 & H).
  apply bind_Ok in H as ([vsCompiled s2] & H2 & H).
  apply bind_Ok in H as ([psCompiled s3] & H3 & H).
  apply bind_Ok in H as (vs & _ & H).
  apply bind_Ok in H as (ps & _ & H).
  injection H as <-.
  apply set_InputSignature_frame in H1.
  apply LoadFromMemory_frame in H2. apply LoadFromMemory_frame in H3.
  frame. rewrite report_frame, H3, H2. frame. rewrite H1. by frame.
Qed.

Lemma insert_loop_frame rest i s s' : insert_loop rest i s = Ok s' → obs s' = obs s.
Proof.
  revert i s. induction rest as [|item rest IH]; simpl; intros i s H.
  - by injection H as ->.
  - apply bind_Ok in H as (s1 & H1 & H2). rewrite (IH _ _ H2).
    destruct (found (Data item) (m_items s)).
    + by injection H1 as ->.
    + by apply cache_item_frame in H1.
Qed.

Lemma uncache_item_frame i s s' : uncache_item i s = Ok s' → obs s' = obs s.
Proof.
  unfold uncache_item. intros H.
  apply bind_Ok in H as (v & _ & H).
  apply bind_Ok in H as (s1 & H1 & H).
  apply bind_Ok in H as (p & _ & H).
  apply bind_Ok in H as (s2 & H2 & H).
  apply bind_Ok in H as (vs & _ & H).
  apply bind_Ok in H as (ps & _ & H).
  apply bind_Ok in H as (its & _ & H).
  injection H as <-.
  apply delete_shader_frame in H1. apply delete_shader_frame in H2.
  frame. by rewrite H2, H1.
Qed.

Lemma remove_loop_frame items fuel i s s' :
  remove_loop items fuel i s = Ok s' → obs s' = obs s.
Proof.
  revert i s. induction fuel as [|fuel IH]; simpl; intros i s H.
  - destruct (m_items s !! i); [discriminate |]. by injection H as ->.
  - destruct (m_items s !! i) as [it|]; [| by injection H as ->].
    apply bind_Ok in H as (s1 & H1 & H2). rewrite (IH _ _ H2).
    destruct (found (Data it) items).
    + by injection H1 as ->.
    + by apply uncache_item_frame in H1.
Qed.

Lemma move_item_frame i j x s s' : move_item i j x s = Ok s' → obs s' = obs s.
Proof.
  unfold move_item. intros H.
  apply bind_Ok in H as (it & _ & H).
  destruct (decide (Data x = Data it)); [| by injection H as ->].
  ok_inv H. subst. by frame.
Qed.

Lemma move_scan_frame i rest j s s' : move_scan i rest j s = Ok s' → obs s' = obs s.
Proof.
  revert j s. induction rest as [|x rest IH]; simpl; intros j s H.
  - by injection H as ->.
  - apply bind_Ok in H as (s1 & H1 & H2). rewrite (IH _ _ H2).
    by apply move_item_frame in H1.
Qed.

Lemma move_loop_frame items fuel i s s' :
  move_loop items fuel i s = Ok s' → obs s' = obs s.
Proof.
  revert i s. induction fuel as [|fuel IH]; simpl; intros i s H.
  - destruct (m_items s !! i); [discriminate |]. by injection H as ->.
  - destruct (m_items s !! i) as [it|]; [| by injection H as ->].
    apply bind_Ok in H as (x & _ & H).
    apply bind_Ok in H as (s1 & H1 & H2). rewrite (IH _ _ H2).
    destruct (decide (Data x ≠ Data it)).
    + by apply move_scan_frame in H1.
    + by injection H1 as ->.
Qed.

Lemma full_scan_frame items s s' : full_scan items s = Ok s' → obs s' = obs s.
Proof.
  unfold full_scan. intros H.
  apply bind_Ok in H as (s1 & H1 & H).
  apply bind_Ok in H as (s2 & H2 & H).
  apply move_loop_frame in H. apply remove_loop_frame in H2.
  apply insert_loop_frame in H1. congruence.
Qed.

Lemma m_cache_frame items now s s' : m_cache items now s = Ok s' → obs s' = obs s.
Proof.
  unfold m_cache. intros H.
  destruct (decide (length (m_items s) = length items)).
  - destruct (Qlt_le_dec (1 # 2) (now - m_cacheTimer s)).
    + apply full_scan_frame in H. rewrite H. by frame.
    + by injection H as ->.
  - by apply full_scan_frame in H.
Qed.

Lemma Recompile_item_frame name i item s s' :
  Recompile_item name i item s = Ok s' → obs s' = obs s.
Proof.
  unfold Recompile_item, load_file. intros H.
  destruct (decide (Name item = name)); [| by injection H as ->].
  apply bind_Ok in H as (data & _ & H).
  apply bind_Ok in H as (v & _ & H).
  apply bind_Ok in H as (s1 & H1 & H).
  apply bind_Ok in H as (v' & _ & H).
  apply bind_Ok in H as ([vsCompiled s2] & H2 & H).
  apply bind_Ok in H as (p & _ & H).
  apply bind_Ok in H as ([psCompiled s3] & H3 & H).
  injection H as <-.
  apply LoadFromMemory_frame in H2. apply LoadFromMemory_frame in H3.
  rewrite report_frame, H3, H2. frame.
  destruct (decide (0 < length (VSInputLayout data))).
  - apply bind_Ok in H1 as (s0 & H0 & H1). injection H1 as <-.
    apply set_InputSignature_frame in H0. by frame.
  - by apply set_InputSignature_frame in H1.
Qed.

Lemma Recompile_loop_frame name rest i s s' :
  Recompile_loop name rest i s = Ok s' → obs s' = obs s.
Proof.
  revert i s. induction rest as [|item rest IH]; simpl; intros i s H.
  - by injection H as ->.
  - apply bind_Ok in H as (s1 & H1 & H2). rewrite (IH _ _ H2).
    by apply Recompile_item_frame in H1.
Qed.

End CacheFrame.

(** From here on a lemma depends on the section variables of its statement
    only. *)
#[local] Set Default Proof Using "Type*".

(** ** The throttle of the reconciler *)

(** X6. At exactly 0.5 elapsed, with the external list as long as the
    snapshot, the scan is still skipped and nothing changes: the test of the
    source is [GetElapsedTime() > 0.5f]. *)
Lemma m_cache_at_threshold items now s :
  length (m_items s) = length items →
  (now - m_cacheTimer s == 1 # 2)%Q → m_cache items now s = Ok s.
Proof.
  intros Hlen Heq. unfold m_cache. rewrite decide_True by done.
  destruct (Qlt_le_dec (1 # 2) (now - m_cacheTimer s)) as [Hlt|Hle]; [| done].
  rewrite Heq in Hlt. by apply Qlt_irrefl in Hlt.
Qed.

(** When the lengths differ the full scan runs whatever the timer says, and
    the timer is left as it is. *)
Lemma m_cache_length_changed items now s :
  length (m_items s) ≠ length items → m_cache items now s = full_scan items s.
Proof. intros Hlen. unfold m_cache. by rewrite decide_False. Qed.

(** ** The frame renderer *)

Lemma render_items_app pass l1 l2 s :
  render_items pass (l1 ++ l2) s = s1 ← render_items pass l1 s; render_items pass l2 s1.
Proof.
  revert s. induction l1 as [|item l1 IH]; simpl; intros s; [done |].
  destruct (render_item pass item s); simpl; auto.
Qed.

(** C10. A child of a pass whose type is none of [Geometry], [BlendState]
    and [DepthStencilState] is skipped: rendering it makes no call and
    changes nothing, and the children after it are rendered as if it were
    not in the list. *)
Theorem render_item_skips pass item s :
  Type_ item ≠ Geometry → Type_ item ≠ BlendState → Type_ item ≠ DepthStencilState →
  render_item pass item s = Ok s ∧
  ∀ before after,
    render_items pass (before ++ item :: after) s = render_items pass (before ++ after) s.
Proof.
  intros Hg Hb Hd.
  assert (Hskip : ∀ s0, render_item pass item s0 = Ok s0).
  { intros s0. unfold render_item. by rewrite !decide_False. }
  split; [done |]. intros before after. rewrite !render_items_app.
  destruct (render_items pass before s) as [s1| |]; simpl; [| done ..].
  by rewrite Hskip.
Qed.

Lemma rt_creations_snoc t c :
  rt_creations (t ++ [c]) = rt_creations t ++ (if is_rt_creation c then [c] else []).
Proof.
  unfold rt_creations. rewrite filter_app. f_equal.
  destruct (is_rt_creation c) eqn:E.
  - by rewrite filter_cons_True.
  - rewrite filter_cons_False; [done | by rewrite E].
Qed.

Lemma rt_creations_call c s :
  is_rt_creation c = false → rt_creations (trace (call c s)) = rt_creations (trace s).
Proof. intros E. simpl. rewrite rt_creations_snoc, E. apply app_nil_r. Qed.

(** One frame: the render target is created anew exactly when the size
    differs from the stored one, and the stored size is the size of the
    call afterwards. *)
Lemma Render_render_target items now width height s s' :
  Render items now width height s = Ok s' →
  m_lastSize s' = (width, height) ∧
  rt_creations (trace s') =
    rt_creations (trace s) ++
    (if decide (fst (m_lastSize s) ≠ width ∨ snd (m_lastSize s) ≠ height)
     then [RtCreate width height; RtViewCreate] else []).
Proof.
  unfold Render. intros H.
  apply bind_Ok in H as (s1 & H1 & H).
  apply bind_Ok in H as (s2 & H2 & H). injection H as <-.
  split.
  - apply (render_passes_frame m_lastSize) in H2; [| done].
    apply (m_cache_frame m_lastSize) in H1; try done.
    simpl. rewrite H2. simpl. rewrite H1. simpl.
    unfold sync_render_target. case_decide as Hd; simpl; [done |].
    destruct (m_lastSize s) as [x y]; simpl in Hd; simpl.
    f_equal; apply dec_stable; intros ?; apply Hd; auto.
  - apply (render_passes_frame (fun s => rt_creations (trace s))) in H2;
      [| by apply rt_creations_call].
    apply (m_cache_frame (fun s => rt_creations (trace s))) in H1;
      try done; [| by apply rt_creations_call].
    rewrite rt_creations_call, H2 by done.
    rewrite !rt_creations_call, H1 by done.
    rewrite rt_creations_call by done.
    unfold sync_render_target. case_decide; simpl.
    + by rewrite !rt_creations_snoc, <- app_assoc.
    + by rewrite app_nil_r.
Qed.

(** C7. Of two consecutive calls of [Render] with the same width and
    height, the second does not create the render target again and leaves
    the stored size as it is; a call whose width or height differs from the
    stored size creates the texture and its view exactly once and stores the
    new size. *)
Theorem Render_recreates_only_on_resize items now width height s s1 :
  Render items now width height s = Ok s1 →
  (∀ items' now' s2,
     Render items' now' width height s1 = Ok s2 →
     rt_creations (trace s2) = rt_creations (trace s1) ∧
     m_lastSize s2 = m_lastSize s1) ∧
  (∀ items' now' width' height' s2,
     width' ≠ width ∨ height' ≠ height →
     Render items' now' width' height' s1 = Ok s2 →
     rt_creations (trace s2) =
       rt_creations (trace s1) ++ [RtCreate width' height'; RtViewCreate] ∧
     m_lastSize s2 = (width', height')).
Proof.
  intros H. apply Render_render_target in H as [Hsize _]. split.
  - intros items' now' s2 H2. apply Render_render_target in H2 as [Hs2 Ht2].
    rewrite Ht2, Hs2, Hsize. simpl. rewrite decide_False; [| tauto].
    by rewrite app_nil_r.
  - intros items' now' width' height' s2 Hne H2.
    apply Render_render_target in H2 as [Hs2 Ht2].
    rewrite Ht2, Hsize. simpl. rewrite decide_True; [done |].
    destruct Hne; [left | right]; congruence.
Qed.

(** ** One compile attempt *)

Lemma report_diagnosed name text v p s :
  report name text v p s = set_msgs (diagnosed name text (v && p) (m_msgs s)) s.
Proof. unfold report, diagnosed. by destruct v, p. Qed.

Lemma fresh_pair_ne (h : gmap addr ShaderObject) o :
  fresh (dom h) ≠ fresh (dom (<[fresh (dom h) := o]> h)).
Proof.
  intros E. apply (is_fresh (dom (<[fresh (dom h) := o]> h))).
  rewrite <- E. rewrite dom_insert_L. apply elem_of_union. left.
  by apply elem_of_singleton.
Qed.

Lemma fresh_not_alive (h : gmap addr ShaderObject) : h !! fresh (dom h) = None.
Proof. apply not_elem_of_dom, is_fresh. Qed.

Lemma cache_item_Ok i item data s :
  mem (Data item) = Some (PShaderPass data) →
  i ≤ length (m_items s) → i ≤ length (m_vs s) → i ≤ length (m_ps s) →
  cache_item i item s = Ok (cached i item data s).
Proof.
  intros Hmem Hi Hv Hp.
  unfold cache_item, vec_insert, as_ShaderPass, new_shader, load_file.
  rewrite decide_True by done. simpl. rewrite Hmem. simpl.
  set (v := fresh (dom (heap s))).
  set (p := fresh (dom (<[v := mkShader None None]> (heap s)))).
  assert (Hvp : v ≠ p) by apply fresh_pair_ne.
  unfold set_InputSignature. simpl.
  rewrite lookup_insert_ne, lookup_insert_eq by done. simpl.
  unfold LoadFromMemory. simpl. rewrite lookup_insert_eq. simpl.
  rewrite lookup_insert_ne, lookup_insert_ne, lookup_insert_eq by done. simpl.
  rewrite report_diagnosed. simpl.
  rewrite (decide_True (P := i ≤ length (m_vs s))) by done. simpl.
  rewrite (decide_True (P := i ≤ length (m_ps s))) by done. simpl.
  f_equal. apply World_eq; simpl; try done.
  - rewrite !insert_insert_eq.
    rewrite (insert_insert_ne _ v p) by done.
    by rewrite !insert_insert_eq.
  - by rewrite <- !app_assoc.
Qed.

Lemma cache_item_inv i item s s' :
  cache_item i item s = Ok s' →
  ∃ data, mem (Data item) = Some (PShaderPass data) ∧
    i ≤ length (m_items s) ∧ i ≤ length (m_vs s) ∧ i ≤ length (m_ps s) ∧
    s' = cached i item data s.
Proof.
  intros H.
  assert (Hi : i ≤ length (m_items s)).
  { unfold cache_item, vec_insert in H. by destruct (decide (i ≤ length (m_items s))). }
  assert (Hmem : ∃ data, mem (Data item) = Some (PShaderPass data)).
  { unfold cache_item, vec_insert, as_ShaderPass in H.
    rewrite decide_True in H by done. simpl in H.
    destruct (mem (Data item)) as [[data| | |]|]; try discriminate. eauto. }
  destruct Hmem as [data Hmem]. exists data.
  assert (Hvp : i ≤ length (m_vs s) ∧ i ≤ length (m_ps s)).
  { apply bind_Ok in H as (its & _ & H).
    apply bind_Ok in H as (data' & _ & H).
    unfold new_shader, load_file in H.
    apply bind_Ok in H as (s1 & H1 & H).
    apply bind_Ok in H as ([vsCompiled s2] & H2 & H).
    apply bind_Ok in H as ([psCompiled s3] & H3 & H).
    apply bind_Ok in H as (vs & Hvs & H).
    apply bind_Ok in H as (ps & Hps & H).
    apply (set_InputSignature_frame m_vs) in H1 as V1; try done.
    apply (set_InputSignature_frame m_ps) in H1 as P1; try done.
    apply (LoadFromMemory_frame m_vs) in H2 as V2; try done.
    apply (LoadFromMemory_frame m_ps) in H2 as P2; try done.
    apply (LoadFromMemory_frame m_vs) in H3 as V3; try done.
    apply (LoadFromMemory_frame m_ps) in H3 as P3; try done.
    rewrite report_diagnosed in Hvs, Hps.
    simpl in Hvs, Hps, V1, P1, V2, P2, V3, P3.
    unfold vec_insert in Hvs, Hps.
    destruct (decide (i ≤ length (m_vs s3))); [| done].
    destruct (decide (i ≤ length (m_ps s3))); [| done].
    split; congruence. }
  destruct Hvp as [Hv Hp]. repeat split; try done.
  rewrite (cache_item_Ok i item data s) in H by done. by injection H as <-.
Qed.

Lemma Recompile_item_skip name i item s :
  Name item ≠ name → Recompile_item name i item s = Ok s.
Proof. intros Hne. unfold Recompile_item. by rewrite decide_False. Qed.

Lemma Recompile_item_Ok name i item data v p ov op s :
  Name item = name →
  mem (Data item) = Some (PShaderPass data) →
  m_vs s !! i = Some v → m_ps s !! i = Some p →
  heap s !! v = Some ov → heap s !! p = Some op → v ≠ p →
  Recompile_item name i item s = Ok (recompiled item data v p op s).
Proof.
  intros Hname Hmem Hv Hp Hov Hop Hvp.
  unfold Recompile_item, as_ShaderPass, vec_at, load_file.
  rewrite decide_True, Hmem, Hv by done. simpl.
  unfold recompiled, signature_of.
  destruct (decide (0 < length (VSInputLayout data))) as [Hlen|Hlen];
    unfold set_InputSignature; rewrite Hov; simpl; rewrite Hv; simpl;
    unfold LoadFromMemory; simpl; rewrite lookup_insert_eq; simpl; rewrite Hp; simpl;
    rewrite lookup_insert_ne, lookup_insert_ne, Hop by done; simpl;
    rewrite report_diagnosed;
    f_equal; apply World_eq; simpl; try done;
    rewrite ?insert_insert_eq, <- ?app_assoc; reflexivity.
Qed.



(** ** Diagnostics *)

Lemma group_of_ClearGroup g name msgs :
  g ≠ name → group_of g (MessageStack_ClearGroup name msgs) = group_of g msgs.
Proof.
  intros Hne. unfold group_of, MessageStack_ClearGroup.
  induction msgs as [|m msgs IH]; [done |].
  destruct (decide (msg_group m = name)) as [E|E].
  - rewrite (filter_cons_False (fun m => msg_group m ≠ name)) by (intros Hc; by apply Hc).
    rewrite (filter_cons_False (fun m => msg_group m = g)) by congruence. done.
  - rewrite (filter_cons_True (fun m => msg_group m ≠ name)) by done.
    destruct (decide (msg_group m = g)) as [G|G].
    + rewrite !(filter_cons_True (fun m => msg_group m = g)) by done. by f_equal.
    + by rewrite !(filter_cons_False (fun m => msg_group m = g)) by done.
Qed.

Lemma group_of_Add g t name text msgs :
  g ≠ name → group_of g (MessageStack_Add t name text msgs) = group_of g msgs.
Proof.
  intros Hne. unfold group_of, MessageStack_Add. rewrite filter_app.
  rewrite filter_cons_False; [apply app_nil_r | simpl; congruence].
Qed.

Lemma group_of_diagnosed g name text ok msgs :
  g ≠ name → group_of g (diagnosed name text ok msgs) = group_of g msgs.
Proof.
  intros Hne. unfold diagnosed.
  destruct ok; [by apply group_of_ClearGroup | by apply group_of_Add].
Qed.


(** ** [Recompile] *)

Lemma owned_vs_ne_ps s i j v p :
  cache_owned s → m_vs s !! i = Some v → m_ps s !! j = Some p → v ≠ p.
Proof.
  intros [Hnd _] Hv Hp ->. apply NoDup_app in Hnd as (_ & Hdisj & _).
  apply (Hdisj p); eapply list_elem_of_lookup_2; eassumption.
Qed.

Lemma owned_vs_inj s i j v :
  cache_owned s → m_vs s !! i = Some v → m_vs s !! j = Some v → i = j.
Proof.
  intros [Hnd _] Hi Hj. apply NoDup_app in Hnd as (Hv & _ & _).
  eapply NoDup_lookup; eassumption.
Qed.

Lemma owned_ps_inj s i j p :
  cache_owned s → m_ps s !! i = Some p → m_ps s !! j = Some p → i = j.
Proof.
  intros [Hnd _] Hi Hj. apply NoDup_app in Hnd as (_ & _ & Hp).
  eapply NoDup_lookup; eassumption.
Qed.

Lemma owned_vs_alive s i v : cache_owned s → m_vs s !! i = Some v → is_Some (heap s !! v).
Proof.
  intros [_ Hlive] Hv. apply Hlive, elem_of_app. left.
  eapply list_elem_of_lookup_2; eassumption.
Qed.

Lemma owned_ps_alive s i p : cache_owned s → m_ps s !! i = Some p → is_Some (heap s !! p).
Proof.
  intros [_ Hlive] Hp. apply Hlive, elem_of_app. right.
  eapply list_elem_of_lookup_2; eassumption.
Qed.

Lemma recompiled_owned item data v p op s :
  cache_owned s → cache_owned (recompiled item data v p op s).
Proof.
  intros [Hnd Hlive]. split; [done |]. simpl. intros a Ha.
  destruct (decide (a = p)) as [->|Hp]; [rewrite lookup_insert_eq; eauto |].
  rewrite lookup_insert_ne by done.
  destruct (decide (a = v)) as [->|Hv]; [rewrite lookup_insert_eq; eauto |].
  rewrite lookup_insert_ne by done. by apply Hlive.
Qed.

Lemma Recompile_loop_spec name rest : ∀ i s,
  (∀ k it, rest !! k = Some it → Name it = name →
     ∃ data v p, mem (Data it) = Some (PShaderPass data) ∧
       m_vs s !! (i + k) = Some v ∧ m_ps s !! (i + k) = Some p) →
  cache_owned s →
  ∃ s', Recompile_loop name rest i s = Ok s' ∧
    m_items s' = m_items s ∧ m_vs s' = m_vs s ∧ m_ps s' = m_ps s ∧
    (∀ a, (∀ k it, rest !! k = Some it → Name it = name →
             m_vs s !! (i + k) ≠ Some a ∧ m_ps s !! (i + k) ≠ Some a) →
          heap s' !! a = heap s !! a) ∧
    (∀ k it v p, rest !! k = Some it → Name it = name →
       m_vs s !! (i + k) = Some v → m_ps s !! (i + k) = Some p →
       ∃ data op, mem (Data it) = Some (PShaderPass data) ∧ heap s !! p = Some op ∧
         heap s' !! v = Some (loaded VS (signature_of it data) (VSPath data) (VSEntry data)) ∧
         heap s' !! p = Some (loaded PS (InputSignature op) (PSPath data) (PSEntry data))) ∧
    (∀ g, g ≠ name → group_of g (m_msgs s') = group_of g (m_msgs s)).
Proof.
  induction rest as [|item rest IH]; intros i s Hpass Hown.
  - exists s. simpl. repeat split; done.
  - simpl. destruct (decide (Name item = name)) as [Hname|Hname].
    + destruct (Hpass 0 item eq_refl Hname) as (data & v & p & Hmem & Hv & Hp).
      rewrite Nat.add_0_r in Hv, Hp.
      destruct (owned_vs_alive s i v Hown Hv) as [ov Hov].
      destruct (owned_ps_alive s i p Hown Hp) as [op Hop].
      assert (Hvp : v ≠ p) by (eapply owned_vs_ne_ps; eassumption).
      rewrite (Recompile_item_Ok name i item data v p ov op s) by done. simpl.
      set (s1 := recompiled item data v p op s).
      destruct (IH (S i) s1) as (s' & Hrun & HI & HV & HP & Hkeep & Hnew & Hmsg).
      { intros k it Hk Hn.
        destruct (Hpass (S k) it Hk Hn) as (d & v' & p' & Hd & Hv' & Hp').
        exists d, v', p'. rewrite Nat.add_succ_r in Hv', Hp'. done. }
      { by apply recompiled_owned. }
      exists s'. rewrite Hrun, HI, HV, HP. repeat split; try done.
      * intros a Ha. destruct (Ha 0 item eq_refl Hname) as [Hav Hap].
        rewrite Nat.add_0_r in Hav, Hap.
        rewrite Hkeep.
        -- simpl. rewrite !lookup_insert_ne; [done | congruence | congruence].
        -- intros k it Hk Hn. specialize (Ha (S k) it Hk Hn).
           by rewrite Nat.add_succ_r in Ha.
      * intros k it v' p' Hk Hn Hv' Hp'. destruct k as [|k]; simpl in Hk.
        -- injection Hk as <-. rewrite Nat.add_0_r in Hv', Hp'.
           assert (v' = v) as -> by congruence. assert (p' = p) as -> by congruence.
           exists data, op. repeat split; try done.
           ++ rewrite Hkeep.
              ** simpl. by rewrite lookup_insert_ne, lookup_insert_eq.
              ** intros k it Hk' Hn'. simpl. split; intros Hc.
                 --- pose proof (owned_vs_inj s _ _ _ Hown Hv Hc). lia.
                 --- by apply (owned_vs_ne_ps s i (S i + k) v v Hown).
           ++ rewrite Hkeep.
              ** simpl. by rewrite lookup_insert_eq.
              ** intros k it Hk' Hn'. simpl. split; intros Hc.
                 --- by apply (owned_vs_ne_ps s (S i + k) i p p Hown).
                 --- pose proof (owned_ps_inj s _ _ _ Hown Hp Hc). lia.
        -- rewrite Nat.add_succ_r in Hv', Hp'.
           destruct (Hnew k it v' p' Hk Hn Hv' Hp') as (d & op' & Hd & Hop' & Hv1 & Hp1).
           exists d, op'. repeat split; try done.
           simpl in Hop'. rewrite !lookup_insert_ne in Hop'; [done | |].
           ++ intros <-. by apply (owned_vs_ne_ps s i (S (i + k)) v v Hown).
           ++ intros <-. pose proof (owned_ps_inj s _ _ _ Hown Hp Hp'). lia.
      * intros g Hg. rewrite Hmsg by done. simpl.
        apply group_of_diagnosed. congruence.
    + rewrite Recompile_item_skip by done. simpl.
      destruct (IH (S i) s) as (s' & Hrun & HI & HV & HP & Hkeep & Hnew & Hmsg).
      { intros k it Hk Hn.
        destruct (Hpass (S k) it Hk Hn) as (d & v' & p' & Hd & Hv' & Hp').
        exists d, v', p'. rewrite Nat.add_succ_r in Hv', Hp'. done. }
      { done. }
      exists s'. rewrite Hrun. repeat split; try done.
      * intros a Ha. apply Hkeep. intros k it Hk Hn.
        specialize (Ha (S k) it Hk Hn). by rewrite Nat.add_succ_r in Ha.
      * intros k it v' p' Hk Hn Hv' Hp'. destruct k as [|k]; simpl in Hk.
        -- injection Hk as <-. done.
        -- rewrite Nat.add_succ_r in Hv', Hp'. eauto.
Qed.

(** C5. [Recompile name] recompiles every snapshot item called [name]: its
    sources are read again through the project-file reader and loaded into the
    shader objects it already has, the vertex shader being bound to the input
    layout of the pass when the pass declares an input element and to none
    otherwise. The three cache vectors are as they were, so no entry changes
    identity or position. An item with another name keeps its shader objects
    as they were, and the messages of its group are as they were. *)
Theorem Recompile_spec name s :
  length (m_vs s) = length (m_items s) →
  length (m_ps s) = length (m_items s) →
  cache_owned s →
  (∀ it, it ∈ m_items s → Name it = name →
     ∃ data, mem (Data it) = Some (PShaderPass data)) →
  ∃ s', Recompile name s = Ok s' ∧
    m_items s' = m_items s ∧ m_vs s' = m_vs s ∧ m_ps s' = m_ps s ∧
    ∀ i it v p,
      m_items s !! i = Some it → m_vs s !! i = Some v → m_ps s !! i = Some p →
      (Name it = name →
         ∃ data op, mem (Data it) = Some (PShaderPass data) ∧ heap s !! p = Some op ∧
           heap s' !! v =
             Some (loaded VS (signature_of it data) (VSPath data) (VSEntry data)) ∧
           heap s' !! p =
             Some (loaded PS (InputSignature op) (PSPath data) (PSEntry data))) ∧
      (Name it ≠ name →
         heap s' !! v = heap s !! v ∧ heap s' !! p = heap s !! p ∧
         group_of (Name it) (m_msgs s') = group_of (Name it) (m_msgs s)).
Proof.
  intros Hlv Hlp Hown Hpass.
  destruct (Recompile_loop_spec name (m_items s) 0 s)
    as (s' & Hrun & HI & HV & HP & Hkeep & Hnew & Hmsg); [| done |].
  { intros k it Hk Hn. simpl.
    destruct (Hpass it) as [data Hd]; [by eapply list_elem_of_lookup_2 | done |].
    apply lookup_lt_Some in Hk.
    destruct (lookup_lt_is_Some_2 (m_vs s) k) as [v Hv]; [lia |].
    destruct (lookup_lt_is_Some_2 (m_ps s) k) as [p Hp]; [lia |].
    eauto 10. }
  exists s'. unfold Recompile. do 4 (split; [done |]).
  intros i it v p Hit Hv Hp. split.
  - intros Hn. by apply (Hnew i it v p).
  - intros Hn. split; [| split].
    + apply Hkeep. intros k it' Hk Hn'. simpl. split; intros Hc.
      * pose proof (owned_vs_inj s _ _ _ Hown Hv Hc). subst k. congruence.
      * by apply (owned_vs_ne_ps s i k v v Hown).
    + apply Hkeep. intros k it' Hk Hn'. simpl. split; intros Hc.
      * by apply (owned_vs_ne_ps s k i p p Hown).
      * pose proof (owned_ps_inj s _ _ _ Hown Hp Hc). subst k. congruence.
    + apply Hmsg. congruence.
Qed.

(** ** The cache invariant *)

Lemma vec_insert_Ok {A} pos (x : A) v v' :
  vec_insert pos x v = Ok v' ↔ pos ≤ length v ∧ v' = take pos v ++ x :: drop pos v.
Proof.
  unfold vec_insert. destruct (decide (pos ≤ length v)); split.
  - by intros [= <-].
  - by intros [_ ->].
  - done.
  - intros [? _]. lia.
Qed.

Lemma vec_erase_Ok {A} pos (v v' : list A) :
  vec_erase pos v = Ok v' ↔ pos < length v ∧ v' = delete pos v.
Proof.
  unfold vec_erase. destruct (decide (pos < length v)); split.
  - by intros [= <-].
  - by intros [_ ->].
  - done.
  - intros [? _]. lia.
Qed.

Lemma vec_at_Ok {A} i (v : list A) x : vec_at i v = Ok x ↔ v !! i = Some x.
Proof. unfold vec_at. destruct (v !! i); split; congruence. Qed.

Lemma inserted_length {A} pos (x : A) v :
  length (take pos v ++ x :: drop pos v) = S (length v).
Proof.
  rewrite length_app. simpl. rewrite length_take, length_drop. lia.
Qed.

Lemma inserted_Permutation {A} pos (x : A) v : take pos v ++ x :: drop pos v ≡ₚ x :: v.
Proof.
  rewrite <- Permutation_middle. by rewrite take_drop.
Qed.

Lemma erased_length {A} pos (v : list A) : pos < length v → S (length (delete pos v)) = length v.
Proof. intros H. rewrite length_delete; [lia |]. by apply lookup_lt_is_Some_2. Qed.

Lemma erased_Permutation {A} pos (v : list A) x : v !! pos = Some x → v ≡ₚ x :: delete pos v.
Proof. apply delete_Permutation. Qed.

Lemma moved_Permutation {A} i dest (v : list A) x :
  v !! i = Some x →
  take dest (delete i v) ++ x :: drop dest (delete i v) ≡ₚ v.
Proof.
  intros H. rewrite inserted_Permutation. symmetry. by apply erased_Permutation.
Qed.

Lemma moved_length {A} i dest (v : list A) x :
  i < length v → length (take dest (delete i v) ++ x :: drop dest (delete i v)) = length v.
Proof. intros H. rewrite inserted_length. by apply erased_length. Qed.

Lemma uncache_item_inv i s s' :
  uncache_item i s = Ok s' →
  ∃ v p, m_vs s !! i = Some v ∧ m_ps s !! i = Some p ∧ i < length (m_items s) ∧
    is_Some (heap s !! v) ∧ is_Some (heap s !! p) ∧ v ≠ p ∧
    s' = mkWorld (m_lastSize s) (delete i (m_items s)) (delete i (m_vs s))
           (delete i (m_ps s)) (m_cacheTimer s) (m_msgs s)
           (delete p (delete v (heap s))) (trace s ++ [Delete v; Delete p]).
Proof.
  unfold uncache_item, delete_shader. intros H.
  apply bind_Ok in H as (v & Hv & H). apply vec_at_Ok in Hv.
  destruct (heap s !! v) as [ov|] eqn:Hov; simpl in H; [| discriminate].
  apply bind_Ok in H as (p & Hp & H). apply vec_at_Ok in Hp.
  destruct (decide (v = p)) as [<-|Hvp].
  { rewrite lookup_delete_eq in H. discriminate. }
  rewrite lookup_delete_ne in H by done.
  destruct (heap s !! p) as [op|] eqn:Hop; simpl in H; [| discriminate].
  apply bind_Ok in H as (vs & Hvs & H). apply vec_erase_Ok in Hvs as [_ ->].
  apply bind_Ok in H as (ps & Hps & H). apply vec_erase_Ok in Hps as [_ ->].
  apply bind_Ok in H as (its & Hits & H). apply vec_erase_Ok in Hits as [Hi ->].
  injection H as <-. exists v, p. repeat split; eauto.
  apply World_eq; simpl; try done. by rewrite <- app_assoc.
Qed.

Lemma move_item_inv i j x s s' :
  move_item i j x s = Ok s' →
  ∃ it, m_items s !! i = Some it ∧
    if decide (Data x = Data it) then
      ∃ v p, m_vs s !! i = Some v ∧ m_ps s !! i = Some p ∧
        let dest := if decide (i < j) then j - 1 else j in
        dest < length (m_items s) ∧
        s' = mkWorld (m_lastSize s)
               (take dest (delete i (m_items s)) ++ x :: drop dest (delete i (m_items s)))
               (take dest (delete i (m_vs s)) ++ v :: drop dest (delete i (m_vs s)))
               (take dest (delete i (m_ps s)) ++ p :: drop dest (delete i (m_ps s)))
               (m_cacheTimer s) (m_msgs s) (heap s) (trace s)
    else s' = s.
Proof.
  unfold move_item. intros H.
  apply bind_Ok in H as (it & Hit & H). apply vec_at_Ok in Hit.
  exists it. split; [done |].
  destruct (decide (Data x = Data it)); [| by injection H as ->].
  apply bind_Ok in H as (its & Hits & H). apply vec_erase_Ok in Hits as [Hi ->].
  apply bind_Ok in H as (its & Hits & H). apply vec_insert_Ok in Hits as [Hd ->].
  apply bind_Ok in H as (v & Hv & H). apply vec_at_Ok in Hv.
  apply bind_Ok in H as (p & Hp & H). apply vec_at_Ok in Hp.
  apply bind_Ok in H as (vs & Hvs & H). apply vec_erase_Ok in Hvs as [_ ->].
  apply bind_Ok in H as (vs & Hvs & H). apply vec_insert_Ok in Hvs as [_ ->].
  apply bind_Ok in H as (ps & Hps & H). apply vec_erase_Ok in Hps as [_ ->].
  apply bind_Ok in H as (ps & Hps & H). apply vec_insert_Ok in Hps as [_ ->].
  injection H as <-. simpl in Hd, Hv, Hp. simpl. exists v, p. repeat split; try done.
  pose proof (erased_length i (m_items s) Hi). lia.
Qed.

Lemma cached_inv i item data s :
  i ≤ length (m_items s) → i ≤ length (m_vs s) → i ≤ length (m_ps s) →
  Data item ∉ (Data <$> m_items s) →
  cache_inv s → cache_inv (cached i item data s).
Proof.
  intros Hi Hv Hp Hnew (Lv & Lp & Hnd). unfold cache_inv. simpl.
  rewrite !inserted_length. repeat split; [lia | lia |].
  rewrite inserted_Permutation. simpl. by constructor.
Qed.

Lemma insert_loop_inv rest i s s' :
  cache_inv s → insert_loop rest i s = Ok s' → cache_inv s'.
Proof.
  revert i s. induction rest as [|item rest IH]; simpl; intros i s Hinv H.
  - by injection H as <-.
  - apply bind_Ok in H as (s1 & H1 & H2). eapply IH; [| exact H2].
    destruct (found (Data item) (m_items s)) eqn:Hf.
    + by injection H1 as <-.
    + apply found_false in Hf.
      apply cache_item_inv in H1 as (data & _ & Hi & Hv & Hp & ->).
      by apply cached_inv.
Qed.

Lemma uncache_item_cache_inv i s s' :
  cache_inv s → uncache_item i s = Ok s' → cache_inv s'.
Proof.
  intros (Lv & Lp & Hnd) H.
  apply uncache_item_inv in H as (v & p & Hv & Hp & Hi & _ & _ & _ & ->).
  unfold cache_inv. simpl.
  pose proof (erased_length i (m_items s) Hi).
  pose proof (erased_length i (m_vs s) ltac:(lia)).
  pose proof (erased_length i (m_ps s) ltac:(lia)).
  repeat split; [lia | lia |].
  rewrite list_fmap_delete. eapply sublist_NoDup; [exact Hnd | apply sublist_delete].
Qed.

Lemma remove_loop_inv items fuel i s s' :
  cache_inv s → remove_loop items fuel i s = Ok s' → cache_inv s'.
Proof.
  revert i s. induction fuel as [|fuel IH]; simpl; intros i s Hinv H.
  - destruct (m_items s !! i); [discriminate |]. by injection H as <-.
  - destruct (m_items s !! i) as [it|]; [| by injection H as <-].
    apply bind_Ok in H as (s1 & H1 & H2). eapply IH; [| exact H2].
    destruct (found (Data it) items).
    + by injection H1 as <-.
    + by eapply uncache_item_cache_inv.
Qed.

Lemma move_item_cache_inv i j x s s' :
  cache_inv s → move_item i j x s = Ok s' → cache_inv s'.
Proof.
  intros (Lv & Lp & Hnd) H.
  apply move_item_inv in H as (it & Hit & H).
  destruct (decide (Data x = Data it)) as [Hx|Hx]; [| by subst].
  destruct H as (v & p & Hv & Hp & _ & ->).
  pose proof (lookup_lt_Some _ _ _ Hit) as Hi.
  unfold cache_inv. simpl.
  rewrite !moved_length by lia. repeat split; [done | done |].
  rewrite inserted_Permutation. simpl. rewrite Hx.
  rewrite list_fmap_delete.
  rewrite <- erased_Permutation; [done |].
  by rewrite list_lookup_fmap, Hit.
Qed.

Lemma move_scan_inv i rest j s s' :
  cache_inv s → move_scan i rest j s = Ok s' → cache_inv s'.
Proof.
  revert j s. induction rest as [|x rest IH]; simpl; intros j s Hinv H.
  - by injection H as <-.
  - apply bind_Ok in H as (s1 & H1 & H2). eapply IH; [| exact H2].
    by eapply move_item_cache_inv.
Qed.

Lemma move_loop_inv items fuel i s s' :
  cache_inv s → move_loop items fuel i s = Ok s' → cache_inv s'.
Proof.
  revert i s. induction fuel as [|fuel IH]; simpl; intros i s Hinv H.
  - destruct (m_items s !! i); [discriminate |]. by injection H as <-.
  - destruct (m_items s !! i) as [it|]; [| by injection H as <-].
    apply bind_Ok in H as (x & _ & H).
    apply bind_Ok in H as (s1 & H1 & H2). eapply IH; [| exact H2].
    destruct (decide (Data x ≠ Data it)).
    + by eapply move_scan_inv.
    + by injection H1 as <-.
Qed.

Lemma full_scan_inv items s s' : cache_inv s → full_scan items s = Ok s' → cache_inv s'.
Proof.
  unfold full_scan. intros Hinv H.
  apply bind_Ok in H as (s1 & H1 & H).
  apply bind_Ok in H as (s2 & H2 & H).
  eapply move_loop_inv; [| exact H].
  eapply remove_loop_inv; [| exact H2].
  by eapply insert_loop_inv.
Qed.

Lemma m_cache_inv items now s s' : cache_inv s → m_cache items now s = Ok s' → cache_inv s'.
Proof.
  unfold m_cache. intros Hinv H.
  destruct (decide (length (m_items s) = length items)).
  - destruct (Qlt_le_dec (1 # 2) (now - m_cacheTimer s)).
    + by apply full_scan_inv in H.
    + by injection H as <-.
  - by apply full_scan_inv in H.
Qed.

Lemma cache_inv_same s s' :
  m_items s' = m_items s → m_vs s' = m_vs s → m_ps s' = m_ps s →
  cache_inv s → cache_inv s'.
Proof. unfold cache_inv. by intros -> -> ->. Qed.

(** C8. The three cache vectors have the same length and no two entries of
    the snapshot have the same identity: this holds of a new engine and
    every public operation, [Render] (which reconciles), [Recompile] and
    [FlushCache], preserves it. *)
Theorem cache_inv_preserved :
  (∀ now msgs, cache_inv (RenderEngine_new now msgs)) ∧
  (∀ items now width height s s',
     cache_inv s → Render items now width height s = Ok s' → cache_inv s') ∧
  (∀ name s s', cache_inv s → Recompile name s = Ok s' → cache_inv s') ∧
  (∀ s s', cache_inv s → FlushCache s = Ok s' → cache_inv s').
Proof.
  split; [| split; [| split]].
  - intros now msgs. unfold cache_inv. simpl. repeat split. constructor.
  - intros items now width height s s' Hinv H. unfold Render in H.
    apply bind_Ok in H as (s1 & H1 & H).
    apply bind_Ok in H as (s2 & H2 & H). injection H as <-.
    apply m_cache_inv in H1.
    + apply (cache_inv_same s1); [| | | done].
      * by apply (render_passes_frame m_items) in H2.
      * by apply (render_passes_frame m_vs) in H2.
      * by apply (render_passes_frame m_ps) in H2.
    + apply (cache_inv_same s); try done.
      all: unfold sync_render_target; by case_decide.
  - intros name s s' Hinv H. unfold Recompile in H.
    apply (cache_inv_same s); [| | | done].
    + by apply (Recompile_loop_frame m_items) in H.
    + by apply (Recompile_loop_frame m_vs) in H.
    + by apply (Recompile_loop_frame m_ps) in H.
  - intros s s' _ H. unfold FlushCache in H.
    apply bind_Ok in H as (s1 & _ & H).
    apply bind_Ok in H as (s2 & _ & H). injection H as <-.
    unfold cache_inv. simpl. repeat split. constructor.
Qed.

(** ** The insertion pass *)

Lemma inserted_lookup_lt {A} pos (x : A) v k :
  k < pos → pos ≤ length v → (take pos v ++ x :: drop pos v) !! k = v !! k.
Proof.
  intros Hk Hpos. rewrite lookup_app_l by (rewrite length_take; lia).
  by apply lookup_take_lt.
Qed.

Lemma inserted_lookup_eq {A} pos (x : A) v :
  pos ≤ length v → (take pos v ++ x :: drop pos v) !! pos = Some x.
Proof.
  intros Hpos. rewrite lookup_app_r by (rewrite length_take; lia).
  rewrite length_take. by replace (pos - pos `min` length v) with 0 by lia.
Qed.

Lemma NoDup_incl_length {A} (l k : list A) :
  NoDup l → (∀ x, x ∈ l → x ∈ k) → length l ≤ length k.
Proof. intros Hnd Hincl. by apply submseteq_length, NoDup_submseteq. Qed.

Lemma cached_heap_subseteq i item data s : heap s ⊆ heap (cached i item data s).
Proof.
  simpl. set (v := fresh (dom (heap s))).
  set (p := fresh (dom (<[v := mkShader None None]> (heap s)))).
  assert (Hv : heap s !! v = None) by apply fresh_not_alive.
  assert (Hp : (<[v := mkShader None None]> (heap s)) !! p = None)
    by apply fresh_not_alive.
  assert (Hvp : v ≠ p) by apply fresh_pair_ne.
  rewrite lookup_insert_ne in Hp by done.
  etrans; [by apply (insert_subseteq (heap s) v) |].
  apply insert_subseteq. by rewrite lookup_insert_ne.
Qed.

Lemma insert_loop_spec rest : ∀ pre i s,
  i = length pre →
  NoDup (Data <$> pre ++ rest) →
  length (m_vs s) = length (m_items s) →
  length (m_ps s) = length (m_items s) →
  (∀ it, it ∈ pre → Data it ∈ (Data <$> m_items s)) →
  (∀ it, it ∈ rest → Data it ∉ (Data <$> m_items s) →
     ∃ data, mem (Data it) = Some (PShaderPass data)) →
  ∃ s', insert_loop rest i s = Ok s' ∧
    length (m_vs s') = length (m_items s') ∧
    length (m_ps s') = length (m_items s') ∧
    heap s ⊆ heap s' ∧
    (∀ k, k < i →
       m_items s' !! k = m_items s !! k ∧ m_vs s' !! k = m_vs s !! k ∧
       m_ps s' !! k = m_ps s !! k) ∧
    (∀ k it, rest !! k = Some it → Data it ∉ (Data <$> m_items s) →
       m_items s' !! (i + k) = Some it ∧
       ∃ data v p, mem (Data it) = Some (PShaderPass data) ∧
         m_vs s' !! (i + k) = Some v ∧ m_ps s' !! (i + k) = Some p ∧
         heap s !! v = None ∧ heap s !! p = None ∧
         heap s' !! v = Some (loaded VS (signature_of it data) (VSPath data) (VSEntry data)) ∧
         heap s' !! p = Some (loaded PS None (PSPath data) (PSEntry data))).
Proof.
  induction rest as [|item rest IH]; intros pre i s Hi Hnd Lv Lp Hpre Hpass.
  - exists s. simpl. repeat split; done.
  - simpl.
    assert (Hnd' : NoDup (Data <$> (pre ++ [item]) ++ rest)) by by rewrite <- app_assoc.
    assert (Hi' : S i = length (pre ++ [item])) by (rewrite length_app; simpl; lia).
    assert (Hlen : i ≤ length (m_items s)).
    { subst i. rewrite <- (length_fmap Data pre), <- (length_fmap Data (m_items s)).
      apply NoDup_incl_length.
      - rewrite fmap_app in Hnd. by apply NoDup_app in Hnd as (? & _ & _).
      - intros d Hd. apply list_elem_of_fmap in Hd as (it & -> & Hit). by apply Hpre. }
    assert (Hfresh : ∀ it, it ∈ rest → Data it ≠ Data item).
    { intros it Hit E. rewrite fmap_app in Hnd. apply NoDup_app in Hnd as (_ & _ & Hnd).
      simpl in Hnd. apply NoDup_cons in Hnd as [Hnotin _]. apply Hnotin.
      rewrite <- E. apply list_elem_of_fmap. eauto. }
    destruct (found (Data item) (m_items s)) eqn:Hf; simpl.
    + apply found_spec in Hf.
      destruct (IH (pre ++ [item]) (S i) s) as (s' & Hrun & Lv' & Lp' & Hsub & Hfix & Hnew);
        try done.
      { intros it Hit. apply elem_of_app in Hit as [Hit|Hit]; [by apply Hpre |].
        apply list_elem_of_singleton in Hit as ->. done. }
      { intros it Hit. apply Hpass. by right. }
      exists s'. repeat split; try done.
      * apply Hfix. lia.
      * apply Hfix. lia.
      * apply Hfix. lia.
      * destruct k as [|k]; simpl in H.
        -- injection H as <-. done.
        -- rewrite Nat.add_succ_r. by apply Hnew.
      * destruct k as [|k]; simpl in H.
        -- injection H as <-. done.
        -- rewrite Nat.add_succ_r. by apply Hnew.
    + apply found_false in Hf.
      destruct (Hpass item) as [data Hdata]; [left | done |].
      rewrite (cache_item_Ok i item data s) by (done || lia). simpl.
      set (s1 := cached i item data s).
      assert (Hin1 : ∀ d, d ∈ (Data <$> m_items s1) ↔ d = Data item ∨ d ∈ (Data <$> m_items s)).
      { intros d. simpl. rewrite inserted_Permutation. simpl. apply elem_of_cons. }
      destruct (IH (pre ++ [item]) (S i) s1) as (s' & Hrun & Lv' & Lp' & Hsub & Hfix & Hnew);
        try done.
      { simpl. rewrite !inserted_length. lia. }
      { simpl. rewrite !inserted_length. lia. }
      { intros it Hit. apply Hin1. apply elem_of_app in Hit as [Hit|Hit].
        - right. by apply Hpre.
        - apply list_elem_of_singleton in Hit as ->. by left. }
      { intros it Hit Hn. apply Hpass; [by right |]. intros Hc. apply Hn, Hin1. by right. }
      exists s'. split; [done |]. split; [done |]. split; [done |].
      split; [etrans; [apply (cached_heap_subseteq i item data s) | done] |].
      split.
      * intros k Hk. destruct (Hfix k) as (F1 & F2 & F3); [lia |].
        rewrite F1, F2, F3. simpl.
        rewrite !inserted_lookup_lt by lia. done.
      * intros k it Hk Hn. destruct k as [|k]; simpl in Hk.
        -- injection Hk as <-. rewrite Nat.add_0_r.
           destruct (Hfix i) as (F1 & F2 & F3); [lia |].
           rewrite F1, F2, F3. simpl.
           rewrite !inserted_lookup_eq by lia. split; [done |].
           set (v := fresh (dom (heap s))).
           set (p := fresh (dom (<[v := mkShader None None]> (heap s)))).
           assert (Hv : heap s !! v = None) by apply fresh_not_alive.
           assert (Hp : (<[v := mkShader None None]> (heap s)) !! p = None)
             by apply fresh_not_alive.
           assert (Hvp : v ≠ p) by apply fresh_pair_ne.
           rewrite lookup_insert_ne in Hp by done.
           exists data, v, p. repeat split; try done.
           ++ eapply lookup_weaken; [| exact Hsub]. simpl. fold v. fold p.
              by rewrite lookup_insert_ne, lookup_insert_eq.
           ++ eapply lookup_weaken; [| exact Hsub]. simpl. fold v. fold p.
              by rewrite lookup_insert_eq.
        -- rewrite Nat.add_succ_r.
           destruct (Hnew k it Hk) as (Hit' & d & v & p & Hd & Hv & Hp & Nv & Np & Ov & Op).
           { intros Hc. apply Hin1 in Hc as [Hc|Hc]; [| done].
             apply (Hfresh it); [| done]. by eapply list_elem_of_lookup_2. }
           split; [done |]. exists d, v, p. repeat split; try done.
           ++ destruct (heap s !! v) as [o|] eqn:E; [| done].
              eapply lookup_weaken in E; [| apply (cached_heap_subseteq i item data s)].
              fold s1 in E. congruence.
           ++ destruct (heap s !! p) as [o|] eqn:E; [| done].
              eapply lookup_weaken in E; [| apply (cached_heap_subseteq i item data s)].
              fold s1 in E. congruence.
Qed.

Lemma insert_loop_app l1 l2 i s :
  insert_loop (l1 ++ l2) i s = s1 ← insert_loop l1 i s; insert_loop l2 (i + length l1) s1.
Proof.
  revert i s. induction l1 as [|item l1 IH]; intros i s; simpl.
  - by rewrite Nat.add_0_r.
  - destruct (if found (Data item) (m_items s) then Ok s else cache_item i item s)
      as [s1| |]; simpl; [| done ..].
    rewrite IH. by rewrite Nat.add_succ_r.
Qed.

Lemma insert_loop_found rest i s :
  (∀ it, it ∈ rest → Data it ∈ (Data <$> m_items s)) → insert_loop rest i s = Ok s.
Proof.
  revert i. induction rest as [|item rest IH]; intros i Hall; simpl; [done |].
  rewrite (proj2 (found_spec (Data item) (m_items s))) by (apply Hall; left).
  simpl. apply IH. intros it Hit. apply Hall. by right.
Qed.

(** ** The removal pass *)

Lemma remove_loop_found items fuel i s :
  (∀ it, it ∈ m_items s → Data it ∈ (Data <$> items)) →
  length (m_items s) ≤ fuel + i →
  remove_loop items fuel i s = Ok s.
Proof.
  revert i. induction fuel as [|fuel IH]; intros i Hall Hfuel; simpl.
  - rewrite lookup_ge_None_2; [done | lia].
  - destruct (m_items s !! i) as [it|] eqn:Hit; [| done].
    rewrite (proj2 (found_spec (Data it) items))
      by (apply Hall; by eapply list_elem_of_lookup_2).
    simpl. apply IH; [done | lia].
Qed.

(** ** The reordering pass *)

Lemma move_loop_in_order items fuel i s :
  (Data <$> m_items s) = (Data <$> items) →
  length (m_items s) ≤ fuel + i →
  move_loop items fuel i s = Ok s.
Proof.
  revert i. induction fuel as [|fuel IH]; intros i Hsame Hfuel; simpl.
  - rewrite lookup_ge_None_2; [done | lia].
  - destruct (m_items s !! i) as [it|] eqn:Hit; [| done].
    assert (Hx : ∃ x, items !! i = Some x ∧ Data x = Data it).
    { assert (H : (Data <$> items) !! i = Some (Data it))
        by (rewrite <- Hsame, list_lookup_fmap, Hit; done).
      rewrite list_lookup_fmap in H.
      destruct (items !! i) as [x|]; [| done]. injection H as H. eauto. }
    destruct Hx as (x & Hx & Hd). unfold vec_at. rewrite Hx. simpl.
    rewrite decide_False by (intros Hc; by apply Hc). simpl.
    apply IH; [done | lia].
Qed.

(** The reconciler when exactly one new item was put into the external
    list: the item is cached at its position and nothing else changes. *)
Lemma full_scan_insert_one l1 x l2 data s :
  length (m_vs s) = length (m_items s) →
  length (m_ps s) = length (m_items s) →
  (Data <$> m_items s) = (Data <$> (l1 ++ l2)) →
  Data x ∉ (Data <$> (l1 ++ l2)) →
  mem (Data x) = Some (PShaderPass data) →
  full_scan (l1 ++ x :: l2) s = Ok (cached (length l1) x data s).
Proof.
  intros Lv Lp Hsame Hnew Hmem.
  assert (Hlen : length (m_items s) = length l1 + length l2).
  { rewrite <- (length_fmap Data (m_items s)), Hsame, length_fmap, length_app. done. }
  assert (Hin : ∀ it, it ∈ l1 ++ l2 → Data it ∈ (Data <$> m_items s)).
  { intros it Hit. rewrite Hsame. apply list_elem_of_fmap. eauto. }
  set (s1 := cached (length l1) x data s).
  assert (Hsame1 : (Data <$> m_items s1) = (Data <$> (l1 ++ x :: l2))).
  { simpl. rewrite !fmap_app, fmap_cons, fmap_take, fmap_drop, Hsame, fmap_app.
    rewrite <- (length_fmap Data l1).
    by rewrite take_app_length, drop_app_length. }
  unfold full_scan. rewrite insert_loop_app.
  rewrite insert_loop_found by (intros it Hit; apply Hin, elem_of_app; by left).
  simpl. rewrite (proj2 (found_false (Data x) (m_items s))) by by rewrite Hsame.
  rewrite (cache_item_Ok (length l1) x data s) by (done || lia). simpl. fold s1.
  clearbody s1. rewrite insert_loop_found.
  2:{ intros it Hit. rewrite Hsame1. apply list_elem_of_fmap. exists it.
      split; [done |]. apply elem_of_app. right. by right. }
  simpl. rewrite remove_loop_found; [| | lia].
  2:{ intros it Hit. rewrite <- Hsame1. apply list_elem_of_fmap. eauto. }
  simpl. apply move_loop_in_order; [done | lia].
Qed.

(** C1. The insertion pass of a full scan caches every external item whose
    identity is not in the snapshot: the item is put into the snapshot at
    its external position, a vertex and a pixel shader object are created
    and loaded during the pass, and they are put into the two shader vectors
    at that position; the shader objects that existed keep their content.
    When the external list is the snapshot with one new item, the reconciler
    returns the old cache with exactly one new entry, at the position of the
    new item, and every shader object that existed is as it was. *)
Theorem m_cache_inserts :
  (∀ items s,
     NoDup (Data <$> items) →
     length (m_vs s) = length (m_items s) →
     length (m_ps s) = length (m_items s) →
     (∀ it, it ∈ items → Data it ∉ (Data <$> m_items s) →
        ∃ data, mem (Data it) = Some (PShaderPass data)) →
     ∃ s', insert_loop items 0 s = Ok s' ∧
       (∀ a o, heap s !! a = Some o → heap s' !! a = Some o) ∧
       ∀ k it, items !! k = Some it → Data it ∉ (Data <$> m_items s) →
         m_items s' !! k = Some it ∧
         ∃ data v p, mem (Data it) = Some (PShaderPass data) ∧
           m_vs s' !! k = Some v ∧ m_ps s' !! k = Some p ∧
           heap s !! v = None ∧ heap s !! p = None ∧
           heap s' !! v =
             Some (loaded VS (signature_of it data) (VSPath data) (VSEntry data)) ∧
           heap s' !! p = Some (loaded PS None (PSPath data) (PSEntry data))) ∧
  (∀ l1 x l2 data now s,
     length (m_vs s) = length (m_items s) →
     length (m_ps s) = length (m_items s) →
     (Data <$> m_items s) = (Data <$> l1 ++ l2) →
     Data x ∉ (Data <$> l1 ++ l2) →
     mem (Data x) = Some (PShaderPass data) →
     ∃ v p s', m_cache (l1 ++ x :: l2) now s = Ok s' ∧
       heap s !! v = None ∧ heap s !! p = None ∧
       m_items s' = take (length l1) (m_items s) ++ x :: drop (length l1) (m_items s) ∧
       m_vs s' = take (length l1) (m_vs s) ++ v :: drop (length l1) (m_vs s) ∧
       m_ps s' = take (length l1) (m_ps s) ++ p :: drop (length l1) (m_ps s) ∧
       heap s' =
         <[p := loaded PS None (PSPath data) (PSEntry data)]>
           (<[v := loaded VS (signature_of x data) (VSPath data) (VSEntry data)]> (heap s)) ∧
       (∀ a, is_Some (heap s !! a) → heap s' !! a = heap s !! a) ∧
       trace s' =
         trace s ++
         [New VS v; New PS p; InputLayoutReset (Data x);
          LoadProjectFileCall (VSPath data); LoadProjectFileCall (PSPath data);
          LoadFromMemoryCall VS v (LoadProjectFile (VSPath data)) (VSEntry data);
          LoadFromMemoryCall PS p (LoadProjectFile (PSPath data)) (PSEntry data)]).
Proof.
  split.
  - intros items s Hnd Lv Lp Hpass.
    destruct (insert_loop_spec items [] 0 s) as (s' & Hrun & _ & _ & Hsub & _ & Hnew);
      try done.
    { intros it Hit. inversion Hit. }
    exists s'. split; [done |]. split.
    + intros a o Ha. by eapply lookup_weaken.
    + intros k it Hk Hn. by apply (Hnew k it).
  - intros l1 x l2 data now s Lv Lp Hsame Hnew Hmem.
    assert (Hlen : length (m_items s) ≠ length (l1 ++ x :: l2)).
    { rewrite <- (length_fmap Data (m_items s)), Hsame, length_fmap, !length_app.
      simpl. lia. }
    rewrite m_cache_length_changed by done.
    rewrite (full_scan_insert_one l1 x l2 data s) by done.
    set (v := fresh (dom (heap s))).
    set (p := fresh (dom (<[v := mkShader None None]> (heap s)))).
    assert (Hv : heap s !! v = None) by apply fresh_not_alive.
    assert (Hp : (<[v := mkShader None None]> (heap s)) !! p = None)
      by apply fresh_not_alive.
    assert (Hvp : v ≠ p) by apply fresh_pair_ne.
    rewrite lookup_insert_ne in Hp by done.
    exists v, p. eexists. split; [reflexivity |].
    repeat split; try done.
    intros a [o Ha]. simpl. fold v. fold p.
    rewrite !lookup_insert_ne; [done | congruence | congruence].
Qed.

(** ** What the removal pass misses *)

Lemma remove_loop_prefix items fuel i s s' :
  remove_loop items fuel i s = Ok s' →
  ∀ k, k < i → m_items s' !! k = m_items s !! k.
Proof.
  revert i s. induction fuel as [|fuel IH]; simpl; intros i s H k Hk.
  - destruct (m_items s !! i); [discriminate |]. by injection H as <-.
  - destruct (m_items s !! i) as [it|]; [| by injection H as <-].
    apply bind_Ok in H as (s1 & H1 & H2).
    rewrite (IH _ _ H2 k) by lia.
    destruct (found (Data it) items); [by injection H1 as <- |].
    apply uncache_item_inv in H1 as (v & p & _ & _ & _ & _ & _ & _ & ->).
    simpl. by apply list_lookup_delete_lt.
Qed.

(** X11. The removal pass steps over the entry that follows an erased one:
    it takes the place of the erased entry and is not examined, so it is at
    that index when the pass ends, whether or not the external list still has
    it. *)
Lemma remove_loop_skips_next items fuel i s s' a b :
  m_items s !! i = Some a → Data a ∉ (Data <$> items) →
  m_items s !! S i = Some b →
  remove_loop items fuel i s = Ok s' →
  m_items s' !! i = Some b.
Proof.
  intros Ha Hgone Hb H. destruct fuel as [|fuel]; simpl in H; rewrite Ha in H;
    [discriminate |].
  rewrite (proj2 (found_false (Data a) items)) in H by done.
  apply bind_Ok in H as (s1 & H1 & H2).
  rewrite (remove_loop_prefix _ _ _ _ _ H2 i) by lia.
  apply uncache_item_inv in H1 as (v & p & _ & _ & _ & _ & _ & _ & ->).
  simpl. by rewrite list_lookup_delete_ge.
Qed.

Lemma uncache_item_Ok i v p s :
  aligned s → cache_owned s →
  m_vs s !! i = Some v → m_ps s !! i = Some p →
  uncache_item i s = Ok (uncached i v p s).
Proof.
  intros [Lv Lp] Hown Hv Hp.
  destruct (owned_vs_alive s i v Hown Hv) as [ov Hov].
  destruct (owned_ps_alive s i p Hown Hp) as [op Hop].
  assert (Hvp : v ≠ p) by (eapply owned_vs_ne_ps; eassumption).
  pose proof (lookup_lt_Some _ _ _ Hv) as Hi.
  unfold uncache_item, vec_at, delete_shader, vec_erase.
  rewrite Hv. simpl. rewrite Hov. simpl. rewrite Hp. simpl.
  rewrite lookup_delete_ne, Hop by done. simpl.
  rewrite (decide_True (P := i < length (m_vs s))) by done. simpl.
  rewrite (decide_True (P := i < length (m_ps s))) by lia. simpl.
  rewrite (decide_True (P := i < length (m_items s))) by lia. simpl.
  f_equal. apply World_eq; simpl; try done. by rewrite <- app_assoc.
Qed.

Lemma remove_loop_found_from items fuel i s :
  (∀ k it, i ≤ k → m_items s !! k = Some it → Data it ∈ (Data <$> items)) →
  length (m_items s) ≤ fuel + i →
  remove_loop items fuel i s = Ok s.
Proof.
  revert i. induction fuel as [|fuel IH]; intros i Hall Hfuel; simpl.
  - rewrite lookup_ge_None_2; [done | lia].
  - destruct (m_items s !! i) as [it|] eqn:Hit; [| done].
    rewrite (proj2 (found_spec (Data it) items)) by by apply (Hall i).
    simpl. apply IH; [| lia]. intros k it' Hk. apply Hall. lia.
Qed.

(** The removal pass when one snapshot entry, at index [k], is absent from
    the external list: that entry is destroyed and no other. *)
Lemma remove_loop_one items k x s1 fuel : ∀ i s,
  m_items s !! k = Some x → Data x ∉ (Data <$> items) →
  (∀ j it, j ≠ k → m_items s !! j = Some it → Data it ∈ (Data <$> items)) →
  uncache_item k s = Ok s1 →
  i ≤ k → length (m_items s) ≤ fuel + i →
  remove_loop items fuel i s = Ok s1.
Proof.
  induction fuel as [|fuel IH]; intros i s Hx Hgone Hrest Hun Hik Hfuel.
  - apply lookup_lt_Some in Hx. lia.
  - simpl. destruct (decide (i = k)) as [->|Hne].
    + rewrite Hx. rewrite (proj2 (found_false (Data x) items)) by done.
      rewrite Hun. simpl.
      apply uncache_item_inv in Hun as (v & p & _ & _ & Hk & _ & _ & _ & ->).
      apply remove_loop_found_from; simpl.
      * intros j it Hj Hit. rewrite list_lookup_delete_ge in Hit by lia.
        apply (Hrest (S j)); [lia | done].
      * pose proof (erased_length k (m_items s) Hk). lia.
    + destruct (m_items s !! i) as [it|] eqn:Hit.
      2:{ apply lookup_ge_None in Hit. apply lookup_lt_Some in Hx. lia. }
      rewrite (proj2 (found_spec (Data it) items)) by by apply (Hrest i).
      simpl. apply IH; try done; lia.
Qed.

(** X10. The full scan when exactly one item was taken out of the external
    list: its entry is destroyed, with its two shader objects, and every
    other entry keeps its place in the order and its shader objects. *)
Lemma full_scan_remove_one l1 x l2 items v p s :
  aligned s → cache_owned s →
  m_items s = l1 ++ x :: l2 →
  (Data <$> items) = (Data <$> l1 ++ l2) →
  Data x ∉ (Data <$> l1 ++ l2) →
  m_vs s !! length l1 = Some v → m_ps s !! length l1 = Some p →
  full_scan items s = Ok (uncached (length l1) v p s).
Proof.
  intros Hal Hown Hits Hext Hgone Hv Hp.
  assert (Hx : m_items s !! length l1 = Some x).
  { rewrite Hits. by rewrite list_lookup_middle. }
  assert (Hrest : ∀ j it, j ≠ length l1 → m_items s !! j = Some it →
                    Data it ∈ (Data <$> items)).
  { intros j it Hj Hit. rewrite Hext. apply list_elem_of_fmap. exists it.
    split; [done |]. rewrite Hits in Hit.
    destruct (decide (j < length l1)) as [Hlt|Hge].
    - rewrite lookup_app_l in Hit by done. apply elem_of_app. left.
      by eapply list_elem_of_lookup_2.
    - rewrite lookup_app_r in Hit by lia.
      destruct (j - length l1) as [|m] eqn:E; [lia |]. simpl in Hit.
      apply elem_of_app. right. by eapply list_elem_of_lookup_2. }
  unfold full_scan. rewrite insert_loop_found.
  2:{ intros it Hit. rewrite Hits.
      assert (Hin : Data it ∈ (Data <$> l1 ++ l2))
        by (rewrite <- Hext; apply list_elem_of_fmap; eauto).
      rewrite fmap_app in Hin. rewrite fmap_app, fmap_cons.
      apply elem_of_app in Hin as [Hin|Hin]; apply elem_of_app; [by left |].
      right. by right. }
  simpl.
  rewrite (remove_loop_one items (length l1) x (uncached (length l1) v p s));
    try done; [| by rewrite Hext | by apply uncache_item_Ok | lia | lia].
  simpl. apply move_loop_in_order; simpl.
  - rewrite Hits, delete_middle. done.
  - rewrite Hits, delete_middle. lia.
Qed.

(** ** The reordering pass relocates *)

Lemma zip_delete {A B} i (l : list A) (k : list B) :
  zip (delete i l) (delete i k) = delete i (zip l k).
Proof.
  revert i k. induction l as [|x l IH]; intros [|i] [|y k]; simpl; try done.
  - by rewrite zip_with_nil_r.
  - by rewrite IH.
Qed.

Lemma zip_inserted {A B} pos (x : A) (y : B) l k :
  length l = length k →
  zip (take pos l ++ x :: drop pos l) (take pos k ++ y :: drop pos k) =
  take pos (zip l k) ++ (x, y) :: drop pos (zip l k).
Proof.
  revert l k. induction pos as [|pos IH]; intros l k Hlen.
  - by rewrite !take_0, !drop_0.
  - destruct l as [|a l], k as [|b k]; simpl in Hlen; try done.
    simpl. rewrite IH; [done | lia].
Qed.

Lemma move_item_length i j x s s' :
  move_item i j x s = Ok s' → length (m_items s') = length (m_items s).
Proof.
  intros H. apply move_item_inv in H as (it & Hit & H).
  destruct (decide (Data x = Data it)); [| by subst].
  destruct H as (v & p & _ & _ & _ & ->). simpl.
  apply moved_length. by eapply lookup_lt_Some.
Qed.

Lemma move_scan_length i rest j s s' :
  move_scan i rest j s = Ok s' → length (m_items s') = length (m_items s).
Proof.
  revert j s. induction rest as [|x rest IH]; simpl; intros j s H.
  - by injection H as <-.
  - apply bind_Ok in H as (s1 & H1 & H2).
    rewrite (IH _ _ H2). by eapply move_item_length.
Qed.

Lemma relocation_refl s : relocation s s.
Proof. by repeat split. Qed.

Lemma relocation_trans s1 s2 s3 : relocation s1 s2 → relocation s2 s3 → relocation s1 s3.
Proof.
  intros (E1 & H1 & M1 & T1) (E2 & H2 & M2 & T2).
  repeat split; [by etrans | congruence ..].
Qed.

Lemma move_item_relocates i j x s s' :
  aligned s → move_item i j x s = Ok s' → aligned s' ∧ relocation s s'.
Proof.
  intros [Lv Lp] H. apply move_item_inv in H as (it & Hit & H).
  destruct (decide (Data x = Data it)) as [Hx|Hx];
    [| subst; split; [done | apply relocation_refl]].
  destruct H as (v & p & Hv & Hp & Hd & ->).
  pose proof (lookup_lt_Some _ _ _ Hit) as Hi.
  split; [split; simpl; rewrite !moved_length; lia |].
  split; [| done]. unfold entries. simpl.
  rewrite fmap_app, fmap_cons, fmap_take, fmap_drop, list_fmap_delete.
  rewrite zip_inserted by (rewrite !length_delete; [lia | eauto ..]).
  rewrite zip_inserted.
  2:{ rewrite length_zip_with, !length_delete, length_fmap; [lia | eauto ..].
      by rewrite list_lookup_fmap, Hit. }
  rewrite !zip_delete. apply moved_Permutation.
  apply lookup_zip_with_Some. exists (Data x), (v, p). repeat split.
  - by rewrite list_lookup_fmap, Hit, Hx.
  - apply lookup_zip_with_Some. eauto.
Qed.

Lemma move_scan_relocates i rest j s s' :
  aligned s → move_scan i rest j s = Ok s' → aligned s' ∧ relocation s s'.
Proof.
  revert j s. induction rest as [|x rest IH]; simpl; intros j s Hal H.
  - injection H as <-. split; [done | apply relocation_refl].
  - apply bind_Ok in H as (s1 & H1 & H2).
    apply move_item_relocates in H1 as [Hal1 R1]; [| done].
    apply IH in H2 as [Hal2 R2]; [| done].
    split; [done | by eapply relocation_trans].
Qed.

Lemma move_loop_relocates items fuel i s s' :
  aligned s → move_loop items fuel i s = Ok s' → aligned s' ∧ relocation s s'.
Proof.
  revert i s. induction fuel as [|fuel IH]; simpl; intros i s Hal H.
  - destruct (m_items s !! i); [discriminate |]. injection H as <-.
    split; [done | apply relocation_refl].
  - destruct (m_items s !! i) as [it|];
      [| injection H as <-; split; [done | apply relocation_refl]].
    apply bind_Ok in H as (x & _ & H).
    apply bind_Ok in H as (s1 & H1 & H2).
    assert (Hal1 : aligned s1 ∧ relocation s s1).
    { destruct (decide (Data x ≠ Data it)).
      - by apply move_scan_relocates in H1.
      - injection H1 as <-. split; [done | apply relocation_refl]. }
    destruct Hal1 as [Hal1 R1]. apply IH in H2 as [Hal2 R2]; [| done].
    split; [done | by eapply relocation_trans].
Qed.

Lemma move_item_completes i j x s :
  aligned s → i < length (m_items s) → j < length (m_items s) →
  ∃ s', move_item i j x s = Ok s'.
Proof.
  intros [Lv Lp] Hi Hj. unfold move_item, vec_at.
  destruct (lookup_lt_is_Some_2 (m_items s) i Hi) as [it Hit]. rewrite Hit. simpl.
  destruct (decide (Data x = Data it)); [| eauto].
  destruct (lookup_lt_is_Some_2 (m_vs s) i ltac:(lia)) as [v Hv].
  destruct (lookup_lt_is_Some_2 (m_ps s) i ltac:(lia)) as [p Hp].
  pose proof (erased_length i (m_items s) Hi).
  pose proof (erased_length i (m_vs s) ltac:(lia)).
  pose proof (erased_length i (m_ps s) ltac:(lia)).
  unfold vec_erase, vec_insert.
  destruct (decide (i < j)); simpl;
    repeat first
      [ rewrite decide_True by lia | rewrite Hv | rewrite Hp | progress simpl ];
    eauto.
Qed.

Lemma move_scan_completes i rest j s :
  aligned s → i < length (m_items s) → j + length rest ≤ length (m_items s) →
  ∃ s', move_scan i rest j s = Ok s'.
Proof.
  revert j s. induction rest as [|x rest IH]; simpl; intros j s Hal Hi Hj; [eauto |].
  destruct (move_item_completes i j x s) as [s1 H1]; [done | done | lia |].
  rewrite H1. simpl.
  pose proof (move_item_length _ _ _ _ _ H1) as Hlen.
  apply move_item_relocates in H1 as [Hal1 _]; [| done].
  apply IH; [done | lia | lia].
Qed.

Lemma move_loop_completes items fuel i s :
  aligned s → length items = length (m_items s) →
  length (m_items s) ≤ fuel + i →
  ∃ s', move_loop items fuel i s = Ok s'.
Proof.
  revert i s. induction fuel as [|fuel IH]; simpl; intros i s Hal Hlen Hfuel.
  - rewrite lookup_ge_None_2 by lia. eauto.
  - destruct (m_items s !! i) as [it|] eqn:Hit; [| eauto].
    pose proof (lookup_lt_Some _ _ _ Hit) as Hi.
    destruct (lookup_lt_is_Some_2 items i ltac:(lia)) as [x Hx].
    unfold vec_at. rewrite Hx. simpl.
    destruct (decide (Data x ≠ Data it)).
    + destruct (move_scan_completes i items 0 s) as [s1 H1]; [done | done | lia |].
      rewrite H1. simpl.
      pose proof (move_scan_length _ _ _ _ _ H1) as Hlen1.
      apply move_scan_relocates in H1 as [Hal1 _]; [| done].
      apply IH; [done | lia | lia].
    + simpl. apply IH; [done | done | lia].
Qed.

(** X12. A pure reorder of the external list (the same identities, in
    another order): the full scan completes and only relocates cache entries.
    Every identity keeps its two shader objects, and no shader object is
    created, destroyed or loaded. *)
Lemma full_scan_reorder_relocates items s :
  aligned s → (Data <$> items) ≡ₚ (Data <$> m_items s) →
  ∃ s', full_scan items s = Ok s' ∧ aligned s' ∧ relocation s s'.
Proof.
  intros Hal Hperm. unfold full_scan.
  rewrite insert_loop_found.
  2:{ intros it Hit. rewrite <- Hperm. apply list_elem_of_fmap. eauto. }
  simpl. rewrite remove_loop_found; [| | lia].
  2:{ intros it Hit. rewrite Hperm. apply list_elem_of_fmap. eauto. }
  simpl.
  destruct (move_loop_completes items (length (m_items s)) 0 s) as [s' H];
    [done | | lia |].
  { apply Permutation_length in Hperm. by rewrite !length_fmap in Hperm. }
  exists s'. split; [done |]. by eapply move_loop_relocates.
Qed.

(** ** The cache owns its shader objects *)

Lemma cache_owned_perm s s' :
  m_vs s' ++ m_ps s' ≡ₚ m_vs s ++ m_ps s → heap s' = heap s →
  cache_owned s → cache_owned s'.
Proof.
  intros Hperm Hheap [Hnd Hlive]. split.
  - by rewrite Hperm.
  - intros a Ha. rewrite Hheap. apply Hlive. by rewrite <- Hperm.
Qed.

Lemma cached_owned i item data s :
  i ≤ length (m_vs s) → i ≤ length (m_ps s) →
  cache_owned s → cache_owned (cached i item data s).
Proof.
  intros Hv Hp [Hnd Hlive].
  set (v := fresh (dom (heap s))).
  set (p := fresh (dom (<[v := mkShader None None]> (heap s)))).
  assert (Nv : heap s !! v = None) by apply fresh_not_alive.
  assert (Np : (<[v := mkShader None None]> (heap s)) !! p = None)
    by apply fresh_not_alive.
  assert (Hvp : v ≠ p) by apply fresh_pair_ne.
  rewrite lookup_insert_ne in Np by done.
  assert (Hperm : m_vs (cached i item data s) ++ m_ps (cached i item data s)
                  ≡ₚ v :: p :: m_vs s ++ m_ps s).
  { simpl. fold v. fold p. rewrite !inserted_Permutation.
    simpl. by rewrite <- Permutation_middle. }
  assert (Hdead : ∀ a, heap s !! a = None → a ∉ m_vs s ++ m_ps s).
  { intros a Ha Hin. apply Hlive in Hin as [o Ho]. congruence. }
  split.
  - rewrite Hperm. apply NoDup_cons. split.
    + intros Hin. apply elem_of_cons in Hin as [Hin|Hin]; [done |].
      by apply (Hdead v).
    + apply NoDup_cons. split; [by apply Hdead | done].
  - intros a Ha. rewrite Hperm in Ha. simpl. fold v. fold p.
    destruct (decide (a = p)) as [->|Hap]; [rewrite lookup_insert_eq; eauto |].
    rewrite lookup_insert_ne by done.
    destruct (decide (a = v)) as [->|Hav]; [rewrite lookup_insert_eq; eauto |].
    rewrite lookup_insert_ne by done. apply Hlive.
    apply elem_of_cons in Ha as [Ha|Ha]; [done |].
    apply elem_of_cons in Ha as [Ha|Ha]; done.
Qed.

Lemma insert_loop_owned rest i s s' :
  cache_owned s → insert_loop rest i s = Ok s' → cache_owned s'.
Proof.
  revert i s. induction rest as [|item rest IH]; simpl; intros i s Hown H.
  - by injection H as <-.
  - apply bind_Ok in H as (s1 & H1 & H2). eapply IH; [| exact H2].
    destruct (found (Data item) (m_items s)); [by injection H1 as <- |].
    apply cache_item_inv in H1 as (data & _ & _ & Hv & Hp & ->).
    by apply cached_owned.
Qed.

Lemma uncache_item_owned i s s' :
  cache_owned s → uncache_item i s = Ok s' → cache_owned s'.
Proof.
  intros [Hnd Hlive] H.
  apply uncache_item_inv in H as (v & p & Hv & Hp & _ & _ & _ & _ & ->).
  assert (Hperm : m_vs s ++ m_ps s ≡ₚ v :: p :: delete i (m_vs s) ++ delete i (m_ps s)).
  { rewrite (erased_Permutation i (m_vs s) v Hv) at 1.
    rewrite (erased_Permutation i (m_ps s) p Hp) at 1.
    simpl. by rewrite <- Permutation_middle. }
  rewrite Hperm in Hnd.
  apply NoDup_cons in Hnd as [Hv' Hnd]. apply NoDup_cons in Hnd as [Hp' Hnd].
  split; simpl; [done |]. intros a Ha.
  rewrite !lookup_delete_ne.
  - apply Hlive. rewrite Hperm. by do 2 right.
  - intros <-. apply Hv'. by right.
  - intros <-. by apply Hp'.
Qed.

Lemma remove_loop_owned items fuel i s s' :
  cache_owned s → remove_loop items fuel i s = Ok s' → cache_owned s'.
Proof.
  revert i s. induction fuel as [|fuel IH]; simpl; intros i s Hown H.
  - destruct (m_items s !! i); [discriminate |]. by injection H as <-.
  - destruct (m_items s !! i) as [it|]; [| by injection H as <-].
    apply bind_Ok in H as (s1 & H1 & H2). eapply IH; [| exact H2].
    destruct (found (Data it) items); [by injection H1 as <- |].
    by eapply uncache_item_owned.
Qed.

Lemma move_item_owned i j x s s' :
  cache_owned s → move_item i j x s = Ok s' → cache_owned s'.
Proof.
  intros Hown H. apply move_item_inv in H as (it & Hit & H).
  destruct (decide (Data x = Data it)); [| by subst].
  destruct H as (v & p & Hv & Hp & _ & ->).
  eapply cache_owned_perm; [| | exact Hown]; simpl; [| done].
  by rewrite !moved_Permutation.
Qed.

Lemma move_scan_owned i rest j s s' :
  cache_owned s → move_scan i rest j s = Ok s' → cache_owned s'.
Proof.
  revert j s. induction rest as [|x rest IH]; simpl; intros j s Hown H.
  - by injection H as <-.
  - apply bind_Ok in H as (s1 & H1 & H2). eapply IH; [| exact H2].
    by eapply move_item_owned.
Qed.

Lemma move_loop_owned items fuel i s s' :
  cache_owned s → move_loop items fuel i s = Ok s' → cache_owned s'.
Proof.
  revert i s. induction fuel as [|fuel IH]; simpl; intros i s Hown H.
  - destruct (m_items s !! i); [discriminate |]. by injection H as <-.
  - destruct (m_items s !! i) as [it|]; [| by injection H as <-].
    apply bind_Ok in H as (x & _ & H).
    apply bind_Ok in H as (s1 & H1 & H2). eapply IH; [| exact H2].
    destruct (decide (Data x ≠ Data it)).
    + by eapply move_scan_owned.
    + by injection H1 as <-.
Qed.

Lemma m_cache_owned items now s s' :
  cache_owned s → m_cache items now s = Ok s' → cache_owned s'.
Proof.
  intros Hown H.
  assert (Hscan : ∀ s0, cache_owned s0 → full_scan items s0 = Ok s' → cache_owned s').
  { intros s0 Hown0 H0. unfold full_scan in H0.
    apply bind_Ok in H0 as (s1 & H1 & H0).
    apply bind_Ok in H0 as (s2 & H2 & H0).
    eapply move_loop_owned; [| exact H0].
    eapply remove_loop_owned; [| exact H2].
    by eapply insert_loop_owned. }
  unfold m_cache in H.
  destruct (decide (length (m_items s) = length items)); [| by eapply Hscan].
  destruct (Qlt_le_dec (1 # 2) (now - m_cacheTimer s)).
  - by apply (Hscan (set_cacheTimer now s)).
  - by injection H as <-.
Qed.

Lemma cache_owned_dom s s' :
  m_vs s' = m_vs s → m_ps s' = m_ps s → dom (heap s') = dom (heap s) →
  cache_owned s → cache_owned s'.
Proof.
  intros Hv Hp Hdom [Hnd Hlive]. split; rewrite Hv, Hp; [done |].
  intros a Ha. apply elem_of_dom. rewrite Hdom. apply elem_of_dom. by apply Hlive.
Qed.

Lemma set_InputSignature_dom a sig s s' :
  set_InputSignature a sig s = Ok s' → dom (heap s') = dom (heap s).
Proof.
  unfold set_InputSignature. intros H. destruct (heap s !! a) as [o|] eqn:Ha; [| done].
  injection H as <-. simpl. rewrite dom_insert_L.
  apply elem_of_dom_2 in Ha. apply subseteq_union_1_L. by apply singleton_subseteq_l.
Qed.

Lemma LoadFromMemory_dom st a src entry s ok s' :
  LoadFromMemory st a src entry s = Ok (ok, s') → dom (heap s') = dom (heap s).
Proof.
  unfold LoadFromMemory. intros H. destruct (heap s !! a) as [o|] eqn:Ha; [| done].
  injection H as _ <-. simpl. rewrite dom_insert_L.
  apply elem_of_dom_2 in Ha. apply subseteq_union_1_L. by apply singleton_subseteq_l.
Qed.

Lemma Recompile_item_dom name i item s s' :
  Recompile_item name i item s = Ok s' → dom (heap s') = dom (heap s).
Proof.
  unfold Recompile_item, load_file. intros H.
  destruct (decide (Name item = name)); [| by injection H as ->].
  apply bind_Ok in H as (data & _ & H).
  apply bind_Ok in H as (v & _ & H).
  apply bind_Ok in H as (s1 & H1 & H).
  apply bind_Ok in H as (v' & _ & H).
  apply bind_Ok in H as ([vsCompiled s2] & H2 & H).
  apply bind_Ok in H as (p & _ & H).
  apply bind_Ok in H as ([psCompiled s3] & H3 & H).
  injection H as <-. rewrite report_diagnosed. simpl.
  apply LoadFromMemory_dom in H3 as ->. apply LoadFromMemory_dom in H2 as ->. simpl.
  destruct (decide (0 < length (VSInputLayout data))).
  - apply bind_Ok in H1 as (s0 & H0 & H1). injection H1 as <-.
    by apply set_InputSignature_dom in H0.
  - by apply set_InputSignature_dom in H1.
Qed.

Lemma Recompile_loop_owned name rest i s s' :
  cache_owned s → Recompile_loop name rest i s = Ok s' → cache_owned s'.
Proof.
  revert i s. induction rest as [|item rest IH]; simpl; intros i s Hown H.
  - by injection H as <-.
  - apply bind_Ok in H as (s1 & H1 & H2). eapply IH; [| exact H2].
    apply (cache_owned_dom s); [| | | done].
    + by apply (Recompile_item_frame m_vs) in H1.
    + by apply (Recompile_item_frame m_ps) in H1.
    + by apply Recompile_item_dom in H1.
Qed.

(** X15. Every public operation leaves the cache owning its shader
    objects: the objects in the two shader vectors are alive and pairwise
    different. *)
Lemma cache_owned_preserved :
  (∀ now msgs, cache_owned (RenderEngine_new now msgs)) ∧
  (∀ items now width height s s',
     cache_owned s → Render items now width height s = Ok s' → cache_owned s') ∧
  (∀ name s s', cache_owned s → Recompile name s = Ok s' → cache_owned s') ∧
  (∀ s s', FlushCache s = Ok s' → cache_owned s').
Proof.
  assert (Hempty : ∀ s, m_vs s = [] → m_ps s = [] → cache_owned s).
  { intros s Hv Hp. split; rewrite Hv, Hp; simpl; [constructor |].
    intros a Ha. inversion Ha. }
  split; [| split; [| split]].
  - intros now msgs. by apply Hempty.
  - intros items now width height s s' Hown H. unfold Render in H.
    apply bind_Ok in H as (s1 & H1 & H).
    apply bind_Ok in H as (s2 & H2 & H). injection H as <-.
    apply m_cache_owned in H1.
    + eapply (cache_owned_perm s1); [| | exact H1]; simpl.
      * apply (render_passes_frame m_vs) in H2 as Hv; [| done].
        apply (render_passes_frame m_ps) in H2 as Hp; [| done].
        simpl in Hv, Hp. by rewrite Hv, Hp.
      * by apply (render_passes_frame heap) in H2.
    + eapply (cache_owned_perm s); [| | exact Hown]; simpl;
        unfold sync_render_target; by case_decide.
  - intros name s s' Hown H. by eapply Recompile_loop_owned.
  - intros s s' H. unfold FlushCache in H.
    apply bind_Ok in H as (s1 & _ & H).
    apply bind_Ok in H as (s2 & _ & H). injection H as <-. by apply Hempty.
Qed.

(** ** The loops of the model run to their end *)

Lemma bind_not_Diverged {A B} (m : outcome A) (f : A -> outcome B) :
  m ≠ Diverged → (∀ a, m = Ok a → f a ≠ Diverged) → m ≫= f ≠ Diverged.
Proof. destruct m; simpl; intros H1 H2; [by apply H2 | done | done]. Qed.

Ltac nodiv :=
  repeat first
    [ apply bind_not_Diverged; [| intros ? ?]
    | progress unfold vec_at, vec_insert, vec_erase, as_ShaderPass, as_GeometryItem,
        as_BlendState, as_DepthStencilState, delete_shader, set_InputSignature,
        LoadFromMemory, bind_shader, new_shader, load_file
    | match goal with
      | |- (let '(_, _) := ?p in _) ≠ Diverged => destruct p
      | |- (if ?c then _ else _) ≠ Diverged => destruct c
      | |- (match ?x with _ => _ end) ≠ Diverged => destruct x
      | |- Ok _ ≠ Diverged => discriminate
      | |- Undefined ≠ Diverged => discriminate
      end ].

Lemma cache_item_terminates i item s : cache_item i item s ≠ Diverged.
Proof. unfold cache_item. nodiv. Qed.

Lemma insert_loop_terminates rest i s : insert_loop rest i s ≠ Diverged.
Proof.
  revert i s. induction rest as [|item rest IH]; intros i s; simpl; [done |].
  apply bind_not_Diverged; [| by intros]. 
  destruct (found (Data item) (m_items s)); [done | apply cache_item_terminates].
Qed.

Lemma uncache_item_terminates i s : uncache_item i s ≠ Diverged.
Proof. unfold uncache_item. nodiv. Qed.

Lemma move_item_terminates i j x s : move_item i j x s ≠ Diverged.
Proof. unfold move_item. nodiv. Qed.

Lemma move_scan_terminates i rest j s : move_scan i rest j s ≠ Diverged.
Proof.
  revert j s. induction rest as [|x rest IH]; intros j s; simpl; [done |].
  apply bind_not_Diverged; [apply move_item_terminates | by intros].
Qed.

Lemma remove_loop_terminates items fuel i s :
  length (m_items s) ≤ fuel + i → remove_loop items fuel i s ≠ Diverged.
Proof.
  revert i s. induction fuel as [|fuel IH]; intros i s Hfuel; simpl.
  - rewrite lookup_ge_None_2; [done | lia].
  - destruct (m_items s !! i) as [it|] eqn:Hit; [| done].
    apply bind_not_Diverged.
    + destruct (found (Data it) items); [done | apply uncache_item_terminates].
    + intros s1 H1. apply IH.
      destruct (found (Data it) items).
      * injection H1 as <-. lia.
      * apply uncache_item_inv in H1 as (v & p & _ & _ & Hi & _ & _ & _ & ->).
        simpl. pose proof (erased_length i (m_items s) Hi). lia.
Qed.

Lemma move_loop_terminates items fuel i s :
  length (m_items s) ≤ fuel + i → move_loop items fuel i s ≠ Diverged.
Proof.
  revert i s. induction fuel as [|fuel IH]; intros i s Hfuel; simpl.
  - rewrite lookup_ge_None_2; [done | lia].
  - destruct (m_items s !! i) as [it|] eqn:Hit; [| done].
    apply bind_not_Diverged; [unfold vec_at; by destruct (items !! i) |].
    intros x _. apply bind_not_Diverged.
    + destruct (decide (Data x ≠ Data it)); [apply move_scan_terminates | done].
    + intros s1 H1. apply IH.
      destruct (decide (Data x ≠ Data it)).
      * apply move_scan_length in H1. lia.
      * injection H1 as <-. lia.
Qed.

Lemma full_scan_terminates items s : full_scan items s ≠ Diverged.
Proof.
  unfold full_scan. apply bind_not_Diverged; [apply insert_loop_terminates |].
  intros s1 _. apply bind_not_Diverged; [apply remove_loop_terminates; lia |].
  intros s2 _. apply move_loop_terminates. lia.
Qed.

(** The reconciler always comes to an end: the steps given to its loops
    suffice. *)
Lemma m_cache_terminates items now s : m_cache items now s ≠ Diverged.
Proof.
  unfold m_cache. destruct (decide (length (m_items s) = length items)).
  - destruct (Qlt_le_dec (1 # 2) (now - m_cacheTimer s));
      [apply full_scan_terminates | done].
  - apply full_scan_terminates.
Qed.

Lemma render_items_terminates pass children s : render_items pass children s ≠ Diverged.
Proof.
  revert s. induction children as [|item rest IH]; intros s; simpl; [done |].
  apply bind_not_Diverged; [| by intros]. unfold render_item. nodiv.
Qed.

Lemma render_passes_terminates rest i s : render_passes rest i s ≠ Diverged.
Proof.
  revert i s. induction rest as [|it rest IH]; intros i s; simpl; [done |].
  apply bind_not_Diverged; [| by intros].
  unfold render_pass. nodiv. apply render_items_terminates.
Qed.

Lemma Render_terminates items now width height s :
  Render items now width height s ≠ Diverged.
Proof.
  unfold Render. apply bind_not_Diverged; [apply m_cache_terminates |].
  intros s1 _. apply bind_not_Diverged; [apply render_passes_terminates | done].
Qed.

Lemma Recompile_terminates name s : Recompile name s ≠ Diverged.
Proof.
  unfold Recompile. generalize 0. generalize (m_items s) as rest. intros rest.
  revert s. induction rest as [|item rest IH]; intros s i; simpl; [done |].
  apply bind_not_Diverged; [| by intros]. unfold Recompile_item. nodiv.
Qed.

Lemma delete_all_terminates l s : delete_all l s ≠ Diverged.
Proof.
  revert s. induction l as [|a l IH]; intros s; simpl; [done |].
  apply bind_not_Diverged; [| by intros]. nodiv.
Qed.

Lemma FlushCache_terminates s : FlushCache s ≠ Diverged.
Proof.
  unfold FlushCache. apply bind_not_Diverged; [apply delete_all_terminates |].
  intros s1 _. apply bind_not_Diverged; [apply delete_all_terminates | done].
Qed.

(** ** The slots and the children of a pass *)

Lemma count_calls_snoc P t c :
  count_calls P (t ++ [c]) = count_calls P t + (if P c then 1 else 0).
Proof.
  unfold count_calls. rewrite filter_app, length_app. f_equal.
  destruct (P c) eqn:E.
  - by rewrite filter_cons_True.
  - rewrite filter_cons_False; [done | by rewrite E].
Qed.

Lemma used_slots_S table j n :
  used_slots table j (S n) = (if table j then 1 else 0) + used_slots table (S j) n.
Proof.
  unfold used_slots. simpl. destruct (table j) eqn:E.
  - by rewrite filter_cons_True.
  - rewrite filter_cons_False; [done | by rewrite E].
Qed.

(** X1. Of the constant-buffer slots [j] to [j + n - 1] of a pass, the
    renderer binds the used ones and no other: a vertex (pixel) slot is bound
    exactly when the vertex (pixel) table marks it used, so the number of bind
    calls of a stage is the number of its used slots. *)
Theorem bind_slots_binds_used_slots pass data n j s :
  count_calls is_BindVS (trace (bind_slots pass data n j s)) =
    count_calls is_BindVS (trace s) + used_slots (VSVariables data) j n ∧
  count_calls is_BindPS (trace (bind_slots pass data n j s)) =
    count_calls is_BindPS (trace s) + used_slots (PSVariables data) j n ∧
  (∀ k, BindVS pass k ∈ trace (bind_slots pass data n j s) ↔
        BindVS pass k ∈ trace s ∨ (j ≤ k < j + n ∧ VSVariables data k = true)) ∧
  (∀ k, BindPS pass k ∈ trace (bind_slots pass data n j s) ↔
        BindPS pass k ∈ trace s ∨ (j ≤ k < j + n ∧ PSVariables data k = true)).
Proof.
  revert j s. induction n as [|n IH]; intros j s; simpl.
  - unfold used_slots. simpl. rewrite !Nat.add_0_r.
    repeat split; try done; try (by left); intros [?|[? _]]; [done | lia | done | lia].
  - destruct (IH (S j)
                (if PSVariables data j
                 then call (BindPS pass j)
                        (if VSVariables data j then call (BindVS pass j) s else s)
                 else if VSVariables data j then call (BindVS pass j) s else s))
      as (Cv & Cp & Mv & Mp).
    rewrite !used_slots_S.
    split; [| split; [| split]].
    + rewrite Cv. destruct (VSVariables data j), (PSVariables data j); simpl;
        rewrite ?count_calls_snoc; simpl; lia.
    + rewrite Cp. destruct (VSVariables data j), (PSVariables data j); simpl;
        rewrite ?count_calls_snoc; simpl; lia.
    + intros k. rewrite Mv.
      assert (Hhere : BindVS pass k ∈
                trace (if PSVariables data j
                       then call (BindPS pass j)
                              (if VSVariables data j then call (BindVS pass j) s else s)
                       else if VSVariables data j then call (BindVS pass j) s else s) ↔
              BindVS pass k ∈ trace s ∨ (k = j ∧ VSVariables data j = true)).
      { destruct (VSVariables data j), (PSVariables data j); simpl;
          rewrite ?elem_of_app, ?list_elem_of_singleton.
        - split; [intros [[?|E]|E]; [by left | right; by injection E | done] |].
          intros [?|[-> _]]; [by left; left | left; by right].
        - split; [intros [?|E]; [by left | right; by injection E] |].
          intros [?|[-> _]]; [by left | by right].
        - split; [intros [?|E]; [by left | done] | intros [?|[_ ?]]; [by left | done]].
        - split; [by left | intros [?|[_ ?]]; done]. }
      rewrite Hhere. split.
      * intros [[?|[-> E]]|[Hk E]]; [by left | right; split; [lia | done] |].
        right. split; [lia | done].
      * intros [?|[Hk E]]; [by left; left |].
        destruct (decide (k = j)) as [->|Hne]; [left; by right |].
        right. split; [lia | done].
    + intros k. rewrite Mp.
      assert (Hhere : BindPS pass k ∈
                trace (if PSVariables data j
                       then call (BindPS pass j)
                              (if VSVariables data j then call (BindVS pass j) s else s)
                       else if VSVariables data j then call (BindVS pass j) s else s) ↔
              BindPS pass k ∈ trace s ∨ (k = j ∧ PSVariables data j = true)).
      { destruct (VSVariables data j), (PSVariables data j); simpl;
          rewrite ?elem_of_app, ?list_elem_of_singleton.
        - split; [intros [[?|E]|E]; [by left | done | right; by injection E] |].
          intros [?|[-> _]]; [by left; left | by right].
        - split; [intros [?|E]; [by left | done] | intros [?|[_ ?]]; [by left | done]].
        - split; [intros [?|E]; [by left | right; by injection E] |].
          intros [?|[-> _]]; [by left | by right].
        - split; [by left | intros [?|[_ ?]]; done]. }
      rewrite Hhere. split.
      * intros [[?|[-> E]]|[Hk E]]; [by left | right; split; [lia | done] |].
        right. split; [lia | done].
      * intros [?|[Hk E]]; [by left; left |].
        destruct (decide (k = j)) as [->|Hne]; [left; by right |].
        right. split; [lia | done].
Qed.

Lemma children_of_type_cons t item rest :
  children_of_type t (item :: rest) =
  (if decide (Type_ item = t) then 1 else 0) + children_of_type t rest.
Proof.
  unfold children_of_type. destruct (decide (Type_ item = t)).
  - by rewrite filter_cons_True.
  - by rewrite filter_cons_False.
Qed.

Lemma render_item_counts pass item s s' :
  render_item pass item s = Ok s' →
  count_calls is_Draw (trace s') =
    count_calls is_Draw (trace s) + (if decide (Type_ item = Geometry) then 1 else 0) ∧
  count_calls is_UpdateBuffers (trace s') =
    count_calls is_UpdateBuffers (trace s) + (if decide (Type_ item = Geometry) then 2 else 0) ∧
  count_calls is_BlendStateBind (trace s') =
    count_calls is_BlendStateBind (trace s) + (if decide (Type_ item = BlendState) then 1 else 0) ∧
  count_calls is_DepthStencilStateBind (trace s') =
    count_calls is_DepthStencilStateBind (trace s) +
    (if decide (Type_ item = DepthStencilState) then 1 else 0).
Proof.
  unfold render_item. intros H.
  destruct (decide (Type_ item = Geometry)) as [E|E].
  - apply bind_Ok in H as (g & _ & H). injection H as <-. rewrite E. simpl.
    rewrite !count_calls_snoc. simpl. lia.
  - destruct (decide (Type_ item = BlendState)) as [E1|E1].
    + apply bind_Ok in H as (u & _ & H). injection H as <-. rewrite E1. simpl.
      rewrite !count_calls_snoc. simpl. lia.
    + destruct (decide (Type_ item = DepthStencilState)) as [E2|E2].
      * apply bind_Ok in H as (d & _ & H). injection H as <-. simpl.
        rewrite !count_calls_snoc. simpl. lia.
      * injection H as <-. lia.
Qed.

(** X2. The children of a pass, when they have all been rendered: there is
    one draw call, with two constant-buffer updates, per geometry child, one
    bind of a blend state per blend-state child and one bind of a
    depth-stencil state per depth-stencil child. *)
Theorem render_items_calls_per_child pass children s s' :
  render_items pass children s = Ok s' →
  count_calls is_Draw (trace s') =
    count_calls is_Draw (trace s) + children_of_type Geometry children ∧
  count_calls is_UpdateBuffers (trace s') =
    count_calls is_UpdateBuffers (trace s) + 2 * children_of_type Geometry children ∧
  count_calls is_BlendStateBind (trace s') =
    count_calls is_BlendStateBind (trace s) + children_of_type BlendState children ∧
  count_calls is_DepthStencilStateBind (trace s') =
    count_calls is_DepthStencilStateBind (trace s) +
    children_of_type DepthStencilState children.
Proof.
  revert s. induction children as [|item rest IH]; simpl; intros s H.
  - injection H as <-. unfold children_of_type. simpl. lia.
  - apply bind_Ok in H as (s1 & H1 & H2).
    apply render_item_counts in H1 as (D1 & U1 & B1 & S1).
    apply IH in H2 as (D2 & U2 & B2 & S2).
    rewrite !children_of_type_cons, D2, U2, B2, S2, D1, U1, B1, S1.
    repeat split; repeat case_decide; lia.
Qed.

(** ** The trace only grows while the passes are rendered *)

Lemma render_item_prefix pass item s s' :
  render_item pass item s = Ok s' → trace s `prefix_of` trace s'.
Proof.
  unfold render_item. intros H. ok_inv H; subst; simpl;
    rewrite <- ?app_assoc; try apply prefix_app_r; done.
Qed.

Lemma render_items_prefix pass children s s' :
  render_items pass children s = Ok s' → trace s `prefix_of` trace s'.
Proof.
  revert s. induction children as [|item rest IH]; simpl; intros s H.
  - by injection H as <-.
  - apply bind_Ok in H as (s1 & H1 & H2).
    etrans; [by eapply render_item_prefix | by apply IH].
Qed.

Lemma bind_slots_prefix pass data n j s :
  trace s `prefix_of` trace (bind_slots pass data n j s).
Proof.
  revert j s. induction n as [|n IH]; simpl; intros j s; [done |].
  etrans; [| apply IH].
  destruct (VSVariables data j), (PSVariables data j); simpl;
    rewrite <- ?app_assoc; try apply prefix_app_r; done.
Qed.

Lemma render_pass_prefix i it s s' :
  render_pass i it s = Ok s' → trace s `prefix_of` trace s'.
Proof.
  unfold render_pass, bind_shader. intros H.
  apply bind_Ok in H as (data & _ & H).
  apply bind_Ok in H as (v & _ & H).
  apply bind_Ok in H as (s1 & H1 & H).
  apply bind_Ok in H as (p & _ & H).
  apply bind_Ok in H as (s2 & H2 & H).
  apply render_items_prefix in H. etrans; [| exact H].
  ok_inv H2. ok_inv H1. subst. simpl.
  etrans; [| apply prefix_app_r; reflexivity].
  etrans; [| apply prefix_app_r; reflexivity].
  etrans; [| apply prefix_app_r; reflexivity].
  etrans; [| apply bind_slots_prefix]. simpl. by apply prefix_app_r.
Qed.

Lemma render_passes_prefix rest i s s' :
  render_passes rest i s = Ok s' → trace s `prefix_of` trace s'.
Proof.
  revert i s. induction rest as [|it rest IH]; simpl; intros i s H.
  - by injection H as <-.
  - apply bind_Ok in H as (s1 & H1 & H2).
    etrans; [by eapply render_pass_prefix | by eapply IH].
Qed.

(** ** Frames at the edges *)

Lemma m_cache_skips items now s :
  length (m_items s) = length items → (now - m_cacheTimer s <= 1 # 2)%Q →
  m_cache items now s = Ok s.
Proof.
  intros Hlen Hle. unfold m_cache. rewrite decide_True by done.
  destruct (Qlt_le_dec (1 # 2) (now - m_cacheTimer s)) as [Hlt|_]; [| done].
  exfalso. apply (Qlt_irrefl (1 # 2)). eapply Qlt_le_trans; eassumption.
Qed.

Lemma full_scan_nothing s : m_items s = [] → full_scan [] s = Ok s.
Proof.
  intros H. unfold full_scan. simpl. rewrite remove_loop_found; [| | lia].
  - simpl. apply move_loop_in_order; [by rewrite H | lia].
  - intros it Hit. rewrite H in Hit. inversion Hit.
Qed.

(** X3. A frame on an empty pipeline (no cached pass, empty external list)
    completes and makes exactly the frame calls: the creation of the render
    target when the size changed, then the viewport size, the bind and the two
    clears of the render target, the viewport, and the bind of the window. No
    pass is bound and nothing is drawn. *)
Theorem Render_empty_pipeline now width height s :
  m_items s = [] →
  ∃ s', Render [] now width height s = Ok s' ∧
    m_items s' = [] ∧
    trace s' =
      trace s ++
      (if decide (fst (m_lastSize s) ≠ width ∨ snd (m_lastSize s) ≠ height)
       then [RtCreate width height; RtViewCreate] else []) ++
      [SetViewportSize width height; RtBind; RtClear; RtClearDepthStencil;
       RSSetViewports width height; WindowBind].
Proof.
  intros Hempty. unfold Render.
  set (s0 := call (SetViewportSize width height) (sync_render_target width height s)).
  assert (H0 : m_items s0 = []).
  { unfold s0, sync_render_target. by case_decide. }
  assert (Hcache : ∃ s1, m_cache [] now s0 = Ok s1 ∧ m_items s1 = [] ∧ trace s1 = trace s0).
  { unfold m_cache. rewrite decide_True by by rewrite H0.
    destruct (Qlt_le_dec (1 # 2) (now - m_cacheTimer s0)).
    - rewrite full_scan_nothing by done. eexists. split; [done |]. by split.
    - exists s0. by repeat split. }
  destruct Hcache as (s1 & -> & H1 & T1). simpl. rewrite H1. simpl.
  eexists. split; [reflexivity |]. split; [done |]. simpl. rewrite T1.
  unfold s0, sync_render_target. case_decide; simpl; by rewrite <- ?app_assoc.
Qed.

(** X4. A throttled frame (the external list as long as the snapshot, at
    most 0.5 elapsed) leaves the cache, the shader objects, the messages and
    the timer as they were, and does not depend on what the external list
    holds: any other list of that length gives the same frame, so a reorder
    of the list is not seen and the passes are drawn in snapshot order. *)
Theorem Render_throttled items now width height s s' :
  length (m_items s) = length items →
  (now - m_cacheTimer s <= 1 # 2)%Q →
  Render items now width height s = Ok s' →
  m_items s' = m_items s ∧ m_vs s' = m_vs s ∧ m_ps s' = m_ps s ∧
  heap s' = heap s ∧ m_msgs s' = m_msgs s ∧ m_cacheTimer s' = m_cacheTimer s ∧
  ∀ items', length items' = length items →
    Render items' now width height s = Ok s'.
Proof.
  intros Hlen Hle H.
  set (s0 := call (SetViewportSize width height) (sync_render_target width height s)).
  assert (Hsame : m_items s0 = m_items s ∧ m_vs s0 = m_vs s ∧ m_ps s0 = m_ps s ∧
                  heap s0 = heap s ∧ m_msgs s0 = m_msgs s ∧
                  m_cacheTimer s0 = m_cacheTimer s).
  { unfold s0, sync_render_target. by case_decide. }
  destruct Hsame as (I0 & V0 & P0 & H0 & M0 & T0).
  assert (Hskip : ∀ l, length l = length items → m_cache l now s0 = Ok s0).
  { intros l Hl. apply m_cache_skips; [by rewrite I0, Hl | by rewrite T0]. }
  split; [| split; [| split; [| split; [| split; [| split]]]]].
  7:{ intros items' Hl. rewrite <- H. unfold Render. fold s0.
      by rewrite !Hskip. }
  all: unfold Render in H; fold s0 in H; rewrite Hskip in H by done; simpl in H.
  all: apply bind_Ok in H as (s2 & H2 & H); injection H as <-; simpl.
  - apply (render_passes_frame m_items) in H2; [| done]. by rewrite H2.
  - apply (render_passes_frame m_vs) in H2; [| done]. by rewrite H2.
  - apply (render_passes_frame m_ps) in H2; [| done]. by rewrite H2.
  - apply (render_passes_frame heap) in H2; [| done]. by rewrite H2.
  - apply (render_passes_frame m_msgs) in H2; [| done]. by rewrite H2.
  - apply (render_passes_frame m_cacheTimer) in H2; [| done]. by rewrite H2.
Qed.

(** X5. The constructor stores the size 0 x 0. A first frame of that size
    therefore creates no render target, whatever the pipeline holds, although
    the frame binds and clears the render target. *)
Theorem Render_first_frame_zero_size items now t msgs s' :
  Render items now 0 0 (RenderEngine_new t msgs) = Ok s' →
  rt_creations (trace s') = [] ∧ m_lastSize s' = (0, 0)%Z ∧
  RtBind ∈ trace s' ∧ RtClear ∈ trace s'.
Proof.
  intros H. pose proof (Render_render_target _ _ _ _ _ _ H) as [Hsize Hrt].
  split; [by rewrite Hrt | split; [done |]].
  unfold Render in H.
  apply bind_Ok in H as (s1 & _ & H).
  apply bind_Ok in H as (s2 & H2 & H). injection H as <-.
  apply render_passes_prefix in H2 as [t2 Ht2]. simpl. rewrite Ht2. simpl.
  rewrite !elem_of_app, !list_elem_of_singleton. split.
  - left. left. left. left. left. by right.
  - left. left. left. left. by right.
Qed.

(** ** Scans at the edges *)

(** X7. A scan that runs because the external list changed length leaves
    the throttle timer as it was: the timer is restarted only by a scan that
    runs on equal lengths. *)
Theorem m_cache_length_change_keeps_timer items now s s' :
  length (m_items s) ≠ length items →
  m_cache items now s = Ok s' →
  m_cacheTimer s' = m_cacheTimer s.
Proof.
  intros Hlen H. rewrite m_cache_length_changed in H by done.
  by apply (full_scan_frame m_cacheTimer) in H.
Qed.

(** X8. When the snapshot already has the identities of the external list,
    in its order, the reconciler changes nothing but, once more than 0.5 has
    elapsed, the timer: it compiles, destroys and moves nothing. *)
Theorem m_cache_in_step items now s :
  (Data <$> m_items s) = (Data <$> items) →
  m_cache items now s =
  Ok (if Qlt_le_dec (1 # 2) (now - m_cacheTimer s) then set_cacheTimer now s else s).
Proof.
  intros Hsame.
  assert (Hscan : ∀ s0, m_items s0 = m_items s → full_scan items s0 = Ok s0).
  { intros s0 H0. unfold full_scan.
    rewrite insert_loop_found.
    2:{ intros it Hit. rewrite H0, Hsame. apply list_elem_of_fmap. eauto. }
    simpl. rewrite remove_loop_found; [| | lia].
    2:{ intros it Hit. rewrite <- Hsame, <- H0. apply list_elem_of_fmap. eauto. }
    simpl. apply move_loop_in_order; [by rewrite H0 | lia]. }
  unfold m_cache. rewrite decide_True.
  2:{ by rewrite <- (length_fmap Data (m_items s)), Hsame, length_fmap. }
  destruct (Qlt_le_dec (1 # 2) (now - m_cacheTimer s)); [| done].
  by apply Hscan.
Qed.

Lemma insert_loop_appends rest : ∀ pre s,
  m_items s = pre → aligned s →
  NoDup (Data <$> pre ++ rest) →
  (∀ it, it ∈ rest → ∃ data, mem (Data it) = Some (PShaderPass data)) →
  ∃ s', insert_loop rest (length pre) s = Ok s' ∧ m_items s' = pre ++ rest ∧ aligned s'.
Proof.
  induction rest as [|item rest IH]; intros pre s Hpre Hal Hnd Hpass.
  - exists s. simpl. by rewrite app_nil_r.
  - simpl. destruct Hal as [Lv Lp].
    assert (Hnew : Data item ∉ (Data <$> m_items s)).
    { rewrite Hpre. rewrite fmap_app in Hnd. apply NoDup_app in Hnd as (_ & Hdisj & _).
      intros Hin. apply (Hdisj _ Hin). rewrite fmap_cons. left. }
    rewrite (proj2 (found_false (Data item) (m_items s))) by done.
    destruct (Hpass item) as [data Hdata]; [left |].
    rewrite (cache_item_Ok (length pre) item data s) by (done || rewrite ?Lv, ?Lp, Hpre; done).
    simpl.
    destruct (IH (pre ++ [item]) (cached (length pre) item data s))
      as (s' & Hrun & Hits & Hal').
    + simpl. rewrite Hpre. by rewrite take_ge, drop_ge by lia.
    + split; simpl; rewrite !inserted_length; lia.
    + by rewrite <- app_assoc.
    + intros it Hit. apply Hpass. by right.
    + exists s'. rewrite length_app in Hrun. simpl in Hrun.
      rewrite Nat.add_1_r in Hrun. rewrite Hrun.
      split; [done |]. split; [by rewrite Hits, <- app_assoc | done].
Qed.

(** X9. From an empty cache one call of the reconciler builds the whole
    cache, when the external items are shader passes with distinct
    identities: the snapshot is the external list, the three vectors have its
    length, and at every index the two shader objects are new objects loaded
    from the sources of the pass at that index. *)
Theorem m_cache_builds_from_empty items now s :
  m_items s = [] → m_vs s = [] → m_ps s = [] →
  NoDup (Data <$> items) →
  (∀ it, it ∈ items → ∃ data, mem (Data it) = Some (PShaderPass data)) →
  ∃ s', m_cache items now s = Ok s' ∧
    m_items s' = items ∧
    length (m_vs s') = length items ∧ length (m_ps s') = length items ∧
    ∀ k it, items !! k = Some it →
      ∃ data v p, mem (Data it) = Some (PShaderPass data) ∧
        m_vs s' !! k = Some v ∧ m_ps s' !! k = Some p ∧
        heap s !! v = None ∧ heap s !! p = None ∧
        heap s' !! v =
          Some (loaded VS (signature_of it data) (VSPath data) (VSEntry data)) ∧
        heap s' !! p = Some (loaded PS None (PSPath data) (PSEntry data)).
Proof.
  intros Hi Hv Hp Hnd Hpass.
  assert (Hscan : ∀ s0, m_items s0 = [] → m_vs s0 = [] → m_ps s0 = [] →
            heap s0 = heap s →
            ∃ s', full_scan items s0 = Ok s' ∧ m_items s' = items ∧
              length (m_vs s') = length items ∧ length (m_ps s') = length items ∧
              ∀ k it, items !! k = Some it →
                ∃ data v p, mem (Data it) = Some (PShaderPass data) ∧
                  m_vs s' !! k = Some v ∧ m_ps s' !! k = Some p ∧
                  heap s !! v = None ∧ heap s !! p = None ∧
                  heap s' !! v =
                    Some (loaded VS (signature_of it data) (VSPath data) (VSEntry data)) ∧
                  heap s' !! p = Some (loaded PS None (PSPath data) (PSEntry data))).
  { intros s0 I0 V0 P0 H0.
    destruct (insert_loop_appends items [] s0) as (s1 & Hrun & Hits & [Lv Lp]);
      [done | by split; rewrite ?V0, ?P0, I0 | done | done |].
    destruct (insert_loop_spec items [] 0 s0) as (s1' & Hrun' & _ & _ & _ & _ & Hnew);
      [done | done | by rewrite V0, I0 | by rewrite P0, I0 | | |].
    { intros it Hit. inversion Hit. }
    { intros it Hit _. by apply Hpass. }
    simpl in Hrun. rewrite Hrun in Hrun'. injection Hrun' as <-.
    simpl in Hits. exists s1. unfold full_scan. rewrite Hrun. simpl.
    rewrite remove_loop_found; [| | lia].
    2:{ intros it Hit. rewrite Hits in Hit. apply list_elem_of_fmap. eauto. }
    simpl. rewrite move_loop_in_order; [| by rewrite Hits | lia].
    split; [done |]. split; [done |].
    split; [by rewrite Lv, Hits |]. split; [by rewrite Lp, Hits |].
    intros k it Hk.
    destruct (Hnew k it Hk) as (_ & data & v & p & Hd & Hvk & Hpk & Nv & Np & Ov & Op).
    { rewrite I0. intros Hc. inversion Hc. }
    rewrite H0 in Nv, Np. simpl in Hvk, Hpk. eauto 12. }
  unfold m_cache. destruct (decide (length (m_items s) = length items)) as [Hlen|Hlen].
  - rewrite Hi in Hlen. simpl in Hlen. symmetry in Hlen. apply length_zero_iff_nil in Hlen.
    subst items.
    destruct (Qlt_le_dec (1 # 2) (now - m_cacheTimer s)).
    + by apply Hscan.
    + exists s. rewrite Hv, Hp. repeat split; done.
  - by apply Hscan.
Qed.

(** X13. A call of the reconciler touches the messages of no group but
    those named by an item it caches: a group that names no external item
    with a new identity is as it was, whatever is compiled, removed or
    moved. *)
Theorem m_cache_other_groups items now s s' g :
  (∀ it, it ∈ items → Name it = g → Data it ∈ (Data <$> m_items s)) →
  m_cache items now s = Ok s' →
  group_of g (m_msgs s') = group_of g (m_msgs s).
Proof.
  intros Hold H.
  assert (Hins : ∀ rest i s0 s1,
            (∀ it, it ∈ rest → Name it = g → Data it ∈ (Data <$> m_items s0)) →
            insert_loop rest i s0 = Ok s1 →
            group_of g (m_msgs s1) = group_of g (m_msgs s0)).
  { induction rest as [|item rest IH]; simpl; intros i s0 s1 Hg H0.
    - by injection H0 as <-.
    - apply bind_Ok in H0 as (s2 & H1 & H2).
      destruct (found (Data item) (m_items s0)) eqn:Hf.
      + injection H1 as <-. eapply IH; [| exact H2].
        intros it Hit. apply Hg. by right.
      + apply found_false in Hf.
        apply cache_item_inv in H1 as (data & _ & _ & _ & _ & ->).
        etrans; [eapply IH; [| exact H2] |].
        * intros it Hit Hn. simpl. rewrite inserted_Permutation. simpl. right.
          apply Hg; [by right | done].
        * simpl. apply group_of_diagnosed. intros ->. apply Hf, Hg; [left | done]. }
  assert (Hscan : ∀ s0, m_items s0 = m_items s → m_msgs s0 = m_msgs s →
            full_scan items s0 = Ok s' →
            group_of g (m_msgs s') = group_of g (m_msgs s)).
  { intros s0 I0 M0 H0. unfold full_scan in H0.
    apply bind_Ok in H0 as (s1 & H1 & H0).
    apply bind_Ok in H0 as (s2 & H2 & H0).
    apply (move_loop_frame m_msgs) in H0; try done.
    apply (remove_loop_frame m_msgs) in H2; try done.
    rewrite H0, H2, <- M0. eapply Hins; [| exact H1]. by rewrite I0. }
  unfold m_cache in H.
  destruct (decide (length (m_items s) = length items)); [| by eapply Hscan].
  destruct (Qlt_le_dec (1 # 2) (now - m_cacheTimer s)).
  - by apply (Hscan (set_cacheTimer now s)).
  - by injection H as <-.
Qed.

(** X14. [Recompile] with a name that no snapshot item has, and so on an
    empty cache too, does nothing: no shader is loaded and no message is
    added or cleared. *)
Theorem Recompile_unknown_name name s :
  (∀ it, it ∈ m_items s → Name it ≠ name) → Recompile name s = Ok s.
Proof.
  unfold Recompile. generalize 0. generalize (m_items s) as rest.
  induction rest as [|item rest IH]; intros i Hno; simpl; [done |].
  rewrite Recompile_item_skip by (apply Hno; left). simpl.
  apply IH. intros it Hit. apply Hno. by right.
Qed.

(** ** The life of an engine *)

Lemma no_leak_perm s s' :
  m_vs s' ++ m_ps s' ≡ₚ m_vs s ++ m_ps s → heap s' = heap s →
  no_leak s → no_leak s'.
Proof.
  intros Hperm Hheap Hno a Ha. rewrite Hperm. apply Hno. by rewrite <- Hheap.
Qed.

Lemma cached_no_leak i item data s : no_leak s → no_leak (cached i item data s).
Proof.
  intros Hno a [o Ha]. simpl in Ha. simpl. rewrite !inserted_Permutation.
  set (v := fresh (dom (heap s))) in *.
  set (p := fresh (dom (<[v := mkShader None None]> (heap s)))) in *.
  destruct (decide (a = p)) as [->|Hp].
  - apply elem_of_app. right. left.
  - rewrite lookup_insert_ne in Ha by done.
    destruct (decide (a = v)) as [->|Hv]; [left |].
    rewrite lookup_insert_ne in Ha by done.
    assert (Hin : a ∈ m_vs s ++ m_ps s) by (apply Hno; eauto).
    apply elem_of_app in Hin as [Hin|Hin].
    + right. apply elem_of_app. by left.
    + right. apply elem_of_app. right. by right.
Qed.

Lemma insert_loop_no_leak rest i s s' :
  no_leak s → insert_loop rest i s = Ok s' → no_leak s'.
Proof.
  revert i s. induction rest as [|item rest IH]; simpl; intros i s Hno H.
  - by injection H as <-.
  - apply bind_Ok in H as (s1 & H1 & H2). eapply IH; [| exact H2].
    destruct (found (Data item) (m_items s)); [by injection H1 as <- |].
    apply cache_item_inv in H1 as (data & _ & _ & _ & _ & ->).
    by apply cached_no_leak.
Qed.

Lemma uncache_item_no_leak i s s' :
  no_leak s → uncache_item i s = Ok s' → no_leak s'.
Proof.
  intros Hno H.
  apply uncache_item_inv in H as (v & p & Hv & Hp & _ & _ & _ & _ & ->).
  intros a [o Ha]. simpl in Ha. simpl.
  destruct (decide (a = p)) as [->|Hap]; [by rewrite lookup_delete_eq in Ha |].
  rewrite lookup_delete_ne in Ha by done.
  destruct (decide (a = v)) as [->|Hav]; [by rewrite lookup_delete_eq in Ha |].
  rewrite lookup_delete_ne in Ha by done.
  assert (Hin : a ∈ m_vs s ++ m_ps s) by (apply Hno; eauto).
  rewrite (erased_Permutation i (m_vs s) v Hv) in Hin.
  rewrite (erased_Permutation i (m_ps s) p Hp) in Hin.
  apply elem_of_app in Hin as [Hin|Hin]; apply elem_of_app.
  - apply elem_of_cons in Hin as [Hin|Hin]; [done | by left].
  - apply elem_of_cons in Hin as [Hin|Hin]; [done | by right].
Qed.

Lemma remove_loop_no_leak items fuel i s s' :
  no_leak s → remove_loop items fuel i s = Ok s' → no_leak s'.
Proof.
  revert i s. induction fuel as [|fuel IH]; simpl; intros i s Hno H.
  - destruct (m_items s !! i); [discriminate |]. by injection H as <-.
  - destruct (m_items s !! i) as [it|]; [| by injection H as <-].
    apply bind_Ok in H as (s1 & H1 & H2). eapply IH; [| exact H2].
    destruct (found (Data it) items); [by injection H1 as <- |].
    by eapply uncache_item_no_leak.
Qed.

Lemma relocation_no_leak s s' :
  m_vs s' ++ m_ps s' ≡ₚ m_vs s ++ m_ps s → heap s' = heap s → no_leak s → no_leak s'.
Proof. apply no_leak_perm. Qed.

Lemma move_item_no_leak i j x s s' :
  no_leak s → move_item i j x s = Ok s' → no_leak s'.
Proof.
  intros Hno H. apply move_item_inv in H as (it & Hit & H).
  destruct (decide (Data x = Data it)); [| by subst].
  destruct H as (v & p & Hv & Hp & _ & ->).
  eapply no_leak_perm; [| | exact Hno]; simpl; [| done].
  by rewrite !moved_Permutation.
Qed.

Lemma move_scan_no_leak i rest j s s' :
  no_leak s → move_scan i rest j s = Ok s' → no_leak s'.
Proof.
  revert j s. induction rest as [|x rest IH]; simpl; intros j s Hno H.
  - by injection H as <-.
  - apply bind_Ok in H as (s1 & H1 & H2). eapply IH; [| exact H2].
    by eapply move_item_no_leak.
Qed.

Lemma move_loop_no_leak items fuel i s s' :
  no_leak s → move_loop items fuel i s = Ok s' → no_leak s'.
Proof.
  revert i s. induction fuel as [|fuel IH]; simpl; intros i s Hno H.
  - destruct (m_items s !! i); [discriminate |]. by injection H as <-.
  - destruct (m_items s !! i) as [it|]; [| by injection H as <-].
    apply bind_Ok in H as (x & _ & H).
    apply bind_Ok in H as (s1 & H1 & H2). eapply IH; [| exact H2].
    destruct (decide (Data x ≠ Data it)).
    + by eapply move_scan_no_leak.
    + by injection H1 as <-.
Qed.

Lemma m_cache_no_leak items now s s' :
  no_leak s → m_cache items now s = Ok s' → no_leak s'.
Proof.
  intros Hno H.
  assert (Hscan : ∀ s0, no_leak s0 → full_scan items s0 = Ok s' → no_leak s').
  { intros s0 Hno0 H0. unfold full_scan in H0.
    apply bind_Ok in H0 as (s1 & H1 & H0).
    apply bind_Ok in H0 as (s2 & H2 & H0).
    eapply move_loop_no_leak; [| exact H0].
    eapply remove_loop_no_leak; [| exact H2].
    by eapply insert_loop_no_leak. }
  unfold m_cache in H.
  destruct (decide (length (m_items s) = length items)); [| by eapply Hscan].
  destruct (Qlt_le_dec (1 # 2) (now - m_cacheTimer s)).
  - by apply (Hscan (set_cacheTimer now s)).
  - by injection H as <-.
Qed.

(** [Render] keeps each of the three invariants of the cache. *)
Lemma Render_keeps (P : World -> Prop) items now width height s s' :
  (∀ s1 s2, m_items s2 = m_items s1 → m_vs s2 = m_vs s1 → m_ps s2 = m_ps s1 →
            heap s2 = heap s1 → P s1 → P s2) →
  (∀ s1 s2, P s1 → m_cache items now s1 = Ok s2 → P s2) →
  P s → Render items now width height s = Ok s' → P s'.
Proof.
  intros Hsame Hcache HP H. unfold Render in H.
  apply bind_Ok in H as (s1 & H1 & H).
  apply bind_Ok in H as (s2 & H2 & H). injection H as <-.
  apply Hcache in H1.
  - apply (Hsame s1); [| | | | done]; simpl.
    + by apply (render_passes_frame m_items) in H2.
    + by apply (render_passes_frame m_vs) in H2.
    + by apply (render_passes_frame m_ps) in H2.
    + by apply (render_passes_frame heap) in H2.
  - apply (Hsame s); [| | | | done]; simpl; unfold sync_render_target; by case_decide.
Qed.

Lemma delete_all_inv l s s' :
  delete_all l s = Ok s' →
  m_vs s' = m_vs s ∧ m_ps s' = m_ps s ∧
  ∀ a, heap s' !! a = if decide (a ∈ l) then None else heap s !! a.
Proof.
  revert s. induction l as [|b l IH]; simpl; intros s H.
  - injection H as <-. by repeat split.
  - apply bind_Ok in H as (s1 & H1 & H2).
    unfold delete_shader in H1. destruct (heap s !! b); [| done]. injection H1 as <-.
    apply IH in H2 as (Hv & Hp & Hheap). simpl in Hv, Hp, Hheap.
    split; [done |]. split; [done |]. intros a. rewrite Hheap.
    destruct (decide (a ∈ l)) as [Hin|Hin].
    + rewrite decide_True; [done | by right].
    + destruct (decide (a = b)) as [->|Hne].
      * rewrite decide_True; [apply lookup_delete_eq | left].
      * rewrite decide_False; [by apply lookup_delete_ne |].
        intros Hc. apply elem_of_cons in Hc as [?|?]; done.
Qed.

Lemma FlushCache_frees s s' :
  no_leak s → FlushCache s = Ok s' →
  m_items s' = [] ∧ m_vs s' = [] ∧ m_ps s' = [] ∧ heap s' = ∅.
Proof.
  intros Hno H. unfold FlushCache in H.
  apply bind_Ok in H as (s1 & H1 & H).
  apply bind_Ok in H as (s2 & H2 & H). injection H as <-. simpl.
  repeat split. apply map_empty. intros a.
  apply delete_all_inv in H1 as (V1 & P1 & L1).
  apply delete_all_inv in H2 as (_ & _ & L2).
  rewrite L2, L1, P1.
  destruct (decide (a ∈ m_ps s)) as [Hp|Hp]; [done |].
  destruct (decide (a ∈ m_vs s)) as [Hv|Hv]; [done |].
  destruct (heap s !! a) as [o|] eqn:Ha; [| done].
  exfalso. assert (Hin : a ∈ m_vs s ++ m_ps s) by (apply Hno; eauto).
  apply elem_of_app in Hin as [?|?]; done.
Qed.

Lemma FlushCache_completes s : cache_owned s → ∃ s', FlushCache s = Ok s'.
Proof.
  intros [Hnd Hlive]. apply NoDup_app in Hnd as (Hv & Hdisj & Hp).
  destruct (delete_all_spec (m_vs s) s) as (s1 & R1 & _ & _ & _ & P1 & _ & _ & _ & L1);
    [done | intros a Ha; apply Hlive, elem_of_app; by left |].
  destruct (delete_all_spec (m_ps s1) s1) as (s2 & R2 & _);
    [by rewrite P1 | |].
  { intros a Ha. rewrite L1. rewrite P1 in Ha.
    rewrite decide_False; [apply Hlive, elem_of_app; by right |].
    intros Hin. by apply (Hdisj a). }
  unfold FlushCache. rewrite R1. simpl. rewrite R2. simpl. eauto.
Qed.

Lemma Recompile_loop_dom name rest i s s' :
  Recompile_loop name rest i s = Ok s' → dom (heap s') = dom (heap s).
Proof.
  revert i s. induction rest as [|item rest IH]; simpl; intros i s H.
  - by injection H as <-.
  - apply bind_Ok in H as (s1 & H1 & H2).
    rewrite (IH _ _ H2). by apply Recompile_item_dom in H1.
Qed.

Lemma no_leak_dom s s' :
  m_vs s' = m_vs s → m_ps s' = m_ps s → dom (heap s') = dom (heap s) →
  no_leak s → no_leak s'.
Proof.
  intros Hv Hp Hdom Hno a Ha. rewrite Hv, Hp. apply Hno.
  apply elem_of_dom. rewrite <- Hdom. by apply elem_of_dom.
Qed.

Lemma reachable_invariants s : reachable s → cache_inv s ∧ cache_owned s ∧ no_leak s.
Proof.
  assert (Hempty : ∀ s0, m_items s0 = [] → m_vs s0 = [] → m_ps s0 = [] → heap s0 = ∅ →
            cache_inv s0 ∧ cache_owned s0 ∧ no_leak s0).
  { intros s0 Hi Hv Hp Hh. split; [| split].
    - unfold cache_inv. rewrite Hi, Hv, Hp. repeat split. constructor.
    - split; rewrite Hv, Hp; simpl; [constructor |]. intros a Ha. inversion Ha.
    - intros a [o Ha]. rewrite Hh in Ha. by rewrite lookup_empty in Ha. }
  induction 1 as [now msgs|s s' _ (Hinv & Hown & Hno) Hstep].
  - by apply Hempty.
  - destruct Hstep as [items now width height s s' H|name s s' H|s s' H].
    + split; [| split].
      * eapply (Render_keeps cache_inv); [| | exact Hinv | exact H].
        -- intros s1 s2 Hi Hv Hp _. by apply cache_inv_same.
        -- intros s1 s2. apply m_cache_inv.
      * eapply (Render_keeps cache_owned); [| | exact Hown | exact H].
        -- intros s1 s2 _ Hv Hp Hh. apply cache_owned_perm; [by rewrite Hv, Hp | done].
        -- intros s1 s2. apply m_cache_owned.
      * eapply (Render_keeps no_leak); [| | exact Hno | exact H].
        -- intros s1 s2 _ Hv Hp Hh. apply no_leak_perm; [by rewrite Hv, Hp | done].
        -- intros s1 s2. apply m_cache_no_leak.
    + unfold Recompile in H.
      pose proof (Recompile_loop_owned _ _ _ _ _ Hown H) as Hown'.
      pose proof (Recompile_loop_dom _ _ _ _ _ H) as Hdom.
      apply (Recompile_loop_frame m_items) in H as Hi; try done.
      apply (Recompile_loop_frame m_vs) in H as Hv; try done.
      apply (Recompile_loop_frame m_ps) in H as Hp; try done.
      split; [by apply (cache_inv_same s) | split; [done |]].
      by apply (no_leak_dom s).
    + apply (FlushCache_frees s s') in H as (Hi & Hv & Hp & Hh); [| done].
      by apply Hempty.
Qed.

(** X16. Whatever public operations an engine has gone through since its
    construction, its cache is consistent (vectors of one length, distinct
    identities, live and pairwise different shader objects, no live shader
    object outside the cache), so that [FlushCache], which the destructor
    runs, completes, empties the cache and leaves no shader object alive. *)
Theorem engine_destruction_frees_all s :
  reachable s →
  cache_inv s ∧ cache_owned s ∧ no_leak s ∧
  ∃ s', FlushCache s = Ok s' ∧
    m_items s' = [] ∧ m_vs s' = [] ∧ m_ps s' = [] ∧ heap s' = ∅.
Proof.
  intros Hr. destruct (reachable_invariants s Hr) as (Hinv & Hown & Hno).
  split; [done |]. split; [done |]. split; [done |].
  destruct (FlushCache_completes s Hown) as [s' H].
  exists s'. split; [done |]. by apply FlushCache_frees in H.
Qed.

(** *** Reading past the external list *)

(** The reordering pass from an index of the external list on, on a
    snapshot longer than that list. *)
Lemma move_loop_past_end items fuel i s :
  i ≤ length items → length items < length (m_items s) →
  length (m_items s) ≤ fuel + i →
  move_loop items fuel i s = Undefined.
Proof.
  revert i s. induction fuel as [|fuel IH]; intros i s Hi Hlen Hfuel.
  { simpl in Hfuel. lia. }
  simpl. destruct (m_items s !! i) as [it|] eqn:Hit.
  2: { apply lookup_ge_None in Hit. lia. }
  unfold vec_at. destruct (items !! i) as [x|] eqn:Hx; [| done].
  apply lookup_lt_Some in Hx.
  change (Ok x ≫= _) with
    ((if decide (Data x ≠ Data it) then move_scan i items 0 s else Ok s) ≫=
     move_loop items fuel (S i)).
  destruct (if decide (Data x ≠ Data it) then move_scan i items 0 s else Ok s)
    as [s1| |] eqn:H1.
  - change (move_loop items fuel (S i) s1 = Undefined).
    assert (length (m_items s1) = length (m_items s)) as Hl.
    { destruct (decide (Data x ≠ Data it)).
      - by apply move_scan_length in H1.
      - by injection H1 as <-. }
    apply IH; lia.
  - done.
  - destruct (decide (Data x ≠ Data it)); [| discriminate].
    by apply move_scan_terminates in H1.
Qed.

(** X17. The reordering pass reads [items[i]] at every index [i] of the
    snapshot. When the snapshot is longer than the external list as the pass
    starts, the pass reads past the end of the external list: it has no
    defined behaviour. *)
Theorem move_loop_overrun items s :
  length items < length (m_items s) →
  move_loop items (length (m_items s)) 0 s = Undefined.
Proof. intros H. apply move_loop_past_end; lia. Qed.

(** What the removal pass leaves behind: an entry below the loop index
    whose identity the external list has not, or two such entries side by
    side from the loop index on. *)
Lemma remove_loop_leaves_stale items fuel : ∀ i s s',
  (∃ j it, j < i ∧ m_items s !! j = Some it ∧ Data it ∉ (Data <$> items)) ∨
  (∃ j a b, i ≤ j ∧ m_items s !! j = Some a ∧ m_items s !! S j = Some b ∧
     (Data a ∉ (Data <$> items)) ∧ Data b ∉ (Data <$> items)) →
  remove_loop items fuel i s = Ok s' →
  ∃ it, it ∈ m_items s' ∧ Data it ∉ (Data <$> items).
Proof.
  induction fuel as [|fuel IH]; intros i s s' HP H.
  - simpl in H. destruct (m_items s !! i) as [it|] eqn:Hit; [discriminate |].
    injection H as <-. apply lookup_ge_None in Hit.
    destruct HP as [(j & x & _ & Hx & Hs)|(j & a & b & Hj & Ha & _ & Hs & _)].
    + exists x. split; [by eapply list_elem_of_lookup_2 | done].
    + exists a. split; [by eapply list_elem_of_lookup_2 | done].
  - simpl in H. destruct (m_items s !! i) as [it|] eqn:Hit.
    2: { injection H as <-. apply lookup_ge_None in Hit.
         destruct HP as [(j & x & _ & Hx & Hs)|(j & a & b & Hj & Ha & _ & Hs & _)].
         - exists x. split; [by eapply list_elem_of_lookup_2 | done].
         - exists a. split; [by eapply list_elem_of_lookup_2 | done]. }
    apply bind_Ok in H as (s1 & H1 & H2).
    destruct (found (Data it) items) eqn:Hf.
    + injection H1 as <-. apply (IH (S i) s s'); [| done].
      destruct HP as [(j & x & Hj & Hx & Hs)|(j & a & b & Hj & Ha & Hb & Hsa & Hsb)].
      * left. exists j, x. split; [lia | done].
      * right. exists j, a, b. split; [| done].
        destruct (decide (j = i)) as [->|]; [| lia].
        rewrite Hit in Ha. injection Ha as ->.
        apply found_spec in Hf. done.
    + apply uncache_item_inv in H1 as (v & p & _ & _ & Hi & _ & _ & _ & ->).
      eapply (IH (S i)); [| exact H2]. simpl.
      destruct HP as [(j & x & Hj & Hx & Hs)|(j & a & b & Hj & Ha & Hb & Hsa & Hsb)].
      * left. exists j, x. split; [lia |]. split; [| done].
        by rewrite list_lookup_delete_lt.
      * destruct (decide (j ≤ S i)).
        -- left. destruct (decide (j = i)) as [->|].
           ++ exists i, b. split; [lia |]. split; [| done].
              by rewrite list_lookup_delete_ge.
           ++ assert (j = S i) as -> by lia.
              exists i, a. split; [lia |]. split; [| done].
              by rewrite list_lookup_delete_ge.
        -- right. exists (j - 1), a, b. split; [lia |].
           split; [| split; [| done]].
           ++ rewrite list_lookup_delete_ge by lia.
              by replace (S (j - 1)) with j by lia.
           ++ rewrite list_lookup_delete_ge by lia.
              by replace (S (S (j - 1))) with (S j) by lia.
Qed.

(** The removal pass keeps every identity that the external list has. *)
Lemma remove_loop_keeps_found items fuel : ∀ i s s' d,
  d ∈ (Data <$> items) → d ∈ (Data <$> m_items s) →
  remove_loop items fuel i s = Ok s' → d ∈ (Data <$> m_items s').
Proof.
  induction fuel as [|fuel IH]; intros i s s' d Hd Hin H; simpl in H;
    destruct (m_items s !! i) as [it|] eqn:Hit; try discriminate;
    try (by injection H as <-).
  apply bind_Ok in H as (s1 & H1 & H2).
  apply (IH (S i) s1 s' d); [done | | done].
  destruct (found (Data it) items) eqn:Hf.
  - by injection H1 as <-.
  - apply uncache_item_inv in H1 as (v & p & _ & _ & Hi & _ & _ & _ & ->). simpl.
    apply found_false in Hf.
    apply list_elem_of_fmap in Hin as (x & -> & Hx).
    apply list_elem_of_lookup in Hx as (k & Hk).
    apply list_elem_of_fmap. exists x. split; [done |].
    destruct (decide (k = i)) as [->|].
    { rewrite Hit in Hk. by injection Hk as ->. }
    destruct (decide (k < i)).
    + apply (list_elem_of_lookup_2 _ k). by rewrite list_lookup_delete_lt.
    + apply (list_elem_of_lookup_2 _ (k - 1)).
      rewrite list_lookup_delete_ge by lia.
      by replace (S (k - 1)) with k by lia.
Qed.

(** X18. Two entries side by side in the snapshot whose items have both
    left the external list, while that list has distinct identities and
    nothing new: the removal pass leaves a stale entry, the snapshot is
    longer than the external list, and the reordering pass reads past the end
    of the external list. The reconciler, and the frame that calls it, has no
    defined behaviour; the throttle cannot hold the scan back, the lengths
    being different. *)
Theorem m_cache_adjacent_removals_overrun items now s k a b :
  NoDup (Data <$> items) →
  (∀ it, it ∈ items → Data it ∈ (Data <$> m_items s)) →
  m_items s !! k = Some a → m_items s !! S k = Some b →
  Data a ∉ (Data <$> items) → Data b ∉ (Data <$> items) →
  m_cache items now s = Undefined ∧
  ∀ width height, Render items now width height s = Undefined.
Proof.
  intros Hnd Hall Ha Hb Hsa Hsb.
  assert (∀ s0, m_items s0 = m_items s → full_scan items s0 = Undefined) as Hscan.
  { intros s0 E. unfold full_scan.
    rewrite insert_loop_found by (by rewrite E).
    change (Ok s0 ≫= _) with
      (remove_loop items (length (m_items s0)) 0 s0 ≫=
       (λ s1, move_loop items (length (m_items s1)) 0 s1)).
    destruct (remove_loop items (length (m_items s0)) 0 s0) as [s1| |] eqn:H1.
    - change (move_loop items (length (m_items s1)) 0 s1 = Undefined).
      apply move_loop_past_end; [lia | | lia].
      destruct (remove_loop_leaves_stale _ _ _ _ _
                  (or_intror (ex_intro _ k (ex_intro _ a (ex_intro _ b
                     (conj (Nat.le_0_l k)
                        (conj (eq_trans (f_equal (.!! k) E) Ha)
                           (conj (eq_trans (f_equal (.!! S k) E) Hb)
                              (conj Hsa Hsb)))))))) H1)
        as (x & Hx & Hsx).
      assert (length (Data x :: (Data <$> items)) ≤ length (Data <$> m_items s1)) as Hl.
      { apply NoDup_incl_length; [by constructor |].
        intros d [->|Hd]%elem_of_cons.
        - by apply list_elem_of_fmap_2.
        - eapply remove_loop_keeps_found; [exact Hd | | exact H1].
          rewrite E. apply list_elem_of_fmap in Hd as (y & -> & Hy). by apply Hall. }
      simpl in Hl. rewrite !length_fmap in Hl. lia.
    - done.
    - by apply remove_loop_terminates in H1; [| lia]. }
  assert (length items < length (m_items s)) as Hlen.
  { assert (length (Data a :: (Data <$> items)) ≤ length (Data <$> m_items s)) as Hl.
    { apply NoDup_incl_length; [by constructor |].
      intros d [->|Hd]%elem_of_cons.
      - apply list_elem_of_fmap_2. by eapply list_elem_of_lookup_2.
      - apply list_elem_of_fmap in Hd as (y & -> & Hy). by apply Hall. }
    simpl in Hl. rewrite !length_fmap in Hl. lia. }
  assert (∀ s0, m_items s0 = m_items s → m_cache items now s0 = Undefined) as Hc.
  { intros s0 E. rewrite m_cache_length_changed by (rewrite E; lia). by apply Hscan. }
  split; [by apply Hc |].
  intros width height. unfold Render.
  rewrite Hc; [done |].
  unfold sync_render_target. by destruct (decide _).
Qed.

(** *** The shader objects that a frame binds *)

Lemma shader_binds_snoc t c :
  shader_binds (t ++ [c]) = shader_binds t ++ (if is_shader_bind c then [c] else []).
Proof.
  unfold shader_binds. rewrite filter_app. f_equal.
  destruct (is_shader_bind c) eqn:E.
  - by rewrite filter_cons_True.
  - rewrite filter_cons_False; [done | by rewrite E].
Qed.

Lemma render_item_shader_binds pass item s s' :
  render_item pass item s = Ok s' → shader_binds (trace s') = shader_binds (trace s).
Proof.
  unfold render_item. intros H. ok_inv H; subst; simpl;
    rewrite ?shader_binds_snoc; simpl; by rewrite ?app_nil_r.
Qed.

Lemma render_items_shader_binds pass children s s' :
  render_items pass children s = Ok s' → shader_binds (trace s') = shader_binds (trace s).
Proof.
  revert s. induction children as [|item rest IH]; simpl; intros s H.
  - by injection H as ->.
  - apply bind_Ok in H as (s1 & H1 & H2).
    rewrite (IH _ H2). by apply render_item_shader_binds in H1.
Qed.

Lemma bind_slots_shader_binds pass data n j s :
  shader_binds (trace (bind_slots pass data n j s)) = shader_binds (trace s).
Proof.
  revert j s. induction n as [|n IH]; simpl; intros j s; [done |].
  rewrite IH. destruct (VSVariables data j), (PSVariables data j); simpl;
    rewrite ?shader_binds_snoc; simpl; by rewrite ?app_nil_r.
Qed.

Lemma render_pass_shader_binds i it s s' :
  render_pass i it s = Ok s' →
  ∃ v p, m_vs s !! i = Some v ∧ m_ps s !! i = Some p ∧
    is_Some (heap s !! v) ∧ is_Some (heap s !! p) ∧
    shader_binds (trace s') =
      shader_binds (trace s) ++ [VertexShaderBind v; PixelShaderBind p].
Proof.
  unfold render_pass, bind_shader. intros H.
  apply bind_Ok in H as (data & _ & H).
  apply bind_Ok in H as (v & Hv & H).
  apply bind_Ok in H as (s1 & H1 & H).
  apply bind_Ok in H as (p & Hp & H).
  apply bind_Ok in H as (s2 & H2 & H).
  apply render_items_shader_binds in H. rewrite H.
  apply vec_at_Ok in Hv. rewrite bind_slots_frame in Hv by done.
  destruct (heap _ !! v) as [ov|] eqn:Hhv in H1; [| discriminate].
  injection H1 as <-.
  apply vec_at_Ok in Hp. simpl in Hp. rewrite bind_slots_frame in Hp by done.
  destruct (heap _ !! p) as [op|] eqn:Hhp in H2; [| discriminate].
  injection H2 as <-.
  simpl in Hhv, Hhp. rewrite bind_slots_frame in Hhv, Hhp by done.
  exists v, p. simpl in Hv, Hp, Hhv, Hhp.
  split; [done |]. split; [done |]. split; [by eexists |]. split; [by eexists |].
  simpl. rewrite !shader_binds_snoc. simpl.
  rewrite bind_slots_shader_binds. simpl. rewrite shader_binds_snoc. simpl.
  by rewrite !app_nil_r, <- app_assoc.
Qed.

Lemma render_passes_shader_binds rest : ∀ i s s',
  render_passes rest i s = Ok s' →
  shader_binds (trace s') =
    shader_binds (trace s) ++
    pair_binds (take (length rest) (drop i (m_vs s)))
               (take (length rest) (drop i (m_ps s))).
Proof.
  induction rest as [|it rest IH]; simpl; intros i s s' H.
  - injection H as <-. unfold pair_binds. simpl. by rewrite app_nil_r.
  - apply bind_Ok in H as (s1 & H1 & H2).
    rewrite (IH _ _ _ H2).
    rewrite (render_pass_frame m_vs) with (s := s) (s' := s1) (i := i) (it := it) by done.
    rewrite (render_pass_frame m_ps) with (s := s) (s' := s1) (i := i) (it := it) by done.
    apply render_pass_shader_binds in H1 as (v & p & Hv & Hp & _ & _ & ->).
    rewrite (drop_S _ _ _ Hv), (drop_S _ _ _ Hp). simpl.
    unfold pair_binds. simpl. by rewrite <- app_assoc.
Qed.

(** X19. The loop over the snapshot, when it completes on aligned vectors,
    binds the shader objects of the cache pair by pair in the order of the
    vectors: for each index the vertex shader at that index, then the pixel
    shader at that index, and no other shader object. *)
Theorem render_passes_binds_cached_pairs s s' :
  aligned s →
  render_passes (m_items s) 0 s = Ok s' →
  shader_binds (trace s') = shader_binds (trace s) ++ pair_binds (m_vs s) (m_ps s).
Proof.
  intros [Hv Hp] H. rewrite (render_passes_shader_binds _ _ _ _ H).
  rewrite !drop_0, <- Hv at 1. rewrite <- Hp. by rewrite !firstn_all.
Qed.

(** *** Reorders that the reordering pass carries out *)

Lemma move_item_order_spec i j x s s' :
  move_item i j x s = Ok s' → m_items s' = move_item_order i j x (m_items s).
Proof.
  intros H. apply move_item_inv in H as (it & Hit & H).
  unfold move_item_order. rewrite Hit.
  destruct (decide (Data x = Data it)); [| by subst].
  destruct H as (v & p & _ & _ & _ & ->). done.
Qed.

Lemma move_scan_order_spec i rest : ∀ j s s',
  move_scan i rest j s = Ok s' → m_items s' = move_scan_order i rest j (m_items s).
Proof.
  induction rest as [|x rest IH]; simpl; intros j s s' H.
  - by injection H as <-.
  - apply bind_Ok in H as (s1 & H1 & H2).
    rewrite (IH _ _ _ H2). by rewrite (move_item_order_spec _ _ _ _ _ H1).
Qed.

Lemma move_loop_order_spec items fuel : ∀ i s s',
  move_loop items fuel i s = Ok s' → m_items s' = move_loop_order items fuel i (m_items s).
Proof.
  induction fuel as [|fuel IH]; simpl; intros i s s' H.
  - destruct (m_items s !! i); [discriminate | by injection H as <-].
  - destruct (m_items s !! i) as [it|]; [| by injection H as <-].
    apply bind_Ok in H as (x & Hx & H). apply vec_at_Ok in Hx. rewrite Hx.
    apply bind_Ok in H as (s1 & H1 & H2).
    rewrite (IH _ _ _ H2). f_equal.
    destruct (decide (Data x ≠ Data it)).
    + by apply move_scan_order_spec in H1.
    + by injection H1 as <-.
Qed.

Lemma move_scan_order_no_match i rest it : ∀ j l,
  l !! i = Some it → (∀ x, x ∈ rest → Data x ≠ Data it) →
  move_scan_order i rest j l = l.
Proof.
  induction rest as [|x rest IH]; simpl; intros j l Hit Hne; [done |].
  assert (move_item_order i j x l = l) as ->.
  { unfold move_item_order. rewrite Hit. rewrite decide_False; [done |].
    apply Hne. by left. }
  apply IH; [done |]. intros y Hy. apply Hne. by right.
Qed.

Lemma move_scan_order_app i r1 r2 : ∀ j l,
  move_scan_order i (r1 ++ r2) j l =
  move_scan_order i r2 (j + length r1) (move_scan_order i r1 j l).
Proof.
  induction r1 as [|x r1 IH]; simpl; intros j l.
  - by rewrite Nat.add_0_r.
  - rewrite IH. f_equal. lia.
Qed.

Lemma move_loop_order_in_order items fuel : ∀ i l,
  (Data <$> l) = (Data <$> items) → move_loop_order items fuel i l = l.
Proof.
  induction fuel as [|fuel IH]; simpl; intros i l Hsame.
  - by destruct (l !! i).
  - destruct (l !! i) as [it|] eqn:Hit; [| done].
    destruct (items !! i) as [x|] eqn:Hx; [| done].
    assert (Data x = Data it) as Hd.
    { assert ((Data <$> l) !! i = (Data <$> items) !! i) as E by by rewrite Hsame.
      rewrite !list_lookup_fmap, Hit, Hx in E. by injection E. }
    rewrite decide_False by (intros Hc; by apply Hc). by apply IH.
Qed.

Lemma move_loop_order_skip items l n : ∀ k fuel i,
  i + k = n →
  (∀ m, i ≤ m < n → ∃ x it, items !! m = Some x ∧ l !! m = Some it ∧ Data x = Data it) →
  move_loop_order items (k + fuel) i l = move_loop_order items fuel n l.
Proof.
  induction k as [|k IH]; intros fuel i Hk Hsame.
  - simpl. by replace i with n by lia.
  - destruct (Hsame i ltac:(lia)) as (x & it & Hx & Hit & Hd).
    simpl. rewrite Hit, Hx.
    rewrite decide_False by (intros Hc; by apply Hc).
    apply IH; [lia |]. intros m Hm. apply Hsame. lia.
Qed.

Lemma move_loop_order_S items fuel i l it x :
  l !! i = Some it → items !! i = Some x →
  move_loop_order items (S fuel) i l =
  move_loop_order items fuel (S i)
    (if decide (Data x ≠ Data it) then move_scan_order i items 0 l else l).
Proof. intros Hit Hx. simpl. by rewrite Hit, Hx. Qed.

Lemma lookup_second {A} (l1 l2 : list A) a b :
  (l1 ++ a :: b :: l2) !! S (length l1) = Some b.
Proof.
  rewrite (cons_middle a), app_assoc.
  apply list_lookup_middle. rewrite length_app. simpl. lia.
Qed.

Lemma delete_second {A} (l1 l2 : list A) a b :
  delete (S (length l1)) (l1 ++ a :: b :: l2) = l1 ++ a :: l2.
Proof.
  rewrite (cons_middle a), app_assoc.
  replace (S (length l1)) with (length (l1 ++ [a])) by (rewrite length_app; simpl; lia).
  rewrite delete_middle. by rewrite <- app_assoc.
Qed.

Lemma take_second {A} (l1 l2 : list A) a :
  take (S (length l1)) (l1 ++ a :: l2) = l1 ++ [a].
Proof.
  rewrite (cons_middle a), app_assoc.
  apply take_app_length'. rewrite length_app. simpl. lia.
Qed.

Lemma drop_second {A} (l1 l2 : list A) a :
  drop (S (length l1)) (l1 ++ a :: l2) = l2.
Proof.
  rewrite (cons_middle a), app_assoc.
  apply drop_app_length'. rewrite length_app. simpl. lia.
Qed.

Lemma move_loop_order_adjacent_swap l1 a b l2 :
  NoDup (Data <$> l1 ++ a :: b :: l2) →
  move_loop_order (l1 ++ b :: a :: l2) (length (l1 ++ a :: b :: l2)) 0 (l1 ++ a :: b :: l2) =
  l1 ++ b :: a :: l2.
Proof.
  intros Hnd. rewrite fmap_app in Hnd. simpl in Hnd.
  apply NoDup_app in Hnd as (_ & Hl1 & Hnd).
  apply NoDup_cons in Hnd as (Ha & Hnd). apply NoDup_cons in Hnd as (Hb & _).
  assert (Data a ≠ Data b) as Hab by (intros E; apply Ha; rewrite E; by left).
  assert (∀ x, x ∈ l1 → Data x ≠ Data a) as Ha1.
  { intros x Hx E. apply (Hl1 (Data x)); [by apply list_elem_of_fmap_2 |].
    rewrite E. by left. }
  assert (∀ x, x ∈ l1 → Data x ≠ Data b) as Hb1.
  { intros x Hx E. apply (Hl1 (Data x)); [by apply list_elem_of_fmap_2 |].
    rewrite E. right. by left. }
  assert (∀ x, x ∈ l2 → Data x ≠ Data a) as Ha2.
  { intros x Hx E. apply Ha. right. rewrite <- E. by apply list_elem_of_fmap_2. }
  assert (∀ x, x ∈ l2 → Data x ≠ Data b) as Hb2.
  { intros x Hx E. apply Hb. rewrite <- E. by apply list_elem_of_fmap_2. }
  set (l := l1 ++ a :: b :: l2). set (items := l1 ++ b :: a :: l2).
  assert (l !! length l1 = Some a) as La by by apply list_lookup_middle.
  assert (l !! S (length l1) = Some b) as Lb by apply lookup_second.
  assert (items !! length l1 = Some b) as Ib by by apply list_lookup_middle.
  assert (items !! S (length l1) = Some a) as Ia by apply lookup_second.
  replace (length l) with (length l1 + S (S (length l2)))
    by (unfold l; rewrite length_app; simpl; lia).
  rewrite (move_loop_order_skip items l (length l1) (length l1) (S (S (length l2))) 0);
    [| lia |].
  2: { intros m Hm. assert (m < length l1) as Hm' by lia.
       destruct (lookup_lt_is_Some_2 l1 m Hm') as [x Hx].
       exists x, x. unfold items, l. rewrite !lookup_app_l by lia. done. }
  rewrite (move_loop_order_S _ _ _ _ _ _ La Ib).
  rewrite decide_True by congruence.
  assert (move_scan_order (length l1) items 0 l = l) as ->.
  { unfold items. rewrite move_scan_order_app.
    rewrite (move_scan_order_no_match _ _ a 0 l La Ha1). simpl.
    unfold move_item_order at 2. rewrite La.
    rewrite decide_False by congruence.
    unfold move_item_order at 1. rewrite La.
    rewrite decide_True by done. rewrite decide_True by lia.
    replace (S (length l1) - 1) with (length l1) by lia.
    unfold l at 1 2. rewrite delete_middle, take_app_length, drop_app_length.
    fold l. by apply (move_scan_order_no_match _ _ a). }
  rewrite (move_loop_order_S _ _ _ _ _ _ Lb Ia).
  rewrite decide_True by done.
  assert (move_scan_order (S (length l1)) items 0 l = items) as ->.
  { unfold items at 1. rewrite move_scan_order_app.
    rewrite (move_scan_order_no_match _ _ b 0 l Lb Hb1). simpl.
    unfold move_item_order at 2. rewrite Lb.
    rewrite decide_True by done. rewrite decide_False by lia.
    unfold l. rewrite delete_second, take_app_length, drop_app_length.
    fold items.
    unfold move_item_order. rewrite Ia.
    rewrite decide_True by done. rewrite decide_False by lia.
    unfold items at 1 2. rewrite delete_second, take_second, drop_second.
    rewrite <- app_assoc. simpl. fold items.
    by apply (move_scan_order_no_match _ _ a). }
  by apply move_loop_order_in_order.
Qed.

(** X20. Two neighbours of the external list changed places (distinct
    identities, aligned vectors, nothing added or removed): the full scan
    completes, the snapshot is in the new external order, and the entries
    were only relocated, each identity with the two shader objects it had;
    no shader object is created, destroyed or loaded. *)
Theorem full_scan_adjacent_swap l1 a b l2 s :
  aligned s → NoDup (Data <$> m_items s) →
  m_items s = l1 ++ a :: b :: l2 →
  ∃ s', full_scan (l1 ++ b :: a :: l2) s = Ok s' ∧
    m_items s' = l1 ++ b :: a :: l2 ∧ aligned s' ∧ relocation s s'.
Proof.
  intros Hal Hnd Hl.
  assert ((Data <$> l1 ++ b :: a :: l2) ≡ₚ (Data <$> m_items s)) as Hperm.
  { rewrite Hl, !fmap_app. simpl. apply Permutation_app_head, Permutation_swap. }
  assert (length (l1 ++ b :: a :: l2) = length (m_items s)) as Hlen.
  { rewrite Hl, !length_app. done. }
  unfold full_scan.
  rewrite insert_loop_found.
  2: { intros it Hit. rewrite <- Hperm. by apply list_elem_of_fmap_2. }
  change (Ok s ≫= _) with
    (remove_loop (l1 ++ b :: a :: l2) (length (m_items s)) 0 s ≫=
     (λ s1, move_loop (l1 ++ b :: a :: l2) (length (m_items s1)) 0 s1)).
  rewrite remove_loop_found; [| | lia].
  2: { intros it Hit. rewrite Hperm. by apply list_elem_of_fmap_2. }
  change (Ok s ≫= _) with (move_loop (l1 ++ b :: a :: l2) (length (m_items s)) 0 s).
  destruct (move_loop_completes (l1 ++ b :: a :: l2) (length (m_items s)) 0 s)
    as [s' H]; [done | done | lia |].
  exists s'. split; [done |].
  pose proof (move_loop_order_spec _ _ _ _ _ H) as Hord.
  apply move_loop_relocates in H as [Hal' R]; [| done].
  split; [| done].
  rewrite Hord, Hl. apply move_loop_order_adjacent_swap. by rewrite <- Hl.
Qed.

(** *** What a full scan does *)

Lemma inserted_lookup_gt {A} pos (x : A) v k :
  pos ≤ k → pos ≤ length v → (take pos v ++ x :: drop pos v) !! S k = v !! k.
Proof.
  intros Hk Hpos. rewrite lookup_app_r by (rewrite length_take; lia).
  rewrite length_take. replace (S k - pos `min` length v) with (S (k - pos)) by lia.
  simpl. rewrite lookup_drop. f_equal. lia.
Qed.

Lemma inserted_identities i x (l : list PipelineItem) d :
  d ∈ (Data <$> take i l ++ x :: drop i l) ↔ d = Data x ∨ d ∈ (Data <$> l).
Proof.
  rewrite <- (take_drop i l) at 3. rewrite !fmap_app, fmap_cons.
  rewrite !elem_of_app, elem_of_cons.
  split; (intros [?|[?|?]]; [right; by left | by left | right; by right]).
Qed.

(** The insertion pass keeps the identities of the snapshot and ends with
    every external identity in the snapshot. *)
Lemma insert_loop_keeps rest : ∀ i s s' d,
  insert_loop rest i s = Ok s' → d ∈ (Data <$> m_items s) → d ∈ (Data <$> m_items s').
Proof.
  induction rest as [|item rest IH]; simpl; intros i s s' d H Hd.
  - by injection H as <-.
  - apply bind_Ok in H as (s1 & H1 & H2).
    eapply IH; [exact H2 |].
    destruct (found (Data item) (m_items s)); [by injection H1 as <- |].
    apply cache_item_inv in H1 as (data & _ & _ & _ & _ & ->). simpl.
    apply inserted_identities. by right.
Qed.

Lemma insert_loop_caches_all rest : ∀ i s s' it,
  insert_loop rest i s = Ok s' → it ∈ rest → Data it ∈ (Data <$> m_items s').
Proof.
  induction rest as [|item rest IH]; simpl; intros i s s' it H Hit.
  - inversion Hit.
  - apply bind_Ok in H as (s1 & H1 & H2).
    apply elem_of_cons in Hit as [->|Hit]; [| by eapply IH].
    eapply insert_loop_keeps; [exact H2 |].
    destruct (found (Data item) (m_items s)) eqn:Hf.
    + injection H1 as <-. by apply found_spec.
    + apply cache_item_inv in H1 as (data & _ & _ & _ & _ & ->). simpl.
      apply inserted_identities. by left.
Qed.

(** The calls of the insertion pass: both stages of every new identity are
    loaded into objects that did not exist. *)
Lemma insert_loop_compiles rest : ∀ i s s',
  insert_loop rest i s = Ok s' →
  ∃ t, trace s' = trace s ++ t ∧ heap s ⊆ heap s' ∧
    ∀ d, d ∈ (Data <$> rest) → d ∉ (Data <$> m_items s) →
      ∃ data v p, mem d = Some (PShaderPass data) ∧
        heap s !! v = None ∧ heap s !! p = None ∧
        LoadFromMemoryCall VS v (LoadProjectFile (VSPath data)) (VSEntry data) ∈ t ∧
        LoadFromMemoryCall PS p (LoadProjectFile (PSPath data)) (PSEntry data) ∈ t.
Proof.
  induction rest as [|item rest IH]; simpl; intros i s s' H.
  - injection H as <-. exists []. rewrite app_nil_r.
    split; [done |]. split; [done |]. intros d Hd. inversion Hd.
  - apply bind_Ok in H as (s1 & H1 & H2).
    destruct (IH _ _ _ H2) as (t' & Ht' & Hh' & Hnew).
    destruct (found (Data item) (m_items s)) eqn:Hf.
    + injection H1 as <-. exists t'. split; [done |]. split; [done |].
      intros d Hd Hnot. apply Hnew; [| done].
      apply elem_of_cons in Hd as [->|Hd]; [| done].
      exfalso. apply Hnot. by apply found_spec.
    + apply cache_item_inv in H1 as (data & Hmem & _ & _ & _ & ->).
      pose proof (cached_heap_subseteq i item data s) as Hsub.
      eexists. split; [rewrite Ht'; simpl; rewrite <- app_assoc; reflexivity |].
      split; [by etrans |].
      intros d Hd Hnot. destruct (decide (d = Data item)) as [->|Hne].
      * exists data, (fresh (dom (heap s))),
          (fresh (dom (<[fresh (dom (heap s)) := mkShader None None]> (heap s)))).
        split; [done |]. split; [apply fresh_not_alive |]. split.
        { pose proof (fresh_not_alive (<[fresh (dom (heap s)) := mkShader None None]> (heap s)))
            as Hp.
          rewrite lookup_insert_ne in Hp by apply fresh_pair_ne. done. }
        split; apply elem_of_app; left;
          repeat (first [by left | right]).
      * apply elem_of_cons in Hd as [->|Hd]; [done |].
        destruct (Hnew d Hd) as (data' & v & p & Hm & Hv & Hp & Cv & Cp).
        { simpl. rewrite inserted_identities. by intros [?|?]. }
        exists data', v, p. split; [done |].
        split; [by eapply lookup_weaken_None |].
        split; [by eapply lookup_weaken_None |].
        split; apply elem_of_app; by right.
Qed.

Lemma remove_loop_trace items fuel : ∀ i s s',
  remove_loop items fuel i s = Ok s' → ∃ t, trace s' = trace s ++ t.
Proof.
  induction fuel as [|fuel IH]; simpl; intros i s s' H;
    (destruct (m_items s !! i) as [it|];
     [| injection H as <-; exists []; by rewrite app_nil_r]); [discriminate |].
  apply bind_Ok in H as (s1 & H1 & H2).
  destruct (IH _ _ _ H2) as (t & Ht).
  destruct (found (Data it) items).
  - injection H1 as <-. by exists t.
  - apply uncache_item_inv in H1 as (v & p & _ & _ & _ & _ & _ & _ & ->).
    simpl in Ht. eexists. rewrite Ht, <- app_assoc. reflexivity.
Qed.

(** The reordering pass makes no call and keeps the identities of the
    snapshot, however the vectors are. *)
Lemma move_item_quiet i j x s s' :
  move_item i j x s = Ok s' →
  trace s' = trace s ∧ (Data <$> m_items s') ≡ₚ (Data <$> m_items s).
Proof.
  intros H. apply move_item_inv in H as (it & Hit & H).
  destruct (decide (Data x = Data it)) as [E|]; [| by subst].
  destruct H as (v & p & _ & _ & _ & ->). simpl. split; [done |].
  rewrite fmap_app, fmap_cons, fmap_take, fmap_drop, list_fmap_delete, E.
  apply moved_Permutation. by rewrite list_lookup_fmap, Hit.
Qed.

Lemma move_scan_quiet i rest : ∀ j s s',
  move_scan i rest j s = Ok s' →
  trace s' = trace s ∧ (Data <$> m_items s') ≡ₚ (Data <$> m_items s).
Proof.
  induction rest as [|x rest IH]; simpl; intros j s s' H.
  - by injection H as <-.
  - apply bind_Ok in H as (s1 & H1 & H2).
    apply move_item_quiet in H1 as [T1 P1]. apply IH in H2 as [T2 P2].
    split; [congruence | by etrans].
Qed.

Lemma move_loop_quiet items fuel : ∀ i s s',
  move_loop items fuel i s = Ok s' →
  trace s' = trace s ∧ (Data <$> m_items s') ≡ₚ (Data <$> m_items s).
Proof.
  induction fuel as [|fuel IH]; simpl; intros i s s' H;
    (destruct (m_items s !! i) as [it|]; [| by injection H as <-]); [discriminate |].
  apply bind_Ok in H as (x & _ & H).
  apply bind_Ok in H as (s1 & H1 & H2).
  apply IH in H2 as [T2 P2].
  destruct (decide (Data x ≠ Data it)).
  - apply move_scan_quiet in H1 as [T1 P1]. split; [congruence | by etrans].
  - by injection H1 as <-.
Qed.

(** What a completed full scan has done, whatever the cache was: every
    external identity is in the snapshot, and both stages of every new one
    were loaded, by calls made during the scan, into objects that did not
    exist. *)
Lemma full_scan_effects items s s' :
  full_scan items s = Ok s' →
  (∀ it, it ∈ items → Data it ∈ (Data <$> m_items s')) ∧
  ∃ t, trace s' = trace s ++ t ∧
    ∀ it, it ∈ items → Data it ∉ (Data <$> m_items s) →
      ∃ data v p, mem (Data it) = Some (PShaderPass data) ∧
        heap s !! v = None ∧ heap s !! p = None ∧
        LoadFromMemoryCall VS v (LoadProjectFile (VSPath data)) (VSEntry data) ∈ t ∧
        LoadFromMemoryCall PS p (LoadProjectFile (PSPath data)) (PSEntry data) ∈ t.
Proof.
  unfold full_scan. intros H.
  apply bind_Ok in H as (s1 & H1 & H).
  apply bind_Ok in H as (s2 & H2 & H3).
  split.
  - intros it Hit.
    apply move_loop_quiet in H3 as [_ P]. rewrite P.
    eapply remove_loop_keeps_found; [by apply list_elem_of_fmap_2 | | exact H2].
    by eapply insert_loop_caches_all.
  - destruct (insert_loop_compiles _ _ _ _ H1) as (t1 & T1 & _ & Hnew).
    destruct (remove_loop_trace _ _ _ _ _ H2) as (t2 & T2).
    apply move_loop_quiet in H3 as [T3 _].
    exists (t1 ++ t2). split; [by rewrite T3, T2, T1, app_assoc |].
    intros it Hit Hnot.
    destruct (Hnew (Data it)) as (data & v & p & Hm & Hv & Hp & Cv & Cp);
      [by apply list_elem_of_fmap_2 | done |].
    exists data, v, p. repeat (split; [done |]).
    split; apply elem_of_app; by left.
Qed.

(** The full scan with nothing to do. *)
Lemma full_scan_in_step items s :
  (Data <$> m_items s) = (Data <$> items) → full_scan items s = Ok s.
Proof.
  intros Hsame. unfold full_scan.
  rewrite insert_loop_found.
  2:{ intros it Hit. rewrite Hsame. by apply list_elem_of_fmap_2. }
  simpl. rewrite remove_loop_found; [| | lia].
  2:{ intros it Hit. rewrite <- Hsame. by apply list_elem_of_fmap_2. }
  simpl. apply move_loop_in_order; [done | lia].
Qed.

(** The full scan when one pass was replaced by a new one at its place:
    the new pass is cached at that index, then the old entry, which the
    insertion moved one place up, is destroyed. *)
Lemma full_scan_replace_one l1 a l2 x data v p s :
  aligned s → cache_owned s → NoDup (Data <$> m_items s) →
  m_items s = l1 ++ a :: l2 →
  Data x ∉ (Data <$> m_items s) →
  mem (Data x) = Some (PShaderPass data) →
  m_vs s !! length l1 = Some v → m_ps s !! length l1 = Some p →
  full_scan (l1 ++ x :: l2) s =
  Ok (uncached (S (length l1)) v p (cached (length l1) x data s)).
Proof.
  intros [Lv Lp] Hown Hnd Hl Hnew Hmem Hv Hp.
  assert (length l1 < length (m_items s)) as Hn
    by (rewrite Hl, length_app; simpl; lia).
  assert (Data a ∉ (Data <$> l1 ++ x :: l2)) as Hstale.
  { rewrite Hl, fmap_app, fmap_cons in Hnd, Hnew.
    apply NoDup_app in Hnd as (_ & Hd1 & Hd2). apply NoDup_cons in Hd2 as [Hd2 _].
    rewrite fmap_app, fmap_cons. intros Hin.
    apply elem_of_app in Hin as [Hin|Hin].
    - apply (Hd1 _ Hin). by left.
    - apply elem_of_cons in Hin as [E|Hin]; [| done].
      apply Hnew. rewrite <- E. apply elem_of_app. right. by left. }
  set (s1 := cached (length l1) x data s).
  assert (m_items s1 = l1 ++ x :: a :: l2) as Hl1.
  { unfold s1. simpl. by rewrite Hl, take_app_length, drop_app_length. }
  unfold full_scan.
  assert (insert_loop (l1 ++ x :: l2) 0 s = Ok s1) as ->.
  { rewrite insert_loop_app. rewrite insert_loop_found.
    2:{ intros it Hit. rewrite Hl, fmap_app. apply elem_of_app. left.
        by apply list_elem_of_fmap_2. }
    simpl. rewrite (proj2 (found_false (Data x) (m_items s))) by done.
    rewrite (cache_item_Ok _ _ data) by (done || lia). simpl. fold s1.
    apply insert_loop_found. intros it Hit. rewrite Hl1, fmap_app, !fmap_cons.
    apply elem_of_app. right. right. right. by apply list_elem_of_fmap_2. }
  change (Ok s1 ≫= _) with
    (remove_loop (l1 ++ x :: l2) (length (m_items s1)) 0 s1 ≫=
     (λ s2, move_loop (l1 ++ x :: l2) (length (m_items s2)) 0 s2)).
  assert (m_items s1 !! S (length l1) = Some a) as Ha.
  { rewrite Hl1. rewrite (cons_middle x), app_assoc.
    apply list_lookup_middle. rewrite length_app. simpl. lia. }
  rewrite (remove_loop_one _ (S (length l1)) a
             (uncached (S (length l1)) v p s1) _ 0 s1); [| done | done | | | lia | lia].
  - change (Ok ?w ≫= _) with (move_loop (l1 ++ x :: l2) (length (m_items w)) 0 w).
    apply move_loop_in_order; [| lia].
    simpl. rewrite Hl, take_app_length, drop_app_length.
    by rewrite delete_second.
  - intros j it Hj Hit. rewrite Hl1 in Hit.
    apply list_elem_of_fmap_2.
    assert (it ∈ l1 ++ x :: a :: l2) as Hin by by eapply list_elem_of_lookup_2.
    rewrite elem_of_app, !elem_of_cons in Hin. rewrite elem_of_app, elem_of_cons.
    destruct Hin as [?|[?|[->|?]]]; [by left | right; by left | | right; by right].
    exfalso. apply Hj.
    assert (NoDup (l1 ++ x :: a :: l2)) as Hnd1.
    { apply (NoDup_fmap_1 Data). rewrite <- Hl1. unfold s1.
      apply cached_inv; [lia | lia | lia | done | done]. }
    eapply NoDup_lookup; [exact Hnd1 | exact Hit |]. by rewrite <- Hl1.
  - apply uncache_item_Ok.
    + unfold s1. split; simpl; rewrite !inserted_length; lia.
    + apply cached_owned; [lia | lia | done].
    + unfold s1. simpl. rewrite inserted_lookup_gt by lia. done.
    + unfold s1. simpl. rewrite inserted_lookup_gt by lia. done.
Qed.

(** The reordering pass when two neighbours changed places. *)
Lemma move_loop_adjacent_swap l1 a b l2 s :
  aligned s → NoDup (Data <$> m_items s) →
  m_items s = l1 ++ a :: b :: l2 →
  ∃ s', move_loop (l1 ++ b :: a :: l2) (length (m_items s)) 0 s = Ok s' ∧
    m_items s' = l1 ++ b :: a :: l2 ∧ aligned s' ∧ relocation s s'.
Proof.
  intros Hal Hnd Hl.
  destruct (move_loop_completes (l1 ++ b :: a :: l2) (length (m_items s)) 0 s)
    as [s' H]; [done | by rewrite Hl, !length_app | lia |].
  exists s'. split; [done |].
  pose proof (move_loop_order_spec _ _ _ _ _ H) as Hord.
  apply move_loop_relocates in H as [Hal' R]; [| done].
  split; [| done].
  rewrite Hord, Hl. apply move_loop_order_adjacent_swap. by rewrite <- Hl.
Qed.

(** *** The throttle and the scan behind it *)

(** C4. When the external list is as long as the snapshot and at most 0.5
    has elapsed on the timer, 0.5 itself included, [m_cache] returns the world
    as it was: no cache vector, shader object or message changes and no call
    is made. Once more than 0.5 has elapsed the timer is restarted and the
    full scan runs: the insertion, the removal and the reordering pass, in
    this order, over the external list. With the snapshot in step only the
    timer changes; a pass replaced by a new one at its place is cached there
    and the old entry is destroyed; two neighbours that changed places are
    exchanged; and whenever the scan completes, every external identity is
    in the snapshot and both stages of every new one were loaded, by calls
    made during the scan, into objects that did not exist. *)
Theorem m_cache_throttle items now s :
  length (m_items s) = length items →
  ((now - m_cacheTimer s <= 1 # 2)%Q → m_cache items now s = Ok s) ∧
  ((1 # 2 < now - m_cacheTimer s)%Q →
     m_cache items now s =
       (s1 ← insert_loop items 0 (set_cacheTimer now s);
        s2 ← remove_loop items (length (m_items s1)) 0 s1;
        move_loop items (length (m_items s2)) 0 s2) ∧
     ((Data <$> m_items s) = (Data <$> items) →
        m_cache items now s = Ok (set_cacheTimer now s)) ∧
     (∀ l1 a l2 x data v p,
        aligned s → cache_owned s → NoDup (Data <$> m_items s) →
        m_items s = l1 ++ a :: l2 → items = l1 ++ x :: l2 →
        Data x ∉ (Data <$> m_items s) → mem (Data x) = Some (PShaderPass data) →
        m_vs s !! length l1 = Some v → m_ps s !! length l1 = Some p →
        m_cache items now s =
        Ok (uncached (S (length l1)) v p
              (cached (length l1) x data (set_cacheTimer now s)))) ∧
     (∀ l1 a b l2,
        aligned s → NoDup (Data <$> m_items s) →
        m_items s = l1 ++ a :: b :: l2 → items = l1 ++ b :: a :: l2 →
        ∃ s', m_cache items now s = Ok s' ∧ m_items s' = items ∧ aligned s' ∧
          relocation (set_cacheTimer now s) s') ∧
     ∀ s', m_cache items now s = Ok s' →
       m_cacheTimer s' = now ∧
       (∀ it, it ∈ items → Data it ∈ (Data <$> m_items s')) ∧
       ∃ t, trace s' = trace s ++ t ∧
         ∀ it, it ∈ items → Data it ∉ (Data <$> m_items s) →
           ∃ data v p, mem (Data it) = Some (PShaderPass data) ∧
             heap s !! v = None ∧ heap s !! p = None ∧
             LoadFromMemoryCall VS v (LoadProjectFile (VSPath data)) (VSEntry data) ∈ t ∧
             LoadFromMemoryCall PS p (LoadProjectFile (PSPath data)) (PSEntry data) ∈ t).
Proof.
  intros Hlen. split; [by apply m_cache_skips |]. intros Hlt.
  assert (m_cache items now s = full_scan items (set_cacheTimer now s)) as Hm.
  { unfold m_cache. rewrite decide_True by done.
    destruct (Qlt_le_dec (1 # 2) (now - m_cacheTimer s)) as [_|Hle]; [done |].
    exfalso. apply (Qlt_irrefl (1 # 2)). eapply Qlt_le_trans; eassumption. }
  rewrite Hm. split; [done |]. split; [| split; [| split]].
  - intros Hsame. by apply full_scan_in_step.
  - intros l1 a l2 x data v p Hal Hown Hnd Hl -> Hnew Hmem Hv Hp.
    by apply (full_scan_replace_one l1 a l2 x data v p (set_cacheTimer now s)).
  - intros l1 a b l2 Hal Hnd Hl ->.
    assert ((Data <$> l1 ++ b :: a :: l2) ≡ₚ (Data <$> m_items s)) as Hperm.
    { rewrite Hl, !fmap_app. simpl. apply Permutation_app_head, Permutation_swap. }
    unfold full_scan.
    rewrite insert_loop_found.
    2:{ intros it Hit. simpl. rewrite <- Hperm. by apply list_elem_of_fmap_2. }
    change (Ok ?w ≫= _) with
      (remove_loop (l1 ++ b :: a :: l2) (length (m_items w)) 0 w ≫=
       (λ s1, move_loop (l1 ++ b :: a :: l2) (length (m_items s1)) 0 s1)).
    rewrite remove_loop_found; [| | lia].
    2:{ intros it Hit. rewrite Hperm. by apply list_elem_of_fmap_2. }
    by apply (move_loop_adjacent_swap l1 a b l2 (set_cacheTimer now s)).
  - intros s' H. split; [by apply (full_scan_frame m_cacheTimer) in H |].
    by apply full_scan_effects in H.
Qed.

End RenderEngine.

(** ** The theorems at the sample project *)

Lemma demo_owned : cache_owned (demo_world [demo_A; demo_B]).
Proof.
  split; simpl.
  - apply (bool_decide_unpack _). by vm_compute.
  - intros a Ha.
    repeat (apply elem_of_cons in Ha as [->|Ha]; [by vm_compute; eauto |]).
    inversion Ha.
Qed.

Lemma demo_passes name :
  ∀ it, it ∈ m_items (demo_world [demo_A; demo_B]) → Name it = name →
    ∃ data, demo_mem (Data it) = Some (PShaderPass data).
Proof.
  intros it Hit _. simpl in Hit.
  repeat (apply elem_of_cons in Hit as [->|Hit]; [vm_compute; eauto |]).
  inversion Hit.
Qed.

(** One new pass [X] between [A] and [B]: one new entry at index 1. *)
Lemma m_cache_inserts_witness :
  ∃ v p s',
    m_cache demo_mem demo_files demo_compile [demo_A; demo_X; demo_B] 0
      (demo_world [demo_A; demo_B]) = Ok s' ∧
    m_items s' = [demo_A; demo_X; demo_B] ∧
    m_vs s' = [101; v; 102] ∧ m_ps s' = [201; p; 202] ∧
    heap (demo_world [demo_A; demo_B]) !! v = None ∧
    heap (demo_world [demo_A; demo_B]) !! p = None.
Proof.
  destruct (proj2 (m_cache_inserts demo_mem demo_files demo_compile)
              [demo_A] demo_X [demo_B] (demo_pass "broken.ps") 0%Q
              (demo_world [demo_A; demo_B]))
    as (v & p & s' & Hrun & Hv & Hp & Hits & Hvs & Hps & _).
  - reflexivity.
  - reflexivity.
  - reflexivity.
  - apply (bool_decide_unpack _). by vm_compute.
  - reflexivity.
  - exists v, p, s'. repeat split; assumption.
Defined.

Lemma m_cache_throttle_witness :
  m_cache demo_mem demo_files demo_compile [demo_A; demo_X] (1 # 2)
    (demo_world [demo_A; demo_B]) = Ok (demo_world [demo_A; demo_B]) ∧
  m_cache demo_mem demo_files demo_compile [demo_A; demo_X] 1
    (demo_world [demo_A; demo_B]) =
  Ok (uncached 2 102 202
        (cached demo_files demo_compile 1 demo_X (demo_pass "broken.ps")
           (set_cacheTimer 1 (demo_world [demo_A; demo_B])))).
Proof.
  split.
  - apply (proj1 (m_cache_throttle demo_mem demo_files demo_compile [demo_A; demo_X]
                    (1 # 2) (demo_world [demo_A; demo_B]) eq_refl)).
    by vm_compute.
  - destruct (proj2 (m_cache_throttle demo_mem demo_files demo_compile [demo_A; demo_X]
                       1%Q (demo_world [demo_A; demo_B]) eq_refl))
      as (_ & _ & Hreplace & _); [by vm_compute |].
    apply (Hreplace [demo_A] demo_B [] demo_X (demo_pass "broken.ps") 102 202).
    + split; reflexivity.
    + exact demo_owned.
    + apply (bool_decide_unpack _). by vm_compute.
    + reflexivity.
    + reflexivity.
    + apply (bool_decide_unpack _). by vm_compute.
    + reflexivity.
    + reflexivity.
    + reflexivity.
Defined.

(** C4, at the threshold. Exactly 0.5 has elapsed and the external list,
    as long as the snapshot, has [X] where the snapshot has [B]: the
    reconciler returns the world as it was, with the timer where it stood,
    although the full scan would have restarted the timer and put [X] into
    the snapshot. *)
Lemma threshold_reached_without_scan :
  length (m_items (demo_world [demo_A; demo_B])) = length [demo_A; demo_X] ∧
  ((1 # 2) - m_cacheTimer (demo_world [demo_A; demo_B]) == 1 # 2)%Q ∧
  m_cache demo_mem demo_files demo_compile [demo_A; demo_X] (1 # 2)
    (demo_world [demo_A; demo_B]) = Ok (demo_world [demo_A; demo_B]) ∧
  m_cacheTimer (demo_world [demo_A; demo_B]) = 0%Q ∧
  m_items (demo_world [demo_A; demo_B]) = [demo_A; demo_B] ∧
  ∃ s', full_scan demo_mem demo_files demo_compile [demo_A; demo_X]
          (set_cacheTimer (1 # 2) (demo_world [demo_A; demo_B])) = Ok s' ∧
    m_cacheTimer s' = (1 # 2)%Q ∧ m_items s' = [demo_A; demo_X].
Proof.
  split; [reflexivity |]. split; [reflexivity |].
  split; [by vm_compute |]. split; [reflexivity |]. split; [reflexivity |].
  destruct (full_scan demo_mem demo_files demo_compile [demo_A; demo_X]
              (set_cacheTimer (1 # 2) (demo_world [demo_A; demo_B]))) as [s'| |] eqn:H.
  - exists s'. split; [reflexivity |].
    vm_compute in H. injection H as <-. split; reflexivity.
  - exfalso. vm_compute in H. discriminate H.
  - exfalso. vm_compute in H. discriminate H.
Qed.

Lemma Recompile_spec_witness :
  ∃ s', Recompile demo_mem demo_files demo_compile "A" (demo_world [demo_A; demo_B]) = Ok s' ∧
    m_items s' = [demo_A; demo_B] ∧ m_vs s' = [101; 102] ∧ m_ps s' = [201; 202] ∧
    heap s' !! 102 = heap (demo_world [demo_A; demo_B]) !! 102 ∧
    heap s' !! 202 = heap (demo_world [demo_A; demo_B]) !! 202.
Proof.
  destruct (Recompile_spec demo_mem demo_files demo_compile "A"
              (demo_world [demo_A; demo_B]) eq_refl eq_refl demo_owned (demo_passes "A"))
    as (s' & Hrun & Hits & Hvs & Hps & Hent).
  destruct (Hent 1 demo_B 102 202 eq_refl eq_refl eq_refl) as [_ Hother].
  destruct Hother as (Hv & Hp & _); [discriminate |].
  exists s'. repeat split; assumption.
Defined.


Lemma Render_recreates_only_on_resize_witness :
  ∃ s1, Render demo_mem demo_files demo_compile 2 [demo_A; demo_B] 0 800 600
          (demo_world [demo_A; demo_B]) = Ok s1 ∧
    ∀ s2, Render demo_mem demo_files demo_compile 2 [demo_A; demo_B] (1 # 10) 800 600 s1 = Ok s2 →
      rt_creations (trace s2) = rt_creations (trace s1) ∧ m_lastSize s2 = m_lastSize s1.
Proof.
  destruct (Render demo_mem demo_files demo_compile 2 [demo_A; demo_B] 0 800 600
              (demo_world [demo_A; demo_B])) as [s1| |] eqn:H.
  - exists s1. split; [reflexivity |]. intros s2 H2.
    exact (proj1 (Render_recreates_only_on_resize demo_mem demo_files demo_compile 2
                    _ _ _ _ _ _ H) _ _ _ H2).
  - exfalso. vm_compute in H. discriminate H.
  - exfalso. vm_compute in H. discriminate H.
Defined.

Lemma cache_inv_preserved_witness :
  ∃ s', Render demo_mem demo_files demo_compile 2 [demo_B; demo_X] 1 640 480
          (demo_world [demo_A; demo_B]) = Ok s' ∧ cache_inv s'.
Proof.
  destruct (Render demo_mem demo_files demo_compile 2 [demo_B; demo_X] 1 640 480
              (demo_world [demo_A; demo_B])) as [s'| |] eqn:H.
  - exists s'. split; [reflexivity |].
    apply (proj1 (proj2 (cache_inv_preserved demo_mem demo_files demo_compile 2))
             _ _ _ _ _ _) with (2 := H).
    repeat split. apply (bool_decide_unpack _). by vm_compute.
  - exfalso. vm_compute in H. discriminate H.
  - exfalso. vm_compute in H. discriminate H.
Defined.

Lemma FlushCache_spec_witness :
  ∃ s', FlushCache (demo_world [demo_A; demo_B]) = Ok s' ∧
    m_items s' = [] ∧ m_vs s' = [] ∧ m_ps s' = [] ∧ heap s' !! 101 = None ∧
    FlushCache s' = Ok s'.
Proof.
  destruct (proj1 (FlushCache_spec (demo_world [demo_A; demo_B]) demo_owned))
    as (s' & Hrun & Hits & Hvs & Hps & Hdead & _ & _ & Hagain).
  exists s'. repeat split; try assumption.
  apply Hdead. simpl. left.
Defined.

Lemma render_item_skips_witness :
  render_items demo_mem 1 demo_children (demo_world [demo_A]) =
  render_items demo_mem 1 [mkItem "Box" Geometry 50; mkItem "Blend" BlendState 51]
    (demo_world [demo_A]).
Proof.
  apply (proj2 (render_item_skips demo_mem 1 (mkItem "Nested" ShaderPass 1)
                  (demo_world [demo_A]) ltac:(discriminate) ltac:(discriminate)
                  ltac:(discriminate))
           [mkItem "Box" Geometry 50] [mkItem "Blend" BlendState 51]).
Defined.

(** ** Where the reconciler falls short *)

(** C2. Both passes of the snapshot were removed from the external list.
    The removal pass erases [A], steps to index 1 and stops: [B], which moved
    to index 0, is never looked at and stays in the snapshot with its shader
    objects alive. The reordering pass then reads index 0 of the empty external
    list. *)
Theorem remove_loop_skips_adjacent :
  ∃ s', remove_loop [] 2 0 (demo_world [demo_A; demo_B]) = Ok s' ∧
    m_items s' = [demo_B] ∧ m_vs s' = [102] ∧ m_ps s' = [202] ∧
    heap s' !! 102 = Some (demo_shader (Some 2)) ∧
    heap s' !! 202 = Some (demo_shader None) ∧
    trace s' = [Delete 101; Delete 201] ∧
    full_scan demo_mem demo_files demo_compile [] (demo_world [demo_A; demo_B]) = Undefined.
Proof.
  eexists. split; [by vm_compute |]. repeat split; by vm_compute.
Qed.

(** C3. The external list is the snapshot [A; B; C; D] reversed. After the
    full scan the snapshot is [D; B; C; A]: [B] and [C] are not where the
    external list has them. No shader object was created, destroyed or
    loaded. *)
Theorem reversal_not_reached :
  ∃ s', m_cache demo_mem demo_files demo_compile [demo_D; demo_C; demo_B; demo_A] 1
          (demo_world [demo_A; demo_B; demo_C; demo_D]) = Ok s' ∧
    m_items s' = [demo_D; demo_B; demo_C; demo_A] ∧
    m_vs s' = [104; 102; 103; 101] ∧ m_ps s' = [204; 202; 203; 201] ∧
    heap s' = heap (demo_world [demo_A; demo_B; demo_C; demo_D]) ∧
    trace s' = [].
Proof.
  eexists. split; [by vm_compute |]. repeat split; by vm_compute.
Qed.

(** ** The further properties at the sample project *)

Lemma demo_owned3 : cache_owned (demo_world [demo_A; demo_B; demo_C]).
Proof.
  split; simpl.
  - apply (bool_decide_unpack _). by vm_compute.
  - intros a Ha.
    repeat (apply elem_of_cons in Ha as [->|Ha]; [by vm_compute; eauto |]).
    inversion Ha.
Qed.

Lemma render_items_calls_per_child_witness :
  ∃ s', render_items demo_mem 1 demo_children (demo_world [demo_A]) = Ok s' ∧
    count_calls is_Draw (trace s') =
      count_calls is_Draw (trace (demo_world [demo_A])) +
      children_of_type Geometry demo_children ∧
    count_calls is_BlendStateBind (trace s') =
      count_calls is_BlendStateBind (trace (demo_world [demo_A])) +
      children_of_type BlendState demo_children.
Proof.
  destruct (render_items demo_mem 1 demo_children (demo_world [demo_A])) as [s'| |] eqn:H.
  - exists s'. split; [reflexivity |].
    destruct (render_items_calls_per_child demo_mem _ _ _ _ H) as (D & _ & B & _).
    split; [exact D | exact B].
  - exfalso. vm_compute in H. discriminate H.
  - exfalso. vm_compute in H. discriminate H.
Defined.

Lemma Render_empty_pipeline_witness :
  ∃ s', Render demo_mem demo_files demo_compile 2 [] 0 800 600 (RenderEngine_new 0 []) = Ok s' ∧
    m_items s' = [].
Proof.
  destruct (Render_empty_pipeline demo_mem demo_files demo_compile 2 0%Q 800%Z 600%Z
              (RenderEngine_new 0 []) eq_refl) as (s' & Hrun & Hitems & _).
  exists s'. split; [exact Hrun | exact Hitems].
Defined.

Lemma Render_throttled_witness :
  ∃ s', Render demo_mem demo_files demo_compile 2 [demo_B; demo_A] (1 # 4) 640 480
          (demo_world [demo_A; demo_B]) = Ok s' ∧
    m_items s' = [demo_A; demo_B] ∧
    Render demo_mem demo_files demo_compile 2 [demo_A; demo_B] (1 # 4) 640 480
      (demo_world [demo_A; demo_B]) = Ok s'.
Proof.
  destruct (Render demo_mem demo_files demo_compile 2 [demo_B; demo_A] (1 # 4) 640 480
              (demo_world [demo_A; demo_B])) as [s'| |] eqn:H.
  - exists s'. split; [reflexivity |].
    destruct (Render_throttled demo_mem demo_files demo_compile 2 [demo_B; demo_A]
                (1 # 4)%Q 640%Z 480%Z (demo_world [demo_A; demo_B]) s' eq_refl)
      as (Hi & _ & _ & _ & _ & _ & Hany); [by vm_compute | exact H |].
    split; [exact Hi | exact (Hany [demo_A; demo_B] eq_refl)].
  - exfalso. vm_compute in H. discriminate H.
  - exfalso. vm_compute in H. discriminate H.
Defined.

Lemma Render_first_frame_zero_size_witness :
  ∃ s', Render demo_mem demo_files demo_compile 2 [demo_A] 0 0 0 (RenderEngine_new 0 []) = Ok s' ∧
    rt_creations (trace s') = [] ∧ RtBind ∈ trace s'.
Proof.
  destruct (Render demo_mem demo_files demo_compile 2 [demo_A] 0 0 0 (RenderEngine_new 0 []))
    as [s'| |] eqn:H.
  - exists s'. split; [reflexivity |].
    destruct (Render_first_frame_zero_size demo_mem demo_files demo_compile 2 _ _ _ _ _ H)
      as (Hrt & _ & Hbind & _).
    split; [exact Hrt | exact Hbind].
  - exfalso. vm_compute in H. discriminate H.
  - exfalso. vm_compute in H. discriminate H.
Defined.

Lemma m_cache_at_threshold_witness :
  m_cache demo_mem demo_files demo_compile [demo_B; demo_A] (1 # 2)
    (demo_world [demo_A; demo_B]) = Ok (demo_world [demo_A; demo_B]).
Proof.
  apply (m_cache_at_threshold demo_mem demo_files demo_compile [demo_B; demo_A] (1 # 2)
           (demo_world [demo_A; demo_B]) eq_refl).
  by vm_compute.
Defined.

Lemma m_cache_length_change_keeps_timer_witness :
  ∃ s', m_cache demo_mem demo_files demo_compile [demo_A; demo_X; demo_B] 1
          (demo_world [demo_A; demo_B]) = Ok s' ∧ m_cacheTimer s' = 0%Q.
Proof.
  destruct (m_cache demo_mem demo_files demo_compile [demo_A; demo_X; demo_B] 1
              (demo_world [demo_A; demo_B])) as [s'| |] eqn:H.
  - exists s'. split; [reflexivity |].
    apply (m_cache_length_change_keeps_timer demo_mem demo_files demo_compile
             [demo_A; demo_X; demo_B] 1%Q (demo_world [demo_A; demo_B]) s');
      [discriminate | exact H].
  - exfalso. vm_compute in H. discriminate H.
  - exfalso. vm_compute in H. discriminate H.
Defined.

Lemma m_cache_in_step_witness :
  m_cache demo_mem demo_files demo_compile [demo_A; demo_B] 1 (demo_world [demo_A; demo_B]) =
  Ok (if Qlt_le_dec (1 # 2) (1 - m_cacheTimer (demo_world [demo_A; demo_B]))
      then set_cacheTimer 1 (demo_world [demo_A; demo_B])
      else demo_world [demo_A; demo_B]).
Proof.
  exact (m_cache_in_step demo_mem demo_files demo_compile [demo_A; demo_B] 1%Q
           (demo_world [demo_A; demo_B]) eq_refl).
Defined.

Lemma demo_all_passes :
  ∀ it, it ∈ [demo_A; demo_X] → ∃ data, demo_mem (Data it) = Some (PShaderPass data).
Proof.
  intros it Hit.
  repeat (apply elem_of_cons in Hit as [->|Hit]; [vm_compute; eauto |]).
  inversion Hit.
Qed.

Lemma m_cache_builds_from_empty_witness :
  ∃ s', m_cache demo_mem demo_files demo_compile [demo_A; demo_X] 0 (RenderEngine_new 0 []) = Ok s' ∧
    m_items s' = [demo_A; demo_X] ∧ length (m_vs s') = 2 ∧ length (m_ps s') = 2.
Proof.
  destruct (m_cache_builds_from_empty demo_mem demo_files demo_compile [demo_A; demo_X] 0%Q
              (RenderEngine_new 0 []) eq_refl eq_refl eq_refl)
    as (s' & Hrun & Hi & Hv & Hp & _).
  - apply (bool_decide_unpack _). by vm_compute.
  - exact demo_all_passes.
  - exists s'. repeat split; assumption.
Defined.

Lemma full_scan_remove_one_witness :
  full_scan demo_mem demo_files demo_compile [demo_A; demo_C]
    (demo_world [demo_A; demo_B; demo_C]) =
  Ok (uncached 1 102 202 (demo_world [demo_A; demo_B; demo_C])).
Proof.
  apply (full_scan_remove_one demo_mem demo_files demo_compile
           [demo_A] demo_B [demo_C] [demo_A; demo_C] 102 202
           (demo_world [demo_A; demo_B; demo_C])).
  - split; reflexivity.
  - exact demo_owned3.
  - reflexivity.
  - reflexivity.
  - apply (bool_decide_unpack _). by vm_compute.
  - reflexivity.
  - reflexivity.
Defined.

Lemma remove_loop_skips_next_witness :
  ∃ s', remove_loop [] 2 0 (demo_world [demo_A; demo_B]) = Ok s' ∧
    m_items s' !! 0 = Some demo_B.
Proof.
  destruct (remove_loop [] 2 0 (demo_world [demo_A; demo_B])) as [s'| |] eqn:H.
  - exists s'. split; [reflexivity |].
    apply (remove_loop_skips_next [] 2 0 (demo_world [demo_A; demo_B]) s' demo_A demo_B);
      [reflexivity | | reflexivity | exact H].
    apply (bool_decide_unpack _). by vm_compute.
  - exfalso. vm_compute in H. discriminate H.
  - exfalso. vm_compute in H. discriminate H.
Defined.

Lemma full_scan_reorder_relocates_witness :
  ∃ s', full_scan demo_mem demo_files demo_compile [demo_B; demo_A]
          (demo_world [demo_A; demo_B]) = Ok s' ∧
    relocation (demo_world [demo_A; demo_B]) s'.
Proof.
  destruct (full_scan_reorder_relocates demo_mem demo_files demo_compile [demo_B; demo_A]
              (demo_world [demo_A; demo_B])) as (s' & Hrun & _ & Hrel).
  - split; reflexivity.
  - apply Permutation_swap.
  - exists s'. split; assumption.
Defined.

Lemma demo_group_A :
  ∀ it, it ∈ [demo_A; demo_X; demo_B] → Name it = "A" →
    Data it ∈ (Data <$> m_items (demo_world [demo_A; demo_B])).
Proof.
  intros it Hit Hname.
  repeat (apply elem_of_cons in Hit as [->|Hit];
          [first [discriminate Hname | apply (bool_decide_unpack _); by vm_compute] |]).
  inversion Hit.
Qed.

Lemma m_cache_other_groups_witness :
  ∃ s', m_cache demo_mem demo_files demo_compile [demo_A; demo_X; demo_B] 1
          (demo_world [demo_A; demo_B]) = Ok s' ∧
    group_of "A" (m_msgs s') = [].
Proof.
  destruct (m_cache demo_mem demo_files demo_compile [demo_A; demo_X; demo_B] 1
              (demo_world [demo_A; demo_B])) as [s'| |] eqn:H.
  - exists s'. split; [reflexivity |].
    exact (m_cache_other_groups demo_mem demo_files demo_compile _ _ _ _ "A" demo_group_A H).
  - exfalso. vm_compute in H. discriminate H.
  - exfalso. vm_compute in H. discriminate H.
Defined.

Lemma demo_no_Z : ∀ it, it ∈ m_items (demo_world [demo_A; demo_B]) → Name it ≠ "Z".
Proof.
  intros it Hit. simpl in Hit.
  repeat (apply elem_of_cons in Hit as [->|Hit]; [discriminate |]).
  inversion Hit.
Qed.

Lemma Recompile_unknown_name_witness :
  Recompile demo_mem demo_files demo_compile "Z" (demo_world [demo_A; demo_B]) =
  Ok (demo_world [demo_A; demo_B]).
Proof.
  exact (Recompile_unknown_name demo_mem demo_files demo_compile "Z"
           (demo_world [demo_A; demo_B]) demo_no_Z).
Defined.

Lemma cache_owned_preserved_witness :
  ∃ s', Render demo_mem demo_files demo_compile 2 [demo_B; demo_X] 1 640 480
          (demo_world [demo_A; demo_B]) = Ok s' ∧ cache_owned s'.
Proof.
  destruct (Render demo_mem demo_files demo_compile 2 [demo_B; demo_X] 1 640 480
              (demo_world [demo_A; demo_B])) as [s'| |] eqn:H.
  - exists s'. split; [reflexivity |].
    exact (proj1 (proj2 (cache_owned_preserved demo_mem demo_files demo_compile 2))
             _ _ _ _ _ _ demo_owned H).
  - exfalso. vm_compute in H. discriminate H.
  - exfalso. vm_compute in H. discriminate H.
Defined.

Lemma engine_destruction_frees_all_witness :
  ∃ s1 s2,
    Render demo_mem demo_files demo_compile 2 [demo_A; demo_X] 0 800 600
      (RenderEngine_new 0 []) = Ok s1 ∧
    length (m_items s1) = 2 ∧
    FlushCache s1 = Ok s2 ∧ heap s2 = ∅.
Proof.
  destruct (Render demo_mem demo_files demo_compile 2 [demo_A; demo_X] 0 800 600
              (RenderEngine_new 0 [])) as [s1| |] eqn:H.
  - destruct (engine_destruction_frees_all demo_mem demo_files demo_compile 2 s1)
      as (_ & _ & _ & s2 & Hflush & _ & _ & _ & Hheap).
    + eapply reachable_step; [apply reachable_new |]. eapply step_Render. exact H.
    + exists s1, s2. split; [reflexivity |]. split; [| split; assumption].
      vm_compute in H. injection H as <-. reflexivity.
  - exfalso. vm_compute in H. discriminate H.
  - exfalso. vm_compute in H. discriminate H.
Defined.

Lemma move_loop_overrun_witness :
  move_loop [demo_A] (length (m_items (demo_world [demo_A; demo_B]))) 0
    (demo_world [demo_A; demo_B]) = Undefined.
Proof.
  apply (move_loop_overrun [demo_A] (demo_world [demo_A; demo_B])).
  simpl. lia.
Defined.

Lemma demo_C_cached :
  ∀ it, it ∈ [demo_C] → Data it ∈ (Data <$> m_items (demo_world [demo_A; demo_B; demo_C])).
Proof.
  intros it Hit.
  repeat (apply elem_of_cons in Hit as [->|Hit];
          [apply (bool_decide_unpack _); by vm_compute |]).
  inversion Hit.
Qed.

Lemma m_cache_adjacent_removals_overrun_witness :
  m_cache demo_mem demo_files demo_compile [demo_C] 1
    (demo_world [demo_A; demo_B; demo_C]) = Undefined ∧
  Render demo_mem demo_files demo_compile 2 [] 1 640 480
    (demo_world [demo_A; demo_B]) = Undefined.
Proof.
  split.
  - apply (m_cache_adjacent_removals_overrun demo_mem demo_files demo_compile 2
             [demo_C] 1%Q (demo_world [demo_A; demo_B; demo_C]) 0 demo_A demo_B).
    + apply (bool_decide_unpack _). by vm_compute.
    + exact demo_C_cached.
    + reflexivity.
    + reflexivity.
    + apply (bool_decide_unpack _). by vm_compute.
    + apply (bool_decide_unpack _). by vm_compute.
  - apply (m_cache_adjacent_removals_overrun demo_mem demo_files demo_compile 2
             [] 1%Q (demo_world [demo_A; demo_B]) 0 demo_A demo_B).
    + constructor.
    + intros it Hit. inversion Hit.
    + reflexivity.
    + reflexivity.
    + intros Hin. inversion Hin.
    + intros Hin. inversion Hin.
Defined.

Lemma render_passes_binds_cached_pairs_witness :
  ∃ s', render_passes demo_mem 2 [demo_A; demo_B] 0 (demo_world [demo_A; demo_B]) = Ok s' ∧
    shader_binds (trace s') =
      [VertexShaderBind 101; PixelShaderBind 201; VertexShaderBind 102; PixelShaderBind 202].
Proof.
  destruct (render_passes demo_mem 2 [demo_A; demo_B] 0 (demo_world [demo_A; demo_B]))
    as [s'| |] eqn:H.
  - exists s'. split; [reflexivity |].
    apply (render_passes_binds_cached_pairs demo_mem 2 (demo_world [demo_A; demo_B]) s');
      [split; reflexivity | exact H].
  - exfalso. vm_compute in H. discriminate H.
  - exfalso. vm_compute in H. discriminate H.
Defined.

Lemma full_scan_adjacent_swap_witness :
  ∃ s', full_scan demo_mem demo_files demo_compile [demo_A; demo_C; demo_B]
          (demo_world [demo_A; demo_B; demo_C]) = Ok s' ∧
    m_items s' = [demo_A; demo_C; demo_B] ∧
    relocation (demo_world [demo_A; demo_B; demo_C]) s'.
Proof.
  destruct (full_scan_adjacent_swap demo_mem demo_files demo_compile
              [demo_A] demo_B demo_C [] (demo_world [demo_A; demo_B; demo_C]))
    as (s' & Hrun & Hitems & _ & Hrel).
  - split; reflexivity.
  - apply (bool_decide_unpack _). by vm_compute.
  - reflexivity.
  - exists s'. split; [exact Hrun |]. split; [exact Hitems | exact Hrel].
Defined.
